(** * mgoutil: AsUpdate, structure descriptors and the zero-value test

    A shallow embedding of [update.go] and [bson.go] of juju/mgoutil, and
    the properties of [AsUpdate] that are proved of it.

    The Go code works through the package [reflect].  The file has

    - a model of the fragment of [reflect] that the code calls: kinds,
      types, values, field access, the read-only and the addressable flag;
    - what the code takes from outside ([Collaborators]): the method
      [GetBSON] of the values that have one, the BSON codec,
      [time.Time.IsZero], [reflect.StructTag.Get], [strings.ToLower];
    - the embedding of [isZero], [getStructInfo], [structAsUpdate],
      [mapAsUpdate], [nonStructAsUpdate] and [AsUpdate].  A call returns,
      panics, or runs out of fuel ([outcome]); a Go result [(T, error)] is
      a pair or a sum;
    - the collaborators and the values of the package's test suite
      ([Suite]);
    - the table [structMap] of [getStructInfo], and the helper
      [wrapInDoc] of the test suite;
    - the notions in which the properties are stated, the properties, and
      the scenarios of the test suite, run on the embedding. *)

From Stdlib Require Import ZArith String Ascii List Lia.
From Stdlib Require Import Floats.SpecFloat.
From stdpp Require Import gmap strings list fin_maps.

Set Warnings "-register-all".
#[local] Open Scope string_scope.
#[local] Open Scope Z_scope.

(* ================================================================== *)
(** ** Outcomes of a Go call *)

(** Payload of a Go [panic]. *)
Inductive panic : Type :=
| UnsupportedFlag (flag tag st : string)
    (* panic(externalPanic("Unsupported flag %q in tag %q of type %s")) *)
| InlineNeedsStructOrMap
    (* panic("Option ,inline needs a struct value or map field") *)
| ReflectPanic (what : string).
    (* a panic raised inside package reflect *)

(** A Go call returns, panics, or (for the resolution loop of [AsUpdate],
    which is run with fuel) has not finished yet. *)
Inductive outcome (A : Type) : Type :=
| Returns (a : A)
| Panics (p : panic)
| OutOfFuel.
Arguments Returns {A} a.
Arguments Panics {A} p.
Arguments OutOfFuel {A}.

Definition bind {A B : Type} (m : outcome A) (k : A -> outcome B) : outcome B :=
  match m with
  | Returns a => k a
  | Panics p => Panics p
  | OutOfFuel => OutOfFuel
  end.

Notation "x <- m ;; k" := (bind m (fun x => k))
  (at level 100, m at next level, right associativity).

(** Go errors, one constructor per place where the code creates one. *)
Inductive error : Type :=
| ErrGetBSONFailed (cause : string)
    (* fmt.Errorf("GetBSON failed: %v", err) *)
| ErrInlineConflict (ks : string)
    (* errgo.Newf("Can't have key %q in inlined map; conflicts with struct field", ks) *)
| ErrCannotMarshal (cause : string)
    (* errgo.Notef(err, "cannot marshal") *)
| ErrUnmarshal (cause : string)
    (* the error of bson.Unmarshal, returned as it is *)
| ErrMapKeyNotString
    (* errgo.Newf("map key not a string") *)
| ErrDuplicatedKey (key st : string)
    (* errors.New("Duplicated key '" + key + "' in struct " + st.String()) *)
| ErrMultipleInlineMaps (st : string)
    (* errors.New("Multiple ,inline maps in struct " + st.String()) *)
| ErrInlineMapKey (st : string).
    (* errors.New("Option ,inline needs a map with string keys in struct " + st.String()) *)

(** [err.Error()] for the errors whose text the code builds by plain
    concatenation. *)
Definition Error (e : error) : option string :=
  match e with
  | ErrGetBSONFailed cause => Some ("GetBSON failed: " ++ cause)
  | ErrCannotMarshal cause => Some ("cannot marshal: " ++ cause)
  | ErrUnmarshal cause => Some cause
  | ErrMapKeyNotString => Some "map key not a string"
  | ErrDuplicatedKey key st => Some ("Duplicated key '" ++ key ++ "' in struct " ++ st)
  | ErrMultipleInlineMaps st => Some ("Multiple ,inline maps in struct " ++ st)
  | ErrInlineMapKey st =>
      Some ("Option ,inline needs a map with string keys in struct " ++ st)
  | ErrInlineConflict _ => None
  end%string.

(* ================================================================== *)
(** ** package reflect: kinds and types *)

Inductive Kind : Type :=
| KInvalid | KBool
| KInt | KInt8 | KInt16 | KInt32 | KInt64
| KUint | KUint8 | KUint16 | KUint32 | KUint64 | KUintptr
| KFloat32 | KFloat64 | KComplex64 | KComplex128
| KArray | KChan | KFunc | KInterface | KMap | KPtr | KSlice
| KString | KStruct | KUnsafePointer.

#[global] Instance Kind_eq_dec : EqDecision Kind.
Proof. solve_decision. Defined.

(** [reflect.StructField] without its [Type], which the type and the
    value of a record carry next to it. *)
Record StructField : Type := mkStructField {
  Name : string;
  PkgPath : string;     (* empty for an exported field *)
  Tag : string;
  Anonymous : bool      (* an embedded field *)
}.

(** [reflect.Type].  Only map and struct types have structure that the
    code looks into; every other type is its kind and its name.  [name]
    is what [Type.String()] prints. *)
Inductive type : Type :=
| TBasic (k : Kind) (name : string)
| TMap (name : string) (key : type)
| TStruct (name : string) (fields : list (StructField * type)).

Definition TypeKind (t : type) : Kind :=
  match t with
  | TBasic k _ => k
  | TMap _ _ => KMap
  | TStruct _ _ => KStruct
  end.

Definition TypeString (t : type) : string :=
  match t with
  | TBasic _ n => n
  | TMap n _ => n
  | TStruct n _ => n
  end.

(** Identity of types ([==] on [reflect.Type]). *)
Fixpoint type_eqb (a b : type) {struct a} : bool :=
  match a, b with
  | TBasic k n, TBasic k' n' => bool_decide (k = k') && String.eqb n n'
  | TMap n key, TMap n' key' => String.eqb n n' && type_eqb key key'
  | TStruct n fs, TStruct n' fs' =>
      String.eqb n n' &&
      (fix fields_eqb (l : list (StructField * type)) (l' : list (StructField * type))
         {struct l} : bool :=
         match l, l' with
         | [], [] => true
         | (f, t) :: r, (f', t') :: r' =>
             String.eqb (Name f) (Name f') && String.eqb (PkgPath f) (PkgPath f')
             && String.eqb (Tag f) (Tag f') && Bool.eqb (Anonymous f) (Anonymous f')
             && type_eqb t t' && fields_eqb r r'
         | _, _ => false
         end) fs fs'
  | _, _ => false
  end.

(** The three types the code compares with. *)
Definition typeString : type := TBasic KString "string".   (* reflect.TypeOf("") *)

Definition typeRaw : type :=                                 (* reflect.TypeOf(bson.Raw{}) *)
  TStruct "bson.Raw"
    [ ({| Name := "Kind"; PkgPath := ""; Tag := ""; Anonymous := false |},
       TBasic KUint8 "uint8");
      ({| Name := "Data"; PkgPath := ""; Tag := ""; Anonymous := false |},
       TBasic KSlice "[]uint8") ].

Definition typeTime : type :=                                (* reflect.TypeOf(time.Time{}) *)
  TStruct "time.Time"
    [ ({| Name := "wall"; PkgPath := "time"; Tag := ""; Anonymous := false |},
       TBasic KUint64 "uint64");
      ({| Name := "ext"; PkgPath := "time"; Tag := ""; Anonymous := false |},
       TBasic KInt64 "int64");
      ({| Name := "loc"; PkgPath := "time"; Tag := ""; Anonymous := false |},
       TBasic KPtr "*time.Location") ].

(* ================================================================== *)
(** ** package reflect: values *)

Inductive IntKind := I_ | I8 | I16 | I32 | I64.
Inductive UintKind := U_ | U8 | U16 | U32 | U64 | Uptr.
Inductive FloatKind := F32 | F64.
Inductive OtherKind := OComplex64 | OComplex128 | OArray | OChan | OFunc | OUnsafePointer.

Definition IntKind_Kind (k : IntKind) : Kind :=
  match k with I_ => KInt | I8 => KInt8 | I16 => KInt16 | I32 => KInt32 | I64 => KInt64 end.
Definition UintKind_Kind (k : UintKind) : Kind :=
  match k with
  | U_ => KUint | U8 => KUint8 | U16 => KUint16 | U32 => KUint32 | U64 => KUint64
  | Uptr => KUintptr
  end.
Definition FloatKind_Kind (k : FloatKind) : Kind :=
  match k with F32 => KFloat32 | F64 => KFloat64 end.
Definition OtherKind_Kind (k : OtherKind) : Kind :=
  match k with
  | OComplex64 => KComplex64 | OComplex128 => KComplex128 | OArray => KArray
  | OChan => KChan | OFunc => KFunc | OUnsafePointer => KUnsafePointer
  end.

(** The data of a [reflect.Value]; also, without [VIface], the content of
    an [interface{}], where [VInvalid] is the nil interface
    ([reflect.ValueOf(nil)] is the zero Value).

    - every value carries the name of its type, a record carries the
      declaration of each field next to the field's value, so that the
      type of a value is computed from it ([TypeOf]);
    - [VIface] is a slot of interface type (a field, a map element, the
      target of a pointer) with the value it holds, if any;
    - a map is keyed by the text of its keys: for a key type of kind
      String these are the keys themselves; the code never looks at the
      keys of any other map (it only takes its length);
    - nil and empty maps, nil and empty slices are not told apart: the
      code only takes their length;
    - [VOther] stands for the kinds the code never looks into. *)
Inductive value : Type :=
| VInvalid
| VBool (name : string) (b : bool)
| VInt (k : IntKind) (name : string) (n : Z)
| VUint (k : UintKind) (name : string) (n : Z)
| VFloat (k : FloatKind) (name : string) (f : spec_float)
| VString (name : string) (s : string)
| VPtr (name : string) (target : option value)
| VIface (name : string) (dyn : option value)
| VSlice (name : string) (elems : list value)
| VMap (name : string) (key : type) (m : gmap string value)
| VStruct (name : string) (fields : list (StructField * value))
| VOther (k : OtherKind) (name : string).

(** [Value.Type()] (on the zero Value it panics; the code calls it on
    valid values only, see [AsUpdate]). *)
Fixpoint TypeOf (v : value) : type :=
  match v with
  | VInvalid => TBasic KInvalid "<invalid>"
  | VBool n _ => TBasic KBool n
  | VInt k n _ => TBasic (IntKind_Kind k) n
  | VUint k n _ => TBasic (UintKind_Kind k) n
  | VFloat k n _ => TBasic (FloatKind_Kind k) n
  | VString n _ => TBasic KString n
  | VPtr n _ => TBasic KPtr n
  | VIface n _ => TBasic KInterface n
  | VSlice n _ => TBasic KSlice n
  | VMap n key _ => TMap n key
  | VStruct n fs => TStruct n (map (fun p => (fst p, TypeOf (snd p))) fs)
  | VOther k n => TBasic (OtherKind_Kind k) n
  end.

(** [Value.Kind()]. *)
Definition ValueKind (v : value) : Kind := TypeKind (TypeOf v).

(** [Value.IsValid()]: false on the zero Value only. *)
Definition IsValid (v : value) : bool :=
  match v with
  | VInvalid => false
  | _ => true
  end.

(** What a valid value is as an [interface{}] (reflect's packEface): a
    slot of interface type gives what it holds. *)
Definition packEface (v : value) : value :=
  match v with
  | VIface _ (Some d) => d
  | VIface _ None => VInvalid
  | _ => v
  end.

(** [Value.Interface()]: panics on the zero Value and on a value reached
    through an unexported field ([ro], reflect's flagRO). *)
Definition Interface (ro : bool) (v : value) : outcome value :=
  if negb (IsValid v) then
    Panics (ReflectPanic "reflect: call of reflect.Value.Interface on zero Value")
  else if ro then
    Panics (ReflectPanic
      "reflect.Value.Interface: cannot return value obtained from unexported field or method")
  else Returns (packEface v).

(** [Value.Elem()] of a pointer: its target, the zero Value when nil. *)
Definition Elem (v : value) : value :=
  match v with
  | VPtr _ (Some t) => t
  | _ => VInvalid
  end.

(** [Value.Addr()] of an addressable value of type [bson.Raw]. *)
Definition Addr (v : value) : value := VPtr ("*" ++ TypeString (TypeOf v)) (Some v).

(** A [bson.Raw{Kind: kind, Data: data}]. *)
Definition RawValue (raw : Z * list Byte.byte) : value :=
  VStruct "bson.Raw"
    [ ({| Name := "Kind"; PkgPath := ""; Tag := ""; Anonymous := false |},
       VUint U8 "uint8" (fst raw));
      ({| Name := "Data"; PkgPath := ""; Tag := ""; Anonymous := false |},
       VSlice "[]uint8"
         (map (fun b => VUint U8 "uint8" (Z.of_N (Byte.to_N b))) (snd raw))) ].

(** A [time.Time] with the given [wall] and [ext] and no location. *)
Definition TimeValue (wall ext : Z) : value :=
  VStruct "time.Time"
    [ ({| Name := "wall"; PkgPath := "time"; Tag := ""; Anonymous := false |},
       VUint U64 "uint64" wall);
      ({| Name := "ext"; PkgPath := "time"; Tag := ""; Anonymous := false |},
       VInt I64 "int64" ext);
      ({| Name := "loc"; PkgPath := "time"; Tag := ""; Anonymous := false |},
       VPtr "*time.Location" None) ].

(** [Value.Field(i)] with the read-only flag of the result: an
    unexported field is read-only.  Below an unexported field that is not
    embedded every field is read-only too (flagStickyRO), but the code
    never goes below such a field; the flag of an embedded field is not
    passed on to the fields below it (flagEmbedRO).  So the flag of the
    result is decided by the last field alone. *)
Definition Field (v : value) (i : nat) : outcome (bool * value) :=
  match v with
  | VStruct _ fs =>
      match fs !! i with
      | Some (f, x) => Returns (negb (String.eqb (PkgPath f) ""), x)
      | None => Panics (ReflectPanic "reflect: Field index out of range")
      end
  | _ => Panics (ReflectPanic "reflect: call of reflect.Value.Field on non-struct Value")
  end.

(** [Value.FieldByIndex(index)]. *)
Fixpoint FieldByIndex (v : value) (index : list nat) : outcome (bool * value) :=
  match index with
  | [] => Returns (false, v)
  | [i] => Field v i
  | i :: rest => x <- Field v i ;; FieldByIndex (snd x) rest
  end.

(** [Value.Len()] on the kinds the code applies it to. *)
Definition Len (v : value) : outcome nat :=
  match v with
  | VSlice _ l => Returns (length l)
  | VMap _ _ m => Returns (size m)
  | VString _ s => Returns (String.length s)
  | _ => Panics (ReflectPanic "reflect: call of reflect.Value.Len on a value without length")
  end.

(** [Value.MapKeys()] followed by [k.String()] on each key: the keys of a
    string-keyed map, in some order (Go leaves the order open). *)
Definition MapKeys (v : value) : outcome (list string) :=
  match v with
  | VMap _ _ m => Returns (map fst (map_to_list m))
  | _ => Panics (ReflectPanic "reflect: call of reflect.Value.MapKeys on non-map Value")
  end.

(** [Value.MapIndex(k)]: the zero Value when the key is absent. *)
Definition MapIndex (v : value) (ks : string) : value :=
  match v with
  | VMap _ _ m => default VInvalid (m !! ks)
  | _ => VInvalid
  end.

(** [Type.Key()] of a map type. *)
Definition TypeKey (t : type) : outcome type :=
  match t with
  | TMap _ key => Returns key
  | _ => Panics (ReflectPanic "reflect: Key of non-map type")
  end.

(* ================================================================== *)
(** ** package strings *)

(** [strings.Index(s, substr)]. *)
Definition strings_Index (s substr : string) : Z :=
  match String.index 0 substr s with
  | Some n => Z.of_nat n
  | None => -1
  end.

(** [strings.Split(s, sep)] for a separator of one byte. *)
Fixpoint strings_Split (s : string) (sep : ascii) : list string :=
  match s with
  | EmptyString => [""]
  | String c r =>
      if Ascii.eqb c sep then "" :: strings_Split r sep
      else match strings_Split r sep with
           | h :: t => String c h :: t
           | [] => [String c ""]
           end
  end.

(* ================================================================== *)
(** ** What the code takes from outside *)

(** The collaborators of the package: the method [GetBSON] of the values
    that have one (interface [bson.Getter]), the BSON codec, and the
    library functions that are used as they are. *)
Class Collaborators : Type := {
  (** [GetBSON v] is [Some (getv, err)] when the dynamic type of [v] has a
      method [GetBSON], which returns [getv, err] on the receiver [v];
      [err] is the text of the error, if any. *)
  GetBSON : value -> option (value * option string);
  (** [bson.Marshal]: the bytes of a document, or the text of the error. *)
  bson_Marshal : value -> list Byte.byte + string;
  (** [bson.Unmarshal] into a [map[string]bson.Raw]: the kind and the
      data of each element of the document, or the text of the error. *)
  bson_Unmarshal : list Byte.byte -> gmap string (Z * list Byte.byte) + string;
  (** [time.Time.IsZero]. *)
  time_IsZero : value -> bool;
  (** [reflect.StructTag.Get]. *)
  StructTag_Get : string -> string -> string;
  (** [strings.ToLower]. *)
  strings_ToLower : string -> string
}.

(* ================================================================== *)
(** ** bson.go *)

Section Bson.
Context `{Collaborators}.

(** The loop of [isZero] over the fields of a record, for a given way
    [isZero] to classify a field. *)
Section IsZeroFields.
Variable isZero : bool -> value -> outcome bool.

Fixpoint isZeroFields (fs : list (StructField * value)) : outcome bool :=
  match fs with
  | [] => Returns true
  | (f, x) :: rest =>
      if negb (String.eqb (PkgPath f) "") && negb (Anonymous f) then
        isZeroFields rest                                   (* Private field *)
      else
        z <- isZero (negb (String.eqb (PkgPath f) "")) x ;;
        if negb z then Returns false else isZeroFields rest
  end.
End IsZeroFields.

(** [isZero(v)]; [ro] is the read-only flag of [v]. *)
Fixpoint isZero (ro : bool) (v : value) {struct v} : outcome bool :=
  match v with
  | VString _ s => Returns (Nat.eqb (String.length s) 0)
  | VPtr _ target => Returns (bool_decide (target = None))
  | VIface _ dyn => Returns (bool_decide (dyn = None))
  | VSlice _ elems => Returns (Nat.eqb (length elems) 0)
  | VMap _ _ m => Returns (Nat.eqb (size m) 0)
  | VInt _ _ n => Returns (n =? 0)
  | VUint _ _ n => Returns (n =? 0)
  | VFloat _ _ f => Returns (match f with S754_zero _ => true | _ => false end)
  | VBool _ b => Returns (negb b)
  | VStruct _ fs =>
      if type_eqb (TypeOf v) typeTime then
        t <- Interface ro v ;; Returns (time_IsZero t)
      else
        isZeroFields isZero fs
  | VInvalid | VOther _ _ => Returns false
  end.

Record fieldInfo : Type := mkFieldInfo {
  Key : string;
  Num : nat;
  OmitEmpty : bool;
  MinSize : bool;
  Inline : list nat      (* [] is the nil slice *)
}.

(** [structInfo]; its field [Zero] is not used by this package. *)
Record structInfo : Type := mkStructInfo {
  FieldsMap : gmap string fieldInfo;
  FieldsList : list fieldInfo;
  InlineMap : Z
}.

(** The tag that [getStructInfo] reads off a field. *)
Definition fieldTag (field : StructField) : string :=
  let tag := StructTag_Get (Tag field) "bson" in
  if bool_decide (tag = "") && (strings_Index (Tag field) ":" <? 0)
  then Tag field else tag.

(** The loop over [fields[1:]]. *)
Fixpoint scanFlags (st : type) (tag : string) (flags : list string)
    (info : fieldInfo) (inline : bool) : outcome (fieldInfo * bool) :=
  match flags with
  | [] => Returns (info, inline)
  | flag :: rest =>
      if bool_decide (flag = "omitempty") then
        scanFlags st tag rest
          (mkFieldInfo (Key info) (Num info) true (MinSize info) (Inline info)) inline
      else if bool_decide (flag = "minsize") then
        scanFlags st tag rest
          (mkFieldInfo (Key info) (Num info) (OmitEmpty info) true (Inline info)) inline
      else if bool_decide (flag = "inline") then
        scanFlags st tag rest info true
      else
        Panics (UnsupportedFlag flag tag (TypeString st))
  end.

(** From [strings.Split(tag, ",")] to [tag = fields[0]]: the field
    descriptor with its flags, whether the field is inline, and the key
    part of the tag. *)
Definition parseTag (st : type) (tag : string) (info : fieldInfo)
    : outcome (fieldInfo * bool * string) :=
  let fields := strings_Split tag "," in
  if (1 <? length fields)%nat then
    r <- scanFlags st tag (tail fields) info false ;;
    Returns (fst r, snd r, hd "" fields)
  else
    Returns (info, false, tag).

(** The loop that splices the descriptors of an inlined record, field [i]
    of [st], into the descriptor under construction. *)
Fixpoint splice (st : type) (i : nat) (l : list fieldInfo)
    (fieldsMap : gmap string fieldInfo) (fieldsList : list fieldInfo)
    : gmap string fieldInfo * list fieldInfo + error :=
  match l with
  | [] => inl (fieldsMap, fieldsList)
  | finfo :: rest =>
      if bool_decide (is_Some (fieldsMap !! Key finfo)) then
        inr (ErrDuplicatedKey (Key finfo) (TypeString st))
      else
        let finfo :=
          mkFieldInfo (Key finfo) (Num finfo) (OmitEmpty finfo) (MinSize finfo)
            (match Inline finfo with
             | [] => [i; Num finfo]
             | path => i :: path
             end) in
        splice st i rest (<[Key finfo := finfo]> fieldsMap) (fieldsList ++ [finfo])
  end.

(** The loop of [getStructInfo] over the fields of [st], from field [i]
    on, for a given way [getStructInfo] to describe an inlined record. *)
Section ScanFields.
Variable getStructInfo : type -> outcome (structInfo + error).
Variable st : type.

Fixpoint scanFields (fs : list (StructField * type)) (i : nat)
    (fieldsMap : gmap string fieldInfo) (fieldsList : list fieldInfo)
    (inlineMap : Z) {struct fs} : outcome (structInfo + error) :=
  match fs with
  | [] => Returns (inl (mkStructInfo fieldsMap fieldsList inlineMap))
  | (field, ftype) :: rest =>
      if negb (String.eqb (PkgPath field) "") && negb (Anonymous field) then
        scanFields rest (S i) fieldsMap fieldsList inlineMap     (* Private field *)
      else
        let tag := fieldTag field in
        if bool_decide (tag = "-") then
          scanFields rest (S i) fieldsMap fieldsList inlineMap
        else
          r <- parseTag st tag (mkFieldInfo "" i false false []) ;;
          let '(info, inline, tag) := r in
          if inline then
            match TypeKind ftype with
            | KMap =>
                if 0 <=? inlineMap then
                  Returns (inr (ErrMultipleInlineMaps (TypeString st)))
                else
                  key <- TypeKey ftype ;;
                  if negb (type_eqb key typeString) then
                    Returns (inr (ErrInlineMapKey (TypeString st)))
                  else
                    scanFields rest (S i) fieldsMap fieldsList (Z.of_nat (Num info))
            | KStruct =>
                r <- getStructInfo ftype ;;
                match r with
                | inr err => Returns (inr err)
                | inl sinfo =>
                    match splice st i (FieldsList sinfo) fieldsMap fieldsList with
                    | inr err => Returns (inr err)
                    | inl (fieldsMap, fieldsList) =>
                        scanFields rest (S i) fieldsMap fieldsList inlineMap
                    end
                end
            | _ => Panics InlineNeedsStructOrMap
            end
          else
            let info :=
              mkFieldInfo
                (if bool_decide (tag <> "") then tag else strings_ToLower (Name field))
                (Num info) (OmitEmpty info) (MinSize info) (Inline info) in
            if bool_decide (is_Some (fieldsMap !! Key info)) then
              Returns (inr (ErrDuplicatedKey (Key info) (TypeString st)))
            else
              scanFields rest (S i) (<[Key info := info]> fieldsMap)
                (fieldsList ++ [info]) inlineMap
  end.
End ScanFields.

(** [getStructInfo(st)].  The table [structMap] only replays, for a type
    seen before, the descriptor that this function computes from the type
    alone; it is left out. *)
Fixpoint getStructInfo (st : type) : outcome (structInfo + error) :=
  match st with
  | TStruct _ fields => scanFields getStructInfo st fields 0 ∅ [] (-1)
  | _ => Panics (ReflectPanic "reflect: NumField of non-struct type")
  end.

End Bson.

(* ================================================================== *)
(** ** update.go *)

(** [Update]: [None] is a nil map. *)
Record Update : Type := mkUpdate {
  Set_ : option (gmap string value);
  Unset_ : option (gmap string value)
}.

(** [Update{}]. *)
Definition zeroUpdate : Update := mkUpdate None None.

Section UpdateGo.
Context `{Collaborators}.

(** The loop of [mapAsUpdate] over [v.MapKeys()]. *)
Fixpoint mapLoop (v : value) (keys : list string) (set : gmap string value)
    : outcome (gmap string value) :=
  match keys with
  | [] => Returns set
  | ks :: rest =>
      if bool_decide (ks = "_id") then mapLoop v rest set
      else
        x <- Interface false (MapIndex v ks) ;;
        mapLoop v rest (<[ks := x]> set)
  end.

Definition mapAsUpdate (v : value) : outcome (Update * option error) :=
  key <- TypeKey (TypeOf v) ;;
  if bool_decide (TypeKind key <> KString) then
    Returns (zeroUpdate, Some ErrMapKeyNotString)
  else
    keys <- MapKeys v ;;
    set <- mapLoop v keys ∅ ;;
    Returns (mkUpdate (Some set) (Some ∅), None).

Definition nonStructAsUpdate (v : value) : outcome (Update * option error) :=
  x <- Interface false v ;;
  match bson_Marshal x with
  | inr err => Returns (zeroUpdate, Some (ErrCannotMarshal err))
  | inl data =>
      match bson_Unmarshal data with
      | inr err => Returns (zeroUpdate, Some (ErrUnmarshal err))
      | inl m => mapAsUpdate (VMap "map[string]bson.Raw" typeString (RawValue <$> m))
      end
  end.

(** The loop of [structAsUpdate] over the keys of the inline map [m],
    whose read-only flag is [ro]. *)
Fixpoint inlineLoop (sinfo : structInfo) (ro : bool) (m : value)
    (keys : list string) (set : gmap string value)
    : outcome (gmap string value + error) :=
  match keys with
  | [] => Returns (inl set)
  | ks :: rest =>
      if bool_decide (is_Some (FieldsMap sinfo !! ks)) then
        Returns (inr (ErrInlineConflict ks))
      else if bool_decide (ks <> "_id") then
        x <- Interface ro (MapIndex m ks) ;;
        inlineLoop sinfo ro m rest (<[ks := x]> set)
      else
        inlineLoop sinfo ro m rest set
  end.

(** The field of [v] that [info] describes, with its read-only flag. *)
Definition fieldValue (v : value) (info : fieldInfo) : outcome (bool * value) :=
  match Inline info with
  | [] => Field v (Num info)
  | index => FieldByIndex v index
  end.

(** The loop of [structAsUpdate] over [sinfo.FieldsList]. *)
Fixpoint fieldsLoop (v : value) (l : list fieldInfo)
    (set unset : gmap string value)
    : outcome (gmap string value * gmap string value) :=
  match l with
  | [] => Returns (set, unset)
  | info :: rest =>
      if bool_decide (Key info = "_id") then fieldsLoop v rest set unset
      else
        value <- fieldValue v info ;;
        z <- (if OmitEmpty info then isZero (fst value) (snd value)
              else Returns false) ;;
        if z then
          fieldsLoop v rest set (<[Key info := VInvalid]> unset)
        else
          x <- Interface (fst value) (snd value) ;;
          fieldsLoop v rest (<[Key info := x]> set) unset
  end.

(** The first part of [structAsUpdate], on the inline map: what it puts
    into [u.Set], or the error it returns. *)
Definition inlineSet (v : value) (sinfo : structInfo)
    : outcome (gmap string value + error) :=
  if 0 <=? InlineMap sinfo then
    m <- Field v (Z.to_nat (InlineMap sinfo)) ;;
    n <- Len (snd m) ;;
    if negb (Nat.eqb n 0) then
      keys <- MapKeys (snd m) ;;
      inlineLoop sinfo (fst m) (snd m) keys ∅
    else Returns (inl ∅)
  else Returns (inl ∅).

Definition structAsUpdate (v : value) : outcome (Update * option error) :=
  r <- getStructInfo (TypeOf v) ;;
  match r with
  | inr err => Returns (zeroUpdate, Some err)
  | inl sinfo =>
      r <- inlineSet v sinfo ;;
      match r with
      | inr err => Returns (zeroUpdate, Some err)
      | inl set =>
          su <- fieldsLoop v (FieldsList sinfo) set ∅ ;;
          Returns (mkUpdate (Some (fst su)) (Some (snd su)), None)
      end
  end.

(** What the type assertion [v.Interface().(bson.Getter)] finds: a nil
    interface has no method. *)
Definition asGetter (x : value) : option (value * option string) :=
  match x with
  | VInvalid => None
  | _ => GetBSON x
  end.

(** The part of [AsUpdate] after the loop; [addr] tells whether [v] is
    addressable. *)
Definition dispatch (v : value) (addr : bool) : outcome (Update * option error) :=
  if type_eqb (TypeOf v) typeRaw then
    if addr then nonStructAsUpdate (Addr v)
    else Panics (ReflectPanic "reflect.Value.Addr of unaddressable value")
  else
    match TypeKind (TypeOf v) with
    | KMap => mapAsUpdate v
    | KStruct => structAsUpdate v
    | _ => nonStructAsUpdate v
    end.

(** The loop of [AsUpdate], and what follows it, on the value [v]; each
    turn of the loop takes one unit of [fuel].  A value is addressable
    when it was reached through a pointer. *)
Fixpoint resolve (fuel : nat) (v : value) (addr : bool)
    : outcome (Update * option error) :=
  match fuel with
  | O => OutOfFuel
  | S fuel =>
      x <- Interface false v ;;
      match asGetter x with
      | Some (getv, Some err) => Returns (zeroUpdate, Some (ErrGetBSONFailed err))
      | Some (getv, None) => resolve fuel getv false
      | None =>
          if bool_decide (ValueKind v = KPtr) then resolve fuel (Elem v) true
          else dispatch v addr
      end
  end.

(** [AsUpdate(x)]: [reflect.ValueOf(x)] is [x], not addressable. *)
Definition AsUpdate (fuel : nat) (x : value) : outcome (Update * option error) :=
  resolve fuel x false.

End UpdateGo.

(* ================================================================== *)
(** ** bson.go: the table [structMap] *)

Section StructMap.
Context `{Collaborators}.

(** [structMap], the descriptors computed so far, as the list of its
    entries, the newest first.  A call of [getStructInfo] takes the table
    and gives it back; when the call panics the table keeps what the
    calls inside it have stored.  [structMapMutex] only orders the
    accesses of concurrent callers, and one caller is modelled. *)
Definition structMapT : Type := list (type * structInfo).

(** [structMap[st]]. *)
Fixpoint structMap_lookup (structMap : structMapT) (st : type) : option structInfo :=
  match structMap with
  | [] => None
  | (t, sinfo) :: rest =>
      if type_eqb st t then Some sinfo else structMap_lookup rest st
  end.

(** The loop of [getStructInfo] over the fields of [st], with the table. *)
Section ScanFieldsCached.
Variable getStructInfoCached :
  type -> structMapT -> outcome (structInfo + error) * structMapT.
Variable st : type.

Fixpoint scanFieldsCached (fs : list (StructField * type)) (i : nat)
    (fieldsMap : gmap string fieldInfo) (fieldsList : list fieldInfo)
    (inlineMap : Z) (structMap : structMapT) {struct fs}
    : outcome (structInfo + error) * structMapT :=
  match fs with
  | [] => (Returns (inl (mkStructInfo fieldsMap fieldsList inlineMap)), structMap)
  | (field, ftype) :: rest =>
      if negb (String.eqb (PkgPath field) "") && negb (Anonymous field) then
        scanFieldsCached rest (S i) fieldsMap fieldsList inlineMap structMap
      else
        let tag := fieldTag field in
        if bool_decide (tag = "-") then
          scanFieldsCached rest (S i) fieldsMap fieldsList inlineMap structMap
        else
          match parseTag st tag (mkFieldInfo "" i false false []) with
          | Panics p => (Panics p, structMap)
          | OutOfFuel => (OutOfFuel, structMap)
          | Returns (info, inline, tag) =>
              if inline then
                match TypeKind ftype with
                | KMap =>
                    if 0 <=? inlineMap then
                      (Returns (inr (ErrMultipleInlineMaps (TypeString st))), structMap)
                    else
                      match TypeKey ftype with
                      | Panics p => (Panics p, structMap)
                      | OutOfFuel => (OutOfFuel, structMap)
                      | Returns key =>
                          if negb (type_eqb key typeString) then
                            (Returns (inr (ErrInlineMapKey (TypeString st))), structMap)
                          else
                            scanFieldsCached rest (S i) fieldsMap fieldsList
                              (Z.of_nat (Num info)) structMap
                      end
                | KStruct =>
                    let '(r, structMap) := getStructInfoCached ftype structMap in
                    match r with
                    | Panics p => (Panics p, structMap)
                    | OutOfFuel => (OutOfFuel, structMap)
                    | Returns (inr err) => (Returns (inr err), structMap)
                    | Returns (inl sinfo) =>
                        match splice st i (FieldsList sinfo) fieldsMap fieldsList with
                        | inr err => (Returns (inr err), structMap)
                        | inl (fieldsMap, fieldsList) =>
                            scanFieldsCached rest (S i) fieldsMap fieldsList inlineMap
                              structMap
                        end
                    end
                | _ => (Panics InlineNeedsStructOrMap, structMap)
                end
              else
                let info :=
                  mkFieldInfo
                    (if bool_decide (tag <> "") then tag else strings_ToLower (Name field))
                    (Num info) (OmitEmpty info) (MinSize info) (Inline info) in
                if bool_decide (is_Some (fieldsMap !! Key info)) then
                  (Returns (inr (ErrDuplicatedKey (Key info) (TypeString st))), structMap)
                else
                  scanFieldsCached rest (S i) (<[Key info := info]> fieldsMap)
                    (fieldsList ++ [info]) inlineMap structMap
          end
  end.
End ScanFieldsCached.

(** [getStructInfo(st)] with the table: a type found in the table gets
    the descriptor that is stored; a descriptor that is computed is stored
    before it is returned, an error is not. *)
Fixpoint getStructInfoCached (st : type) (structMap : structMapT) {struct st}
    : outcome (structInfo + error) * structMapT :=
  match structMap_lookup structMap st with
  | Some sinfo => (Returns (inl sinfo), structMap)
  | None =>
      match st with
      | TStruct _ fields =>
          let '(r, structMap) :=
            scanFieldsCached getStructInfoCached st fields 0 ∅ [] (-1) structMap in
          match r with
          | Returns (inl sinfo) => (Returns (inl sinfo), (st, sinfo) :: structMap)
          | _ => (r, structMap)
          end
      | _ => (Panics (ReflectPanic "reflect: NumField of non-struct type"), structMap)
      end
  end.

End StructMap.

(* ================================================================== *)
(** ** Collaborators and values of the package's test suite *)

Module Suite.

(** ASCII lower-casing, which is what [strings.ToLower] does on the field
    names used here. *)
Definition lower_ascii (c : ascii) : ascii :=
  let n := nat_of_ascii c in
  if (Nat.leb 65 n && Nat.leb n 90)%bool then ascii_of_nat (n + 32) else c.

Fixpoint ToLower (s : string) : string :=
  match s with
  | EmptyString => EmptyString
  | String c r => String (lower_ascii c) (ToLower r)
  end.

Definition quote : string := String (ascii_of_nat 34) EmptyString.

(** [StructTag.Get] on tags in the conventional form, a sequence of
    [key:"value"] without escapes, separated by spaces. *)
Fixpoint upto (stop : ascii) (s : string) : string * option string :=
  match s with
  | EmptyString => (EmptyString, None)
  | String c r =>
      if Ascii.eqb c stop then (EmptyString, Some r)
      else let '(a, b) := upto stop r in (String c a, b)
  end.

Fixpoint skipSpaces (s : string) : string :=
  match s with
  | String " " r => skipSpaces r
  | _ => s
  end.

Fixpoint lookupTag (fuel : nat) (tag key : string) : string :=
  match fuel with
  | O => ""
  | S fuel =>
      match upto ":" (skipSpaces tag) with
      | (name, Some (String c r)) =>
          if Ascii.eqb c (ascii_of_nat 34) then
            match upto (ascii_of_nat 34) r with
            | (val, Some r') =>
                if String.eqb name key then val else lookupTag fuel r' key
            | _ => ""
            end
          else ""
      | _ => ""
      end
  end.

Definition Get (tag key : string) : string := lookupTag (String.length tag) tag key.

(** [time.Time.IsZero] on the three fields of a [time.Time]. *)
Definition IsZero (t : value) : bool :=
  match t with
  | VStruct _ [(_, VUint U64 _ wall); (_, VInt I64 _ ext); _] =>
      negb (Z.testbit wall 63) && (ext =? 0) && (Z.land wall (Z.ones 30) =? 0)
  | _ => false
  end.

(** A codec that is enough for the scenarios below: it encodes nothing
    but a pointer to a [bson.Raw] of kind 3, as its bytes, and decodes
    every document to the empty map. *)
Definition Marshal (x : value) : list Byte.byte + string :=
  match x with
  | VPtr _ (Some (VStruct "bson.Raw" [(_, VUint U8 _ 3); (_, VSlice _ _)])) => inl []
  | VPtr _ (Some (VStruct "bson.Raw" [(_, VUint U8 _ _); _])) =>
      inr "Attempted to marshal Raw kind as a document"
  | _ => inr ("Can't marshal " ++ TypeString (TypeOf x) ++ " as a BSON document")
  end.

Definition Unmarshal (data : list Byte.byte)
    : gmap string (Z * list Byte.byte) + string := inl ∅.

(** [typeWithGetter] of the test suite, whose method is
    [func (t *typeWithGetter) GetBSON() (interface{}, error)]. *)
Definition errorText (e : value) : option string :=
  match e with
  | VIface _ (Some (VPtr _ (Some (VStruct _ [(_, VString _ s)])))) => Some s
  | _ => None
  end.

Definition typeWithGetter_GetBSON (x : value) : option (value * option string) :=
  match x with
  | VPtr "*mgoutil_test.typeWithGetter" None =>
      Some (VString "string" "<value is nil>", None)
  | VPtr "*mgoutil_test.typeWithGetter" (Some (VStruct _ [(_, VIface _ result); (_, err)])) =>
      Some (default VInvalid result, errorText err)
  | _ => None
  end.

#[export] Instance collaborators : Collaborators := {|
  GetBSON := typeWithGetter_GetBSON;
  bson_Marshal := Marshal;
  bson_Unmarshal := Unmarshal;
  time_IsZero := IsZero;
  StructTag_Get := Get;
  strings_ToLower := ToLower
|}.

(** Values. *)
Definition exported (name tag : string) : StructField :=
  {| Name := name; PkgPath := ""; Tag := tag; Anonymous := false |}.
Definition private (name tag : string) : StructField :=
  {| Name := name; PkgPath := "mgoutil_test"; Tag := tag; Anonymous := false |}.
Definition embedded (name pkg tag : string) : StructField :=
  {| Name := name; PkgPath := pkg; Tag := tag; Anonymous := true |}.

Definition int (n : Z) : value := VInt I_ "int" n.
Definition str (s : string) : value := VString "string" s.
Definition iface (x : value) : value := VIface "interface {}" (Some x).
Definition ptr (x : value) : value := VPtr ("*" ++ TypeString (TypeOf x)) (Some x).
Definition bsonM (m : gmap string value) : value :=
  VMap "map[string]interface {}" typeString m.

(** [typeWithGetter{result: r, err: errors.New(msg)}]. *)
Definition errorsNew (msg : string) : value :=
  VIface "error"
    (Some (VPtr "*errors.errorString"
       (Some (VStruct "errors.errorString" [(private "s" "", str msg)])))).

Definition typeWithGetter (result : option value) (err : value) : value :=
  VStruct "mgoutil_test.typeWithGetter"
    [(private "result" "", VIface "interface {}" result); (private "err" "", err)].

(** [inlineMap{A: a, M: m}]. *)
Definition inlineMap (a : Z) (m : gmap string value) : value :=
  VStruct "mgoutil_test.inlineMap"
    [(exported "A" "", int a); (exported "M" ",inline", bsonM m)].

(** [inlineInt{V: struct{ A, B int }{a, b}}]. *)
Definition inlineInt (a b : Z) : value :=
  VStruct "mgoutil_test.inlineInt"
    [(exported "V" ",inline",
      VStruct "struct { A int; B int }" [(exported "A" "", int a); (exported "B" "", int b)])].

(** [structWithDupKeys{}]. *)
Definition structWithDupKeys : value :=
  VStruct "mgoutil_test.structWithDupKeys"
    [(exported "Name" "", VUint U8 "uint8" 0); (exported "Other" "name", VUint U8 "uint8" 0)].

(** Values of the scenarios. *)
Definition bsonTag (s : string) : string := "bson:" ++ quote ++ s ++ quote.

Definition recInline : value := inlineMap 1 {["b" := iface (int 2)]}.
Definition recInlineClash : value := inlineMap 1 {["a" := iface (int 1)]}.
Definition recOmit : value :=
  VStruct "struct { X int; Y string }"
    [(exported "X" (bsonTag ",omitempty"), int 0); (exported "Y" "", str "hello")].
Definition recId : value :=
  VStruct "struct { Id string; A int }"
    [(exported "Id" (bsonTag "_id"), str "hello"); (exported "A" "", int 1)].
Definition mapId : value :=
  VMap "map[string]string" typeString {["_id" := str "hello"; "a" := str "goodbye"]}.
Definition recEmbedded : list (StructField * value) :=
  [(embedded "N" "" "", VInt I_ "mgoutil_test.N" 5)].
Definition recBadFlag : value :=
  VStruct "struct { X int }" [(exported "X" (bsonTag "x,bogus"), int 0)].
Definition chain : value :=
  ptr (typeWithGetter
         (Some (ptr (typeWithGetter
                       (Some (VStruct "struct { A int }" [(exported "A" "", int 1)]))
                       (VIface "error" None))))
         (VIface "error" None)).

End Suite.

(* ================================================================== *)
(** ** The helper [wrapInDoc] of the test suite *)

(** A Go string is its bytes, and a byte a character of eight bits. *)

(** The conversions [byte(v)] and [uint32(v)] of an integer. *)
Definition toByte (v : Z) : ascii := ascii_of_N (Z.to_N (v mod 2 ^ 8)).
Definition uint32 (v : Z) : Z := v mod 2 ^ 32.

(** [binary.LittleEndian.PutUint32(b, v)], as the new content of [b];
    [None] when [b] has less than four bytes, where the index is out of
    range. *)
Definition PutUint32 (b : list ascii) (v : Z) : option (list ascii) :=
  if (length b <? 4)%nat then None
  else Some (<[3%nat := toByte (Z.shiftr v 24)]>
            (<[2%nat := toByte (Z.shiftr v 16)]>
            (<[1%nat := toByte (Z.shiftr v 8)]>
            (<[0%nat := toByte v]> b)))).

(** [copy(dst[off:], src)], as the new content of [dst]. *)
Definition copyAt (off : nat) (dst src : list ascii) : list ascii :=
  let n := Nat.min (length dst - off) (length src) in
  (take off dst ++ take n src ++ drop (off + n) dst)%list.

Definition wrapInDoc (data : string) : option string :=
  let result := replicate (String.length data + 5) zero in
  match PutUint32 result (uint32 (Z.of_nat (length result))) with
  | Some result => Some (string_of_list_ascii (copyAt 4 result (list_ascii_of_string data)))
  | None => None
  end.

(** The integer that four bytes stand for, the lowest byte first. *)
Definition littleEndian (b0 b1 b2 b3 : ascii) : Z :=
  Z.of_N (N_of_ascii b0) + 2 ^ 8 * Z.of_N (N_of_ascii b1)
  + 2 ^ 16 * Z.of_N (N_of_ascii b2) + 2 ^ 24 * Z.of_N (N_of_ascii b3).

(* ================================================================== *)
(** ** A hook that returns its receiver *)

Module SelfGetter.

(** Collaborators with a hook of this kind, which the test suite does not
    have: those of the test suite and one more type, [self], whose method
    is [func (s self) GetBSON() (interface{}, error) { return s, nil }]. *)
Definition self_GetBSON (x : value) : option (value * option string) :=
  match x with
  | VStruct "mgoutil_test.self" _ => Some (x, None)
  | _ => Suite.typeWithGetter_GetBSON x
  end.

Definition collaborators : Collaborators := {|
  GetBSON := self_GetBSON;
  bson_Marshal := Suite.Marshal;
  bson_Unmarshal := Suite.Unmarshal;
  time_IsZero := Suite.IsZero;
  StructTag_Get := Suite.Get;
  strings_ToLower := Suite.ToLower
|}.

End SelfGetter.

(* ================================================================== *)
(** ** Notions used to state the properties *)

Section Notions.
Context `{Collaborators}.

(** The key of a field that is not inline, from the key part of its tag. *)
Definition fieldKey (tag : string) (field : StructField) : string :=
  if bool_decide (tag <> "") then tag else strings_ToLower (Name field).

(** What [getStructInfo] makes of a field: it skips it (a private field,
    or the tag [-]), files it under a key, takes it as the inline map,
    splices in the fields of an inlined record, or panics (inline on
    another kind of field, an unsupported flag). *)
Inductive fieldClass : Type :=
| Skipped | Plain (key : string) | InlineMapField | InlineStruct | BadInline | BadFlag.

Definition classify (st : type) (field : StructField) (ftype : type) : fieldClass :=
  if negb (String.eqb (PkgPath field) "") && negb (Anonymous field) then Skipped
  else
    let tag := fieldTag field in
    if bool_decide (tag = "-") then Skipped
    else
      match parseTag st tag (mkFieldInfo "" 0 false false []) with
      | Returns (_, inline, tag) =>
          if inline then
            match TypeKind ftype with
            | KMap => InlineMapField
            | KStruct => InlineStruct
            | _ => BadInline
            end
          else Plain (fieldKey tag field)
      | _ => BadFlag
      end.

(** The keys that the fields of a record type resolve to, in the order of
    the fields, those of an inlined record in the place of its field. *)
Section DocKeysFields.
Variable docKeys : type -> list string.
Variable st : type.
Fixpoint docKeysFields (fs : list (StructField * type)) : list string :=
  match fs with
  | [] => []
  | (field, ftype) :: rest =>
      match classify st field ftype with
      | Plain key => key :: docKeysFields rest
      | InlineStruct => docKeys ftype ++ docKeysFields rest
      | _ => docKeysFields rest
      end
  end.
End DocKeysFields.

Fixpoint docKeys (st : type) : list string :=
  match st with
  | TStruct _ fields => docKeysFields docKeys st fields
  | _ => []
  end.

(** A record type without a flaw in its annotations, apart from keys that
    are resolved twice: every flag is supported, inline is on records and
    on at most one map, whose keys are of type [string], and the inlined
    records are without flaw in turn.  [seen] tells whether an inline map
    was met before. *)
Section WellTaggedFields.
Variable wellTagged : type -> bool.
Variable st : type.
Fixpoint wellTaggedFields (fs : list (StructField * type)) (seen : bool) : bool :=
  match fs with
  | [] => true
  | (field, ftype) :: rest =>
      match classify st field ftype with
      | Skipped | Plain _ => wellTaggedFields rest seen
      | InlineMapField =>
          negb seen
          && match ftype with TMap _ key => type_eqb key typeString | _ => false end
          && wellTaggedFields rest true
      | InlineStruct => wellTagged ftype && wellTaggedFields rest seen
      | BadInline | BadFlag => false
      end
  end.
End WellTaggedFields.

Fixpoint wellTagged (st : type) : bool :=
  match st with
  | TStruct _ fields => wellTaggedFields wellTagged st fields false
  | _ => false
  end.

(** The map and the list of a descriptor are in step: the keys of the list
    are pairwise different, and they are the keys of the map. *)
Definition descOK (fm : gmap string fieldInfo) (fl : list fieldInfo) : Prop :=
  NoDup (Key <$> fl) ∧ ∀ k, is_Some (fm !! k) ↔ k ∈ Key <$> fl.

(** The key [k] is met twice in [l]. *)
Definition clash (k : string) (l : list string) : Prop :=
  ∃ l1 l2 l3, l = (l1 ++ k :: l2 ++ k :: l3)%list.

(** [t] is the type of a field of [st] that is an inlined record. *)
Definition inlinedIn (st t : type) : Prop :=
  match st with
  | TStruct _ fields => ∃ f, (f, t) ∈ fields ∧ classify st f t = InlineStruct
  | _ => False
  end.

(** [dupOwner st k o]: [o] is the name of a record type, [st] or a record
    inlined in it at any depth, in which the key [k] is resolved twice. *)
Inductive dupOwner : type -> string -> string -> Prop :=
| dupOwner_here st k : clash k (docKeys st) -> dupOwner st k (TypeString st)
| dupOwner_inlined st t k o : inlinedIn st t -> dupOwner t k o -> dupOwner st k o.



(** What [getStructInfo st] can be. *)
Definition typeSpec (st : type) (r : outcome (structInfo + error)) : Prop :=
  match r with
  | Returns (inl sinfo) =>
      descOK (FieldsMap sinfo) (FieldsList sinfo)
      ∧ Key <$> FieldsList sinfo = docKeys st
  | Returns (inr (ErrDuplicatedKey k o)) => dupOwner st k o
  | _ => wellTagged st = false
  end.

(** What the loop of [getStructInfo] over the fields [fs] of [st] can end
    in, where [keys] are the keys to be filed and [wt] tells whether the
    fields are without flaw. *)
Definition scanPost (st : type) (keys : list string) (fs : list (StructField * type))
    (wt : bool) (r : outcome (structInfo + error)) : Prop :=
  match r with
  | Returns (inl sinfo) =>
      descOK (FieldsMap sinfo) (FieldsList sinfo) /\ Key <$> FieldsList sinfo = keys
  | Returns (inr (ErrDuplicatedKey k o)) =>
      (o = TypeString st /\ clash k keys)
      \/ (exists f t, (f, t) ∈ fs /\ classify st f t = InlineStruct /\ dupOwner t k o)
  | _ => wt = false
  end.

(** The content of the inline map of the record [v], empty when it has none. *)
Definition inlineMapOf (v : value) (sinfo : structInfo) : gmap string value :=
  if 0 <=? InlineMap sinfo then
    match Field v (Z.to_nat (InlineMap sinfo)) with
    | Returns (_, VMap _ _ m) => m
    | _ => ∅
    end
  else ∅.

(** Where [fieldsLoop] leaves the key of the field [info], from the maps
    [set0] and [unset0] to the maps [set] and [unset]. *)
Definition placed (v : value) (info : fieldInfo)
    (set0 unset0 set unset : gmap string value) : Prop :=
  exists ro x,
    fieldValue v info = Returns (ro, x)
    /\ ((OmitEmpty info = true /\ isZero ro x = Returns true
         /\ unset !! Key info = Some VInvalid /\ set !! Key info = set0 !! Key info)
        \/ (~ (OmitEmpty info = true /\ isZero ro x = Returns true)
            /\ ro = false /\ IsValid x = true
            /\ set !! Key info = Some (packEface x)
            /\ unset !! Key info = unset0 !! Key info)).

(** A record in the sense of the dispatch phase: a value of kind Struct
    that has no method [GetBSON] and is not a [bson.Raw]. *)
Definition plainRecord (R : value) : Prop :=
  ValueKind R = KStruct /\ asGetter R = None /\ type_eqb (TypeOf R) typeRaw = false.

(** A string-keyed mapping in the sense of the dispatch phase. *)
Definition plainMap (M : value) : Prop :=
  exists name key m,
    M = VMap name key m /\ TypeKind key = KString /\ asGetter M = None
    /\ forall k x, m !! k = Some x -> IsValid x = true.

(** The shape of what [AsUpdate] returns. *)
Definition shaped (r : Update * option error) : Prop :=
  match r with
  | (u, None) =>
      exists set unset,
        u = mkUpdate (Some set) (Some unset)
        /\ set !! "_id" = None /\ unset !! "_id" = None
  | (u, Some _) => u = zeroUpdate
  end.

(** Where the resolution phase ends. *)
Inductive resolved : Type :=
| Resolved (v : value) (addr : bool)
| HookFailed (err : string).

(** The resolution phase as the specification words it: [Resolution v addr n r]
    when, from [v], [n] steps lead to [r]. *)
Inductive Resolution : value -> bool -> nat -> resolved -> Prop :=
| res_hook v addr x getv n r :
    Interface false v = Returns x -> asGetter x = Some (getv, None) ->
    Resolution getv false n r -> Resolution v addr (S n) r
| res_hook_error v addr x getv err :
    Interface false v = Returns x -> asGetter x = Some (getv, Some err) ->
    Resolution v addr 1 (HookFailed err)
| res_deref v addr x n r :
    Interface false v = Returns x -> asGetter x = None -> ValueKind v = KPtr ->
    Resolution (Elem v) true n r -> Resolution v addr (S n) r
| res_stop v addr x :
    Interface false v = Returns x -> asGetter x = None -> ValueKind v <> KPtr ->
    Resolution v addr 1 (Resolved v addr).

(** What [AsUpdate] does where the resolution phase ends. *)
Definition afterResolution (r : resolved) : outcome (Update * option error) :=
  match r with
  | Resolved v addr => dispatch v addr
  | HookFailed err => Returns (zeroUpdate, Some (ErrGetBSONFailed err))
  end.

(** The inline map of [R] is in an exported field and holds valid values. *)
Definition inlineMapReadable (R : value) (sinfo : structInfo) : Prop :=
  0 <= InlineMap sinfo
  /\ exists name key m,
       Field R (Z.to_nat (InlineMap sinfo)) = Returns (false, VMap name key m)
       /\ forall k x, m !! k = Some x -> IsValid x = true.

(** An exported field; a field that [isZero] and [getStructInfo] do not
    skip as private. *)
Definition exportedField (f : StructField) : bool := String.eqb (PkgPath f) "".

Definition testedField (f : StructField) : bool := exportedField f || Anonymous f.

(** Every field of [v] that the code visits is exported, and the fields
    and map elements hold valid values. *)
Fixpoint readable (v : value) : bool :=
  match v with
  | VStruct _ fs =>
      forallb (fun p => negb (testedField (fst p))
                        || (exportedField (fst p) && IsValid (snd p) && readable (snd p))) fs
  | VMap _ _ m => forallb (fun p => IsValid (snd p)) (map_to_list m)
  | _ => true
  end.


(** The field that [info] describes can be read and holds a readable value. *)
Definition reach (v : value) (info : fieldInfo) : Prop :=
  exists x, fieldValue v info = Returns (false, x)
            /\ IsValid x = true /\ readable x = true.

(** The ordinal [im], when there is one, is that of an exported map field
    of [v] that holds valid values. *)
Definition inlineMapAt (v : value) (im : Z) : Prop :=
  0 <= im ->
  exists name key m,
    Field v (Z.to_nat im) = Returns (false, VMap name key m)
    /\ forall k x, m !! k = Some x -> IsValid x = true.

(** C1 as it is stated: the union of the key sets is the set of the keys
    of the descriptor, without ["_id"]. *)
Definition keys_partition_as_stated (R : value) : Prop :=
  forall fuel u, AsUpdate fuel R = Returns (u, None) ->
  exists sinfo set unset,
    getStructInfo (TypeOf R) = Returns (inl sinfo)
    /\ Set_ u = Some set /\ Unset_ u = Some unset
    /\ dom set ## dom unset
    /\ dom set ∪ dom unset = dom (FieldsMap sinfo) ∖ {["_id"]}.


(** C8 as it is stated: a record is zero if and only if its fields that
    are exported and not embedded are zero. *)
Definition zero_record_as_stated (ro : bool) (name : string)
    (fs : list (StructField * value)) : Prop :=
  isZero ro (VStruct name fs) = Returns true <->
  forall f x, (f, x) ∈ fs -> exportedField f && negb (Anonymous f) = true ->
    isZero (negb (exportedField f)) x = Returns true.


(** *** Notions of the further properties *)

(** The descriptor that [getStructInfo] files for field [i] of [st], a
    field that is not inline. *)
Definition plainInfo (st : type) (i : nat) (field : StructField) : fieldInfo :=
  match parseTag st (fieldTag field) (mkFieldInfo "" i false false []) with
  | Returns (info, _, tag) =>
      mkFieldInfo (fieldKey tag field) (Num info) (OmitEmpty info) (MinSize info)
        (Inline info)
  | _ => mkFieldInfo "" i false false []
  end.

(** The descriptor of a field of an inlined record, as seen from the
    record that inlines it as its field [i]. *)
Definition liftInline (i : nat) (finfo : fieldInfo) : fieldInfo :=
  mkFieldInfo (Key finfo) (Num finfo) (OmitEmpty finfo) (MinSize finfo)
    (match Inline finfo with
     | [] => [i; Num finfo]
     | path => i :: path
     end).

(** The descriptors of a record type, in the order of its fields, those
    of an inlined record in the place of its field. *)
Section DescFields.
Variable descList : type -> list fieldInfo.
Variable st : type.
Fixpoint descFields (fs : list (StructField * type)) (i : nat) : list fieldInfo :=
  match fs with
  | [] => []
  | (field, ftype) :: rest =>
      match classify st field ftype with
      | Plain _ => plainInfo st i field :: descFields rest (S i)
      | InlineStruct => (liftInline i <$> descList ftype) ++ descFields rest (S i)
      | _ => descFields rest (S i)
      end
  end.
End DescFields.

Fixpoint descList (st : type) : list fieldInfo :=
  match st with
  | TStruct _ fields => descFields descList st fields 0
  | _ => []
  end.

(** Filing descriptors under their keys. *)
Definition fileAll (fm : gmap string fieldInfo) (l : list fieldInfo)
    : gmap string fieldInfo :=
  foldl (fun m info => <[Key info := info]> m) fm l.


(** [t] is [st] or a record inlined in it, at any depth. *)
Inductive inlinedStar : type -> type -> Prop :=
| inlinedStar_refl st : inlinedStar st st
| inlinedStar_step st t u : inlinedIn st t -> inlinedStar t u -> inlinedStar st u.

(** Field [i] of the record type [T] is [f], of type [t]. *)
Definition fieldOf (T : type) (i : nat) (f : StructField) (t : type) : Prop :=
  match T with
  | TStruct _ fields => fields !! i = Some (f, t)
  | _ => False
  end.

(** The flags that [getStructInfo] knows. *)
Definition supportedFlag (flag : string) : Prop :=
  flag = "omitempty" \/ flag = "minsize" \/ flag = "inline".

(** The flaw of the record type [T] that the failure [r] of
    [getStructInfo] reports. *)
Definition flawIn (T : type) (r : outcome (structInfo + error)) : Prop :=
  match r with
  | Returns (inl _) => True
  | Returns (inr (ErrDuplicatedKey k o)) => o = TypeString T /\ clash k (docKeys T)
  | Returns (inr (ErrMultipleInlineMaps o)) =>
      o = TypeString T
      /\ exists i j f g tf tg,
           (i < j)%nat /\ fieldOf T i f tf /\ fieldOf T j g tg
           /\ classify T f tf = InlineMapField /\ classify T g tg = InlineMapField
  | Returns (inr (ErrInlineMapKey o)) =>
      o = TypeString T
      /\ exists i f name key,
           fieldOf T i f (TMap name key) /\ classify T f (TMap name key) = InlineMapField
           /\ key <> typeString
  | Returns (inr _) => False
  | Panics (UnsupportedFlag flag tag o) =>
      o = TypeString T
      /\ exists i f t,
           fieldOf T i f t /\ testedField f = true /\ tag = fieldTag f
           /\ flag ∈ tail (strings_Split tag ",") /\ ~ supportedFlag flag
  | Panics InlineNeedsStructOrMap =>
      exists i f t, fieldOf T i f t /\ classify T f t = BadInline
  | Panics (ReflectPanic _) => True
  | OutOfFuel => False
  end.


(** The failure [r] of [getStructInfo st] reports a flaw of [st] or of a
    record inlined in it; the error of a key resolved twice is
    [dupOwner]'s. *)
Definition flawBelow (st : type) (r : outcome (structInfo + error)) : Prop :=
  match r with
  | Returns (inr (ErrDuplicatedKey _ _)) => True
  | _ => exists T, inlinedStar st T /\ flawIn T r
  end.


(** What [AsUpdate] makes of a value that it hands to the codec: the
    elements of the document that the codec decodes, but ["_id"]. *)
Definition viaCodec (x : value) : outcome (Update * option error) :=
  match bson_Marshal x with
  | inr err => Returns (zeroUpdate, Some (ErrCannotMarshal err))
  | inl data =>
      match bson_Unmarshal data with
      | inr err => Returns (zeroUpdate, Some (ErrUnmarshal err))
      | inl m => Returns (mkUpdate (Some (RawValue <$> delete "_id" m)) (Some ∅), None)
      end
  end.

(** The map [set] of an [Update] as a value: a [map[string]interface{}],
    whose elements are slots of interface type. *)
Definition asDocument (set : gmap string value) : value :=
  VMap "map[string]interface {}" typeString
    ((fun x => VIface "interface {}" (if IsValid x then Some x else None)) <$> set).


(** Every descriptor in the table is the one that [getStructInfo]
    computes for its type. *)
Definition coherent (structMap : structMapT) : Prop :=
  forall t sinfo, structMap_lookup structMap t = Some sinfo ->
    getStructInfo t = Returns (inl sinfo).

(** The table [structMap'] has the entries of [structMap]. *)
Definition extends (structMap structMap' : structMapT) : Prop :=
  forall t sinfo, structMap_lookup structMap t = Some sinfo ->
    structMap_lookup structMap' t = Some sinfo.


(** A call that, when it panics, panics in [Value.Interface]: on the
    zero Value, or on a value obtained through an unexported field. *)
Definition interfacePanic {A} (r : outcome A) : Prop :=
  match r with
  | Returns _ => True
  | Panics p =>
      p = ReflectPanic "reflect: call of reflect.Value.Interface on zero Value"
      \/ p = ReflectPanic
           "reflect.Value.Interface: cannot return value obtained from unexported field or method"
  | OutOfFuel => False
  end.

End Notions.

(* ================================================================== *)
(** ** Properties *)

Section Properties.
Context `{Collaborators}.

(** *** Tools *)

(** A sequence returns when both of its parts do. *)
Lemma bind_Returns {A B} (m : outcome A) (k : A -> outcome B) b :
  bind m k = Returns b <-> exists a, m = Returns a /\ k a = Returns b.
Proof.
  destruct m; simpl; split; try (intros (? & ? & ?)); try discriminate; eauto.
  congruence.
Qed.

(** [Interface] on a valid value that is not read-only. *)
Lemma Interface_valid v : IsValid v = true -> Interface false v = Returns (packEface v).
Proof. unfold Interface. by intros ->. Qed.

Lemma Interface_Returns ro v x :
  Interface ro v = Returns x -> IsValid v = true /\ ro = false /\ x = packEface v.
Proof.
  unfold Interface. destruct (IsValid v); [|done]. destruct ro; [done|].
  by intros [= <-].
Qed.

(** Induction on types, with the hypothesis on the types of the fields of a
    record type. *)
Lemma type_ind_nested (P : type -> Prop) :
  (forall k n, P (TBasic k n)) ->
  (forall n key, P key -> P (TMap n key)) ->
  (forall n fs, Forall (fun p => P (snd p)) fs -> P (TStruct n fs)) ->
  forall t, P t.
Proof.
  intros HB HM HS. fix IH 1. intros [k n|n key|n fs].
  - apply HB.
  - apply HM, IH.
  - apply HS. revert fs. fix IHfs 1. intros [|[f t] fs].
    + constructor.
    + constructor; [apply IH | apply IHfs].
Qed.

(** Induction on values, with the hypothesis on the fields of a record. *)
Lemma value_ind_struct (P : value -> Prop) :
  (forall v, match v with VStruct _ _ => False | _ => True end -> P v) ->
  (forall name fs, Forall (fun p => P (snd p)) fs -> P (VStruct name fs)) ->
  forall v, P v.
Proof.
  intros Hother Hstruct. fix IH 1. intros [ | | | | | | | | | |name fs| ];
    try (apply Hother; exact I).
  apply Hstruct. revert fs. fix IHfs 1. intros [|[f x] fs].
  - constructor.
  - constructor; [apply IH|apply IHfs].
Qed.

Lemma StructField_eqb_eq f f' :
  String.eqb (Name f) (Name f') && String.eqb (PkgPath f) (PkgPath f')
  && String.eqb (Tag f) (Tag f') && Bool.eqb (Anonymous f) (Anonymous f') = true
  <-> f = f'.
Proof.
  destruct f, f'; cbn. rewrite !andb_true_iff, !String.eqb_eq, Bool.eqb_true_iff.
  split; [intros [[[-> ->] ->] ->]; done|intros [= -> -> -> ->]; done].
Qed.

(** [type_eqb] decides the equality of types. *)
Lemma type_eqb_eq a b : type_eqb a b = true <-> a = b.
Proof.
  revert b. induction a as [k n|n key IH|n fs IH] using type_ind_nested;
    intros [k' n'|n' key'|n' fs'];
    cbn [type_eqb]; try (split; [discriminate|discriminate]).
  - rewrite andb_true_iff, bool_decide_eq_true, String.eqb_eq.
    split; [intros [-> ->]; done|intros [= -> ->]; done].
  - rewrite andb_true_iff, String.eqb_eq, IH.
    split; [intros [-> ->]; done|intros [= -> ->]; done].
  - rewrite andb_true_iff, String.eqb_eq.
    assert (Hfs : forall fs',
      (fix fields_eqb (l l' : list (StructField * type)) {struct l} : bool :=
         match l, l' with
         | [], [] => true
         | (f, t) :: r, (f', t') :: r' =>
             String.eqb (Name f) (Name f') && String.eqb (PkgPath f) (PkgPath f')
             && String.eqb (Tag f) (Tag f') && Bool.eqb (Anonymous f) (Anonymous f')
             && type_eqb t t' && fields_eqb r r'
         | _, _ => false
         end) fs fs' = true <-> fs = fs').
    { clear n n' fs'. induction IH as [|[f t] r Ht _ IHr]; intros [|[f' t'] r']; try done.
      rewrite !andb_true_iff, IHr. cbn [snd] in Ht. rewrite Ht.
      rewrite <- !andb_true_iff, StructField_eqb_eq.
      split; [intros [[-> ->] ->]; done|intros [= -> -> ->]; done]. }
    rewrite Hfs. split; [intros [-> ->]; done|intros [= -> ->]; done].
Qed.

(** The keys that [MapKeys] lists are the keys of the map. *)
Lemma elem_of_map_keys {A} (m : gmap string A) k :
  k ∈ map fst (map_to_list m) <-> is_Some (m !! k).
Proof.
  change (map fst (map_to_list m)) with ((map_to_list m).*1).
  rewrite list_elem_of_fmap. split.
  - intros ([k' x] & -> & Hin%elem_of_map_to_list). eauto.
  - intros [x Hx]. exists (k, x). split; [done|]. by apply elem_of_map_to_list.
Qed.

Lemma ValueKind_struct R : ValueKind R = KStruct -> exists name fs, R = VStruct name fs.
Proof. destruct R; try discriminate; try (by destruct k); eauto. Qed.

Lemma TypeKind_map x : TypeKind (TypeOf x) = KMap -> exists name key m, x = VMap name key m.
Proof. destruct x; try discriminate; try (by destruct k); eauto. Qed.

(** *** The structure descriptor *)

(** The flags of a tag do not depend on the ordinal of the field. *)
Lemma scanFlags_Num st tag flags k n o m l inline :
  scanFlags st tag flags (mkFieldInfo k n o m l) inline =
  match scanFlags st tag flags (mkFieldInfo k 0 o m l) inline with
  | Returns (fi, inl') =>
      Returns (mkFieldInfo (Key fi) n (OmitEmpty fi) (MinSize fi) (Inline fi), inl')
  | Panics p => Panics p
  | OutOfFuel => OutOfFuel
  end.
Proof.
  revert o m inline. induction flags as [|flag flags IH]; intros; simpl; [done|].
  repeat case_bool_decide; auto.
Qed.

Lemma parseTag_Num st tag i :
  parseTag st tag (mkFieldInfo "" i false false []) =
  match parseTag st tag (mkFieldInfo "" 0 false false []) with
  | Returns (fi, inl', t) =>
      Returns (mkFieldInfo (Key fi) i (OmitEmpty fi) (MinSize fi) (Inline fi), inl', t)
  | Panics p => Panics p
  | OutOfFuel => OutOfFuel
  end.
Proof.
  unfold parseTag. destruct (1 <? _)%nat; [|done].
  rewrite scanFlags_Num.
  destruct (scanFlags _ _ _ _ _) as [[fi inl']| |]; done.
Qed.

(** The loop over the flags leaves the key, the ordinal and the path. *)
Lemma scanFlags_shape st tag flags k n o m l inline fi inl' :
  scanFlags st tag flags (mkFieldInfo k n o m l) inline = Returns (fi, inl') ->
  Key fi = k /\ Num fi = n /\ Inline fi = l.
Proof.
  revert o m inline. induction flags as [|flag flags IH]; intros o m inline; simpl.
  - intros [= <- <-]. done.
  - repeat case_bool_decide; eauto. discriminate.
Qed.

Lemma parseTag_shape st tag i fi inl' t :
  parseTag st tag (mkFieldInfo "" i false false []) = Returns (fi, inl', t) ->
  Key fi = "" /\ Num fi = i /\ Inline fi = [].
Proof.
  unfold parseTag. destruct (1 <? _)%nat.
  - intros (r & Hr & [= <- <- <-])%bind_Returns. destruct r as [fi' b].
    by apply scanFlags_shape in Hr.
  - intros [= <- <- <-]. done.
Qed.

(** A key that is met twice in a list. *)
Lemma clash_app_l k l l' : clash k l -> clash k (l ++ l')%list.
Proof.
  intros (l1 & l2 & l3 & ->). exists l1, l2, (l3 ++ l')%list.
  rewrite <- !app_assoc. simpl. rewrite <- !app_assoc. done.
Qed.

Lemma clash_elem k l l' : k ∈ l -> clash k (l ++ k :: l')%list.
Proof.
  intros (l1 & l2 & ->)%list_elem_of_split. exists l1, l2, l'.
  rewrite <- !app_assoc. done.
Qed.

Lemma descOK_empty : descOK ∅ [].
Proof.
  split; [constructor|]. intros k. rewrite lookup_empty. simpl.
  split; [intros []; discriminate|intros []%elem_of_nil].
Qed.

(** Filing a descriptor under a fresh key keeps the map and the list in
    step. *)
Lemma descOK_snoc fm fl info :
  descOK fm fl -> ~ is_Some (fm !! Key info) ->
  descOK (<[Key info := info]> fm) (fl ++ [info]).
Proof.
  intros [Hnd Hdom] Hfresh. split.
  - rewrite fmap_app. apply NoDup_app. split; [done|]. split.
    + intros k Hk [->|[]%elem_of_nil]%elem_of_cons. apply Hfresh, Hdom, Hk.
    + simpl. apply NoDup_singleton.
  - intros k. rewrite fmap_app, elem_of_app. simpl. rewrite list_elem_of_singleton.
    rewrite lookup_insert_is_Some. rewrite <- Hdom.
    split; [intros [<-|[? ?]]|intros [?| ->]]; auto.
    destruct (decide (Key info = k)); auto.
Qed.

(** The splice of the descriptors of an inlined record either files them
    all, in order, or stops at a key that is already there. *)
Lemma splice_spec st i l fm fl :
  descOK fm fl ->
  match splice st i l fm fl with
  | inl (fm', fl') => descOK fm' fl' /\ Key <$> fl' = ((Key <$> fl) ++ (Key <$> l))%list
  | inr e =>
      exists k, e = ErrDuplicatedKey k (TypeString st)
                /\ clash k ((Key <$> fl) ++ (Key <$> l))%list
  end.
Proof.
  revert fm fl. induction l as [|finfo rest IH]; intros fm fl Hok; simpl.
  - by rewrite app_nil_r.
  - case_bool_decide as Hfound.
    + exists (Key finfo). split; [done|]. apply clash_elem, Hok, Hfound.
    + set (finfo' := mkFieldInfo _ _ _ _ _).
      specialize (IH (<[Key finfo' := finfo']> fm) (fl ++ [finfo'])%list
                    (descOK_snoc _ _ finfo' Hok Hfound)).
      change (Key finfo') with (Key finfo) in IH.
      destruct (splice _ _ _ _ _) as [[fm' fl']|e].
      * destruct IH as [? ->]. split; [done|].
        rewrite fmap_app, <- app_assoc. done.
      * destruct IH as (k & -> & Hc). exists k. split; [done|].
        rewrite fmap_app, <- app_assoc in Hc. done.
Qed.

(** Settles how [classify] sees a field, from the tests that the loop of
    [getStructInfo] has gone through. *)
Ltac classified :=
  unfold classify;
  repeat first
    [ rewrite bool_decide_eq_true_2 by done
    | rewrite bool_decide_eq_false_2 by done
    | match goal with H : ?l = _ |- context [?l] => rewrite H end ];
  done.

(** [scanPost] for a longer list of fields. *)
Lemma scanPost_mono st keys fs wt keys' fs' wt' r :
  scanPost st keys fs wt r ->
  keys = keys' ->
  (forall p, p ∈ fs -> p ∈ fs') -> (wt = false -> wt' = false) ->
  scanPost st keys' fs' wt' r.
Proof.
  intros Hr <- Hfs Hwt. destruct r as [[sinfo|e]| |]; simpl in *; auto.
  destruct e; auto.
  destruct Hr as [?|(f & t & Hin & Hcl)]; [by left|right].
  exists f, t. split; [by apply Hfs|done].
Qed.

(** The loop of [getStructInfo], started with a descriptor that is in step,
    ends in one of three ways: with a descriptor in step whose keys are
    those the fields resolve to; with the error of a key resolved twice;
    or, on a type with another flaw, in some other way. *)
Lemma scanFields_spec getSI st fs :
  Forall (fun p => typeSpec (snd p) (getSI (snd p))) fs ->
  forall i fm fl im,
    descOK fm fl ->
    scanPost st ((Key <$> fl) ++ docKeysFields docKeys st fs)%list fs
      (wellTaggedFields wellTagged st fs (0 <=? im))
      (scanFields getSI st fs i fm fl im).
Proof.
  induction 1 as [|[field ftype] rest Hhd Htl IH]; intros i fm fl im Hok.
  { simpl. by rewrite app_nil_r. }
  assert (Hfurther : forall p, p ∈ rest -> p ∈ (field, ftype) :: rest)
    by (intros p; apply list_elem_of_further).
  simpl scanFields. simpl docKeysFields. simpl wellTaggedFields.
  destruct (negb (String.eqb (PkgPath field) "") && negb (Anonymous field)) eqn:Hpriv.
  { assert (Hcl : classify st field ftype = Skipped) by classified.
    rewrite Hcl. by eapply scanPost_mono; [apply (IH (S i) fm fl im Hok)|..]. }
  case_bool_decide as Hdash.
  { assert (Hcl : classify st field ftype = Skipped)
      by classified.
    rewrite Hcl. by eapply scanPost_mono; [apply (IH (S i) fm fl im Hok)|..]. }
  rewrite parseTag_Num.
  destruct (parseTag st (fieldTag field) (mkFieldInfo "" 0 false false []))
    as [[[fi inline] tag]| |] eqn:Hparse.
  2,3: assert (Hcl : classify st field ftype = BadFlag)
      by classified;
    rewrite Hcl; done.
  simpl bind. destruct inline.
  - (* an inline field *)
    destruct (TypeKind ftype) eqn:Hkind;
      try (assert (Hcl : classify st field ftype = BadInline)
             by classified;
           rewrite Hcl; done).
    + (* a map *)
      assert (Hcl : classify st field ftype = InlineMapField)
        by classified.
      rewrite Hcl.
      destruct (0 <=? im) eqn:Him; [done|]. simpl.
      destruct ftype as [| n key |]; try done. simpl.
      destruct (type_eqb key typeString); [|done]. simpl.
      eapply scanPost_mono; [apply (IH (S i) fm fl (Z.of_nat i) Hok)|done|done|].
      replace (0 <=? Z.of_nat i) with true by (symmetry; apply Z.leb_le; lia). done.
    + (* a record *)
      assert (Hcl : classify st field ftype = InlineStruct)
        by classified.
      rewrite Hcl.
      simpl in Hhd. destruct (getSI ftype) as [[sinfo|e]| |]; simpl in *.
      * destruct Hhd as [Hsub Hkeys].
        pose proof (splice_spec st i (FieldsList sinfo) fm fl Hok) as Hsp.
        destruct (splice _ _ _ _ _) as [[fm' fl']|e].
        -- destruct Hsp as [Hok' Hk'].
           eapply scanPost_mono; [apply (IH (S i) fm' fl' im Hok')| |done|].
           ++ by rewrite Hk', Hkeys, <- app_assoc.
           ++ by intros ->; rewrite andb_false_r.
        -- destruct Hsp as (k & -> & Hc). left. split; [done|].
           rewrite Hkeys in Hc. rewrite app_assoc. by apply clash_app_l.
      * destruct e; try (by rewrite Hhd).
        right. exists field, ftype. split; [by apply list_elem_of_here|]. done.
      * by rewrite Hhd.
      * by rewrite Hhd.
  - (* a plain field *)
    assert (Hcl : classify st field ftype = Plain (fieldKey tag field))
      by classified.
    rewrite Hcl. fold (fieldKey tag field).
    set (info := mkFieldInfo _ _ _ _ _).
    change (fieldKey tag field) with (Key info).
    case_bool_decide as Hfound.
    + simpl. left. split; [done|]. apply clash_elem, Hok, Hfound.
    + eapply scanPost_mono; [apply (IH (S i) _ _ im (descOK_snoc _ _ info Hok Hfound))|..];
        [|done|done].
      rewrite fmap_app, <- app_assoc. done.
Qed.

(** [getStructInfo] on every type. *)
Lemma getStructInfo_spec st : typeSpec st (getStructInfo st).
Proof.
  induction st as [k n|n key _|n fs IH] using type_ind_nested; try done.
  pose proof (scanFields_spec getStructInfo (TStruct n fs) fs IH 0 ∅ [] (-1) descOK_empty)
    as Hscan.
  simpl in *. unfold scanPost in Hscan.
  destruct (scanFields _ _ _ _ _ _ _) as [[sinfo|e]| |]; simpl; try done.
  destruct e; try done.
  destruct Hscan as [[-> Hc]|(f & t & Hin & Hcl & Hown)].
  - by apply (dupOwner_here (TStruct n fs)).
  - apply dupOwner_inlined with t; [|done]. exists f. done.
Qed.

(** The keys of a descriptor are pairwise different, they are the keys of
    [FieldsMap], and the keys that the fields of the type resolve to. *)
Lemma getStructInfo_descOK st sinfo :
  getStructInfo st = Returns (inl sinfo) ->
  descOK (FieldsMap sinfo) (FieldsList sinfo) /\ Key <$> FieldsList sinfo = docKeys st.
Proof. intros Hst. pose proof (getStructInfo_spec st) as Hsp. by rewrite Hst in Hsp. Qed.


(** [getStructInfo] returns on a type without a flaw other than a key that
    is resolved twice. *)
Lemma getStructInfo_returns st :
  wellTagged st = true -> exists r, getStructInfo st = Returns r.
Proof.
  intros Hwt. pose proof (getStructInfo_spec st) as Hsp. unfold typeSpec in Hsp.
  destruct (getStructInfo st) as [r|p|]; [eauto| |]; congruence.
Qed.

(** *** The zero-value test *)

(** The loop of [isZero] returns true exactly when [isZero] returns true on
    every field that it does not skip. *)
Lemma isZeroFields_true fs :
  isZeroFields isZero fs = Returns true <->
  forall f x, (f, x) ∈ fs -> testedField f = true ->
    isZero (negb (exportedField f)) x = Returns true.
Proof.
  induction fs as [|[f x] rest IH]; cbn [isZeroFields].
  { split; [|done]. by intros _ f x ?%elem_of_nil. }
  assert (Hcons : (forall f' x', (f', x') ∈ (f, x) :: rest -> testedField f' = true ->
                     isZero (negb (exportedField f')) x' = Returns true)
                  <-> (testedField f = true ->
                         isZero (negb (exportedField f)) x = Returns true)
                      /\ (forall f' x', (f', x') ∈ rest -> testedField f' = true ->
                            isZero (negb (exportedField f')) x' = Returns true)).
  { split.
    - intros Hall. split; [apply Hall, list_elem_of_here|].
      intros f' x' Hin. by apply Hall, list_elem_of_further.
    - intros [Hhd Hrest] f' x' [[= -> ->]|Hin]%elem_of_cons; auto. }
  rewrite Hcons, <- IH. clear Hcons IH.
  change (String.eqb (PkgPath f) "") with (exportedField f).
  rewrite <- negb_orb. fold (testedField f).
  destruct (testedField f); cbn [negb].
  - destruct (isZero (negb (exportedField f)) x) as [[|]| |]; cbn [bind negb];
      split; try done; try (by intros [? ?]); try (by intros [Hx _]; discriminate Hx).
  - split; [done|]. by intros [_ ?].
Qed.

(** C8, amended.  On a record other than a [time.Time], [isZero] returns
    true if and only if it returns true on every field that is exported or
    embedded; the fields that are neither are not looked at. *)
Theorem isZero_record ro name fs :
  type_eqb (TypeOf (VStruct name fs)) typeTime = false ->
  (isZero ro (VStruct name fs) = Returns true <->
   forall f x, (f, x) ∈ fs -> testedField f = true ->
     isZero (negb (exportedField f)) x = Returns true).
Proof.
  intros Htime. cbn [isZero]. rewrite Htime. apply isZeroFields_true.
Qed.

(** *** Maps *)

(** [mapLoop] on valid elements: what it leaves under each key. *)
Lemma mapLoop_spec v keys set0 :
  (forall ks, ks ∈ keys -> ks <> "_id" -> IsValid (MapIndex v ks) = true) ->
  exists set,
    mapLoop v keys set0 = Returns set
    /\ forall k, set !! k =
         if decide (k ∈ keys /\ k <> "_id") then Some (packEface (MapIndex v k))
         else set0 !! k.
Proof.
  revert set0. induction keys as [|ks rest IH]; intros set0 Hvalid; cbn [mapLoop].
  - exists set0. split; [done|]. intros k. case_decide as Hk; [|done].
    destruct Hk as [Hk _]. by apply elem_of_nil in Hk.
  - assert (Hrest : forall k, k ∈ rest -> k <> "_id" -> IsValid (MapIndex v k) = true).
    { intros k ? ?. apply Hvalid; [by apply list_elem_of_further|done]. }
    case_bool_decide as Hid.
    + destruct (IH set0 Hrest) as (set & -> & Hset).
      exists set. split; [done|]. intros k. rewrite Hset.
      destruct (decide (k ∈ rest /\ k <> "_id")) as [[Hin Hk]|Hno].
      * rewrite decide_True; [done|]. split; [by apply list_elem_of_further|done].
      * rewrite decide_False; [done|].
        intros [[->|Hin]%elem_of_cons Hk]; [done|]. by apply Hno.
    + rewrite Interface_valid by (apply Hvalid; [apply list_elem_of_here|done]). cbn [bind].
      destruct (IH (<[ks:=packEface (MapIndex v ks)]> set0) Hrest) as (set & -> & Hset).
      exists set. split; [done|]. intros k. rewrite Hset.
      destruct (decide (k ∈ rest /\ k <> "_id")) as [[Hin Hk]|Hno].
      * rewrite decide_True; [done|]. split; [by apply list_elem_of_further|done].
      * destruct (decide (k = ks)) as [->|Hne].
        -- rewrite lookup_insert_eq, decide_True; [done|].
           split; [apply list_elem_of_here|done].
        -- rewrite lookup_insert_ne by done. rewrite decide_False; [done|].
           intros [[->|Hin]%elem_of_cons Hk]; [done|]. by apply Hno.
Qed.

(** [mapLoop] never writes the key ["_id"]. *)
Lemma mapLoop_id v keys set0 set :
  mapLoop v keys set0 = Returns set -> set !! "_id" = set0 !! "_id".
Proof.
  revert set0. induction keys as [|ks rest IH]; intros set0; cbn [mapLoop].
  - by intros [= <-].
  - case_bool_decide as Hid; [apply IH|].
    intros (x & _ & Hloop)%bind_Returns. rewrite (IH _ Hloop).
    by rewrite lookup_insert_ne.
Qed.

(** [mapAsUpdate] on a string-keyed map. *)
Lemma mapAsUpdate_string_keyed name key m :
  TypeKind key = KString ->
  (forall k x, m !! k = Some x -> IsValid x = true) ->
  mapAsUpdate (VMap name key m)
  = Returns (mkUpdate (Some (packEface <$> delete "_id" m)) (Some ∅), None).
Proof.
  intros Hkey Hvalid. unfold mapAsUpdate. simpl.
  rewrite bool_decide_eq_false_2 by (by rewrite Hkey; intros ?).
  destruct (mapLoop_spec (VMap name key m) (map fst (map_to_list m)) ∅) as (set & -> & Hset).
  { intros ks [x Hx]%elem_of_map_keys _. simpl. rewrite Hx. simpl. eauto. }
  cbn [bind]. assert (set = packEface <$> delete "_id" m) as ->; [|done].
  apply map_eq. intros k. rewrite Hset, lookup_fmap.
  case_decide as Hk.
  - destruct Hk as [[x Hx]%elem_of_map_keys Hid].
    rewrite lookup_delete_ne by done. simpl. by rewrite Hx.
  - rewrite lookup_empty. destruct (decide (k = "_id")) as [->|Hid].
    + by rewrite lookup_delete_eq.
    + rewrite lookup_delete_ne by done.
      destruct (m !! k) eqn:Hx; [|done].
      exfalso. apply Hk. split; [|done]. apply elem_of_map_keys. eauto.
Qed.

(** *** Records *)

(** The loop over the inline map: the four ways in which it can end. *)
Lemma inlineLoop_spec sinfo ro m keys set0 :
  match inlineLoop sinfo ro m keys set0 with
  | Returns (inl set) =>
      (forall ks, ks ∈ keys -> FieldsMap sinfo !! ks = None)
      /\ (forall k, set !! k =
            if decide (k ∈ keys /\ k <> "_id") then Some (packEface (MapIndex m k))
            else set0 !! k)
  | Returns (inr e) =>
      exists ks, e = ErrInlineConflict ks /\ ks ∈ keys /\ is_Some (FieldsMap sinfo !! ks)
  | Panics _ =>
      exists ks, ks ∈ keys /\ ks <> "_id"
                 /\ (ro = true \/ IsValid (MapIndex m ks) = false)
  | OutOfFuel => False
  end.
Proof.
  revert set0. induction keys as [|ks rest IH]; intros set0; cbn [inlineLoop].
  - split; [by intros ks ?%elem_of_nil|]. intros k.
    rewrite decide_False; [done|]. by intros [?%elem_of_nil _].
  - case_bool_decide as Hfound.
    { exists ks. split; [done|]. split; [apply list_elem_of_here|done]. }
    assert (Hnone : FieldsMap sinfo !! ks = None).
    { destruct (FieldsMap sinfo !! ks) eqn:E; [|done]. exfalso. apply Hfound. eauto. }
    case_bool_decide as Hid.
    + unfold Interface. destruct (IsValid (MapIndex m ks)) eqn:Hvalid; cbn [negb bind].
      2:{ exists ks. split; [apply list_elem_of_here|]. auto. }
      destruct ro; cbn [bind].
      { exists ks. split; [apply list_elem_of_here|]. auto. }
      specialize (IH (<[ks:=packEface (MapIndex m ks)]> set0)).
      destruct (inlineLoop _ _ _ _ _) as [[set|e]|p|]; [| | |done].
      * destruct IH as [Hno Hset]. split.
        { intros k [->|?]%elem_of_cons; auto. }
        intros k. rewrite Hset.
        destruct (decide (k ∈ rest /\ k <> "_id")) as [[Hin Hk]|Hnot].
        -- rewrite decide_True; [done|]. split; [by apply list_elem_of_further|done].
        -- destruct (decide (k = ks)) as [->|Hne].
           ++ rewrite lookup_insert_eq, decide_True; [done|].
              split; [apply list_elem_of_here|done].
           ++ rewrite lookup_insert_ne by done. rewrite decide_False; [done|].
              intros [[->|Hin]%elem_of_cons Hk]; [done|]. by apply Hnot.
      * destruct IH as (k & -> & Hin & Hk). exists k.
        split; [done|]. split; [by apply list_elem_of_further|done].
      * destruct IH as (k & Hin & Hk). exists k.
        split; [by apply list_elem_of_further|done].
    + subst ks. specialize (IH set0).
      destruct (inlineLoop _ _ _ _ _) as [[set|e]|p|]; [| | |done].
      * destruct IH as [Hno Hset]. split.
        { intros k [->|?]%elem_of_cons; auto. }
        intros k. rewrite Hset.
        destruct (decide (k ∈ rest /\ k <> "_id")) as [[Hin Hk]|Hnot].
        -- rewrite decide_True; [done|]. split; [by apply list_elem_of_further|done].
        -- rewrite decide_False; [done|].
           intros [[->|Hin]%elem_of_cons Hk]; [done|]. by apply Hnot.
      * destruct IH as (k & -> & Hin & Hk). exists k.
        split; [done|]. split; [by apply list_elem_of_further|done].
      * destruct IH as (k & Hin & Hk). exists k.
        split; [by apply list_elem_of_further|done].
Qed.

(** The first loop, seen from the content of the inline map. *)
Lemma inlineSet_spec v sinfo :
  match inlineSet v sinfo with
  | Returns (inl set) =>
      (forall k, is_Some (inlineMapOf v sinfo !! k) -> FieldsMap sinfo !! k = None)
      /\ set = packEface <$> delete "_id" (inlineMapOf v sinfo)
  | Returns (inr e) =>
      exists ks, e = ErrInlineConflict ks
                 /\ is_Some (inlineMapOf v sinfo !! ks)
                 /\ is_Some (FieldsMap sinfo !! ks)
  | _ => True
  end.
Proof.
  unfold inlineSet, inlineMapOf. destruct (0 <=? InlineMap sinfo).
  2:{ split; [by intros k [x Hx]|]. by rewrite delete_empty, fmap_empty. }
  destruct (Field v _) as [[ro mv]| |]; cbn [bind fst snd]; [|done|done].
  destruct mv; cbn [Len bind]; try done.
  - (* a string *)
    destruct (negb _); cbn [MapKeys bind]; [done|].
    split; [by intros k [x Hx]|]. by rewrite delete_empty, fmap_empty.
  - (* a slice *)
    destruct (negb _); cbn [MapKeys bind]; [done|].
    split; [by intros k [x Hx]|]. by rewrite delete_empty, fmap_empty.
  - (* a map *)
    destruct (negb _) eqn:Hn; cbn [MapKeys bind].
    + pose proof (inlineLoop_spec sinfo ro (VMap name key m) (map fst (map_to_list m)) ∅)
        as Hloop.
      destruct (inlineLoop _ _ _ _ _) as [[set|e]|p|]; [| |done|done].
      * destruct Hloop as [Hno Hset]. split.
        { intros k Hk. apply Hno. by apply elem_of_map_keys. }
        apply map_eq. intros k. rewrite Hset, lookup_fmap.
        case_decide as Hk.
        -- destruct Hk as [[x Hx]%elem_of_map_keys Hid].
           rewrite lookup_delete_ne by done. simpl. by rewrite Hx.
        -- rewrite lookup_empty. destruct (decide (k = "_id")) as [->|Hid].
           ++ by rewrite lookup_delete_eq.
           ++ rewrite lookup_delete_ne by done.
              destruct (m !! k) eqn:Hx; [|done].
              exfalso. apply Hk. split; [|done]. apply elem_of_map_keys. eauto.
      * destruct Hloop as (ks & -> & Hin%elem_of_map_keys & Hks). eauto.
    + apply negb_false_iff, Nat.eqb_eq, map_size_empty_iff in Hn. subst m.
      split; [by intros k [x Hx]|]. by rewrite delete_empty, fmap_empty.
Qed.

(** On an inline map in an exported field, with valid elements, the first
    loop returns. *)
Lemma inlineSet_readable R sinfo :
  inlineMapReadable R sinfo ->
  exists r, inlineSet R sinfo = Returns r.
Proof.
  intros (Him & name & key & m & Hfield & Hvalid).
  unfold inlineSet. rewrite (proj2 (Z.leb_le _ _) Him), Hfield. cbn [bind snd fst Len].
  destruct (negb _); [|eauto]. cbn [MapKeys bind].
  pose proof (inlineLoop_spec sinfo false (VMap name key m) (map fst (map_to_list m)) ∅)
    as Hloop.
  destruct (inlineLoop _ _ _ _ _) as [r|p|]; [eauto| |done].
  destruct Hloop as (ks & [x Hx]%elem_of_map_keys & _ & [?|Hinv]); [done|].
  simpl in Hinv. rewrite Hx in Hinv. simpl in Hinv. by rewrite (Hvalid _ _ Hx) in Hinv.
Qed.

(** [fieldsLoop] leaves alone the key ["_id"] and the keys that are not in
    its list. *)
Lemma fieldsLoop_frame v l set0 unset0 set unset :
  fieldsLoop v l set0 unset0 = Returns (set, unset) ->
  forall k, k ∉ Key <$> l \/ k = "_id" ->
    set !! k = set0 !! k /\ unset !! k = unset0 !! k.
Proof.
  revert set0 unset0. induction l as [|info rest IH]; intros set0 unset0; cbn [fieldsLoop].
  - by intros [= <- <-].
  - case_bool_decide as Hid.
    + intros Hloop k Hk. apply (IH _ _ Hloop).
      destruct Hk as [Hk|Hk]; [left|by right].
      intros Hin. apply Hk. rewrite fmap_cons. by apply list_elem_of_further.
    + intros ([ro x] & Hfield & Hloop)%bind_Returns.
      apply bind_Returns in Hloop as (z & Hz & Hloop). cbn [fst snd] in *.
      assert (Hk' : forall k, k ∉ Key <$> info :: rest \/ k = "_id" ->
                (k ∉ Key <$> rest \/ k = "_id") /\ k <> Key info).
      { intros k [Hk| ->]; [|by split; [right|]].
        rewrite fmap_cons in Hk. apply not_elem_of_cons in Hk as [? ?]. by split; [left|]. }
      destruct z.
      * intros k [Hk Hne]%Hk'. destruct (IH _ _ Hloop k Hk) as [-> ->].
        by rewrite lookup_insert_ne by congruence.
      * apply bind_Returns in Hloop as (y & Hy & Hloop).
        intros k [Hk Hne]%Hk'. destruct (IH _ _ Hloop k Hk) as [-> ->].
        by rewrite lookup_insert_ne by congruence.
Qed.

(** [fieldsLoop] on descriptors with pairwise different keys: where it
    leaves each key. *)
Lemma fieldsLoop_placed v l set0 unset0 set unset :
  NoDup (Key <$> l) ->
  fieldsLoop v l set0 unset0 = Returns (set, unset) ->
  forall info, info ∈ l -> Key info <> "_id" -> placed v info set0 unset0 set unset.
Proof.
  revert set0 unset0. induction l as [|info0 rest IH]; intros set0 unset0 Hnd;
    cbn [fieldsLoop].
  { by intros _ info ?%elem_of_nil. }
  rewrite fmap_cons in Hnd. apply NoDup_cons in Hnd as [Hfresh Hnd].
  case_bool_decide as Hid.
  { intros Hloop info [->|Hin]%elem_of_cons Hk; [done|]. by apply (IH _ _ Hnd Hloop). }
  intros ([ro x] & Hfield & Hloop)%bind_Returns.
  apply bind_Returns in Hloop as (z & Hz & Hloop). cbn [fst snd] in *.
  destruct z.
  - (* the key goes to Unset *)
    assert (Hzero : OmitEmpty info0 = true /\ isZero ro x = Returns true).
    { destruct (OmitEmpty info0); [done|]. discriminate. }
    intros info [->|Hin]%elem_of_cons Hk.
    + exists ro, x. split; [done|]. left.
      destruct (fieldsLoop_frame _ _ _ _ _ _ Hloop (Key info0)) as [-> ->]; [by left|].
      rewrite lookup_insert_eq. by destruct Hzero.
    + destruct (IH _ _ Hnd Hloop info Hin Hk) as (ro' & x' & Hf & Hplace).
      exists ro', x'. split; [done|].
      assert (Key info0 <> Key info).
      { intros Heq. apply Hfresh. rewrite Heq. by apply list_elem_of_fmap_2. }
      rewrite lookup_insert_ne in Hplace by done. done.
  - (* the key goes to Set *)
    assert (Hzero : ~ (OmitEmpty info0 = true /\ isZero ro x = Returns true)).
    { intros [Ho Hzx]. rewrite Ho, Hzx in Hz. discriminate. }
    apply bind_Returns in Hloop as (y & Hy & Hloop).
    apply Interface_Returns in Hy as (Hvalid & -> & ->).
    intros info [->|Hin]%elem_of_cons Hk.
    + exists false, x. split; [done|]. right.
      destruct (fieldsLoop_frame _ _ _ _ _ _ Hloop (Key info0)) as [-> ->]; [by left|].
      rewrite lookup_insert_eq. done.
    + destruct (IH _ _ Hnd Hloop info Hin Hk) as (ro' & x' & Hf & Hplace).
      exists ro', x'. split; [done|].
      assert (Key info0 <> Key info).
      { intros Heq. apply Hfresh. rewrite Heq. by apply list_elem_of_fmap_2. }
      rewrite lookup_insert_ne in Hplace by done. done.
Qed.

(** What a successful [structAsUpdate] went through. *)
Lemma structAsUpdate_success v u :
  structAsUpdate v = Returns (u, None) ->
  exists sinfo set unset,
    getStructInfo (TypeOf v) = Returns (inl sinfo)
    /\ inlineSet v sinfo = Returns (inl (packEface <$> delete "_id" (inlineMapOf v sinfo)))
    /\ (forall k, is_Some (inlineMapOf v sinfo !! k) -> FieldsMap sinfo !! k = None)
    /\ fieldsLoop v (FieldsList sinfo)
         (packEface <$> delete "_id" (inlineMapOf v sinfo)) ∅ = Returns (set, unset)
    /\ u = mkUpdate (Some set) (Some unset).
Proof.
  unfold structAsUpdate. intros ([sinfo|e] & Hsi & Hrest)%bind_Returns; [|done].
  apply bind_Returns in Hrest as ([set0|e] & Hinl & Hrest); [|done].
  apply bind_Returns in Hrest as ([set unset] & Hloop & [= <-]).
  pose proof (inlineSet_spec v sinfo) as Hsp. rewrite Hinl in Hsp.
  destruct Hsp as [Hno ->]. exists sinfo, set, unset. done.
Qed.

(** *** The dispatch and the results *)

(** On a record in the sense of the dispatch phase, [AsUpdate] is
    [structAsUpdate]; on such a map, it is [mapAsUpdate]. *)
Lemma AsUpdate_plainRecord fuel R :
  plainRecord R -> AsUpdate (S fuel) R = structAsUpdate R.
Proof.
  intros ((name & fs & ->)%ValueKind_struct & Hget & Hraw).
  unfold AsUpdate. cbn [resolve Interface IsValid negb packEface bind].
  rewrite Hget. rewrite bool_decide_eq_false_2 by done.
  unfold dispatch. rewrite Hraw. done.
Qed.

Lemma AsUpdate_plainMap fuel M :
  plainMap M -> AsUpdate (S fuel) M = mapAsUpdate M.
Proof.
  intros (name & key & m & -> & Hkey & Hget & Hvalid).
  unfold AsUpdate. cbn [resolve Interface IsValid negb packEface bind].
  rewrite Hget. rewrite bool_decide_eq_false_2 by done. done.
Qed.

(** Every function returns either both maps, without ["_id"], and no error,
    or the zero [Update] with an error. *)
Lemma mapAsUpdate_shaped v r : mapAsUpdate v = Returns r -> shaped r.
Proof.
  unfold mapAsUpdate. intros (key & _ & Hr)%bind_Returns.
  case_bool_decide; [by injection Hr as <-|].
  apply bind_Returns in Hr as (keys & _ & Hr).
  apply bind_Returns in Hr as (set & Hloop & [= <-]).
  exists set, ∅. split; [done|]. split; [|done].
  by rewrite (mapLoop_id _ _ _ _ Hloop).
Qed.

Lemma nonStructAsUpdate_shaped v r : nonStructAsUpdate v = Returns r -> shaped r.
Proof.
  unfold nonStructAsUpdate. intros (x & _ & Hr)%bind_Returns.
  destruct (bson_Marshal x) as [data|err]; [|by injection Hr as <-].
  destruct (bson_Unmarshal data) as [m|err]; [|by injection Hr as <-].
  by apply mapAsUpdate_shaped in Hr.
Qed.

Lemma structAsUpdate_shaped v r : structAsUpdate v = Returns r -> shaped r.
Proof.
  destruct r as [u [e|]].
  - unfold structAsUpdate. intros ([sinfo|e'] & _ & Hr)%bind_Returns;
      [|by injection Hr as <- _].
    apply bind_Returns in Hr as ([set0|e''] & _ & Hr); [|by injection Hr as <- _].
    by apply bind_Returns in Hr as (su & _ & [= _]).
  - intros (sinfo & set & unset & _ & _ & _ & Hloop & ->)%structAsUpdate_success.
    exists set, unset. split; [done|].
    destruct (fieldsLoop_frame _ _ _ _ _ _ Hloop "_id") as [-> ->]; [by right|].
    by rewrite lookup_fmap, lookup_delete_eq.
Qed.

Create HintDb shaped.
#[local] Hint Resolve mapAsUpdate_shaped nonStructAsUpdate_shaped structAsUpdate_shaped
  : shaped.

Lemma dispatch_shaped v addr r : dispatch v addr = Returns r -> shaped r.
Proof.
  unfold dispatch. destruct (type_eqb _ _).
  - destruct addr; [eauto with shaped|done].
  - destruct (TypeKind (TypeOf v)); eauto with shaped.
Qed.

Lemma resolve_shaped fuel v addr r : resolve fuel v addr = Returns r -> shaped r.
Proof.
  revert v addr. induction fuel as [|fuel IH]; intros v addr; cbn [resolve]; [done|].
  intros (x & _ & Hr)%bind_Returns.
  destruct (asGetter x) as [[getv [err|]]|].
  - by injection Hr as <-.
  - by apply IH in Hr.
  - case_bool_decide; [by apply IH in Hr|by apply dispatch_shaped in Hr].
Qed.

(** C4.  Whenever [AsUpdate] succeeds, on a record (with or without an
    inline map), on a string-keyed map or on an opaque document, both
    [Set] and [Unset] are present and the key ["_id"] is in neither. *)
Theorem AsUpdate_omits_id fuel x u :
  AsUpdate fuel x = Returns (u, None) ->
  exists set unset,
    Set_ u = Some set /\ Unset_ u = Some unset
    /\ ("_id" ∉ dom set) /\ ("_id" ∉ dom unset).
Proof.
  intros (set & unset & -> & Hs & Hu)%resolve_shaped.
  exists set, unset. rewrite !not_elem_of_dom. done.
Qed.

(** C10.  Whenever [AsUpdate] returns an error, the [Update] that comes
    with it is the zero [Update]: its [Set] and its [Unset] are nil. *)
Theorem AsUpdate_error_zero fuel x u e :
  AsUpdate fuel x = Returns (u, Some e) ->
  u = zeroUpdate /\ Set_ u = None /\ Unset_ u = None.
Proof. intros ->%resolve_shaped. done. Qed.

(** C3.  On a string-keyed map [m] (a map in the sense of the dispatch
    phase: it has no method [GetBSON]; its elements are valid values),
    [AsUpdate] succeeds; [Set] is [m] without the entry of ["_id"], each
    other key with the value it has in [m], and [Unset] is the empty map. *)
Theorem AsUpdate_map fuel name key m :
  TypeKind key = KString ->
  asGetter (VMap name key m) = None ->
  (forall k x, m !! k = Some x -> IsValid x = true) ->
  AsUpdate (S fuel) (VMap name key m)
  = Returns (mkUpdate (Some (packEface <$> delete "_id" m)) (Some ∅), None).
Proof.
  intros Hkey Hget Hvalid. rewrite AsUpdate_plainMap.
  - by apply mapAsUpdate_string_keyed.
  - exists name, key, m. done.
Qed.

(** C1, amended.  When [AsUpdate] succeeds on a record [R], [Set] and
    [Unset] are both present (non-nil), their key sets are disjoint, and
    their union is the set of the keys of [R]'s descriptor together with
    the keys of [R]'s inline map, without ["_id"]. *)
Theorem AsUpdate_record_keys fuel R u :
  plainRecord R ->
  AsUpdate (S fuel) R = Returns (u, None) ->
  exists sinfo set unset,
    getStructInfo (TypeOf R) = Returns (inl sinfo)
    /\ Set_ u = Some set /\ Unset_ u = Some unset
    /\ dom set ## dom unset
    /\ dom set ∪ dom unset
       = (dom (FieldsMap sinfo) ∪ dom (inlineMapOf R sinfo)) ∖ {["_id"]}.
Proof.
  intros HR. rewrite (AsUpdate_plainRecord _ _ HR).
  intros (sinfo & set & unset & Hsi & _ & Hno & Hloop & ->)%structAsUpdate_success.
  destruct (getStructInfo_descOK _ _ Hsi) as [[Hnd Hdom] _].
  pose proof (fieldsLoop_frame _ _ _ _ _ _ Hloop) as Hframe.
  pose proof (fieldsLoop_placed _ _ _ _ _ _ Hnd Hloop) as Hplaced.
  exists sinfo, set, unset. do 3 (split; [done|]).
  assert (Hcases : forall k,
    (k = "_id" /\ set !! k = None /\ unset !! k = None)
    \/ (k <> "_id" /\ is_Some (FieldsMap sinfo !! k) /\ inlineMapOf R sinfo !! k = None
        /\ ((is_Some (set !! k) /\ unset !! k = None)
            \/ (set !! k = None /\ is_Some (unset !! k))))
    \/ (k <> "_id" /\ FieldsMap sinfo !! k = None /\ unset !! k = None
        /\ set !! k = packEface <$> inlineMapOf R sinfo !! k)).
  { intros k. destruct (decide (k = "_id")) as [->|Hid].
    { left. destruct (Hframe "_id") as [-> ->]; [by right|].
      by rewrite lookup_fmap, lookup_delete_eq. }
    right. destruct (FieldsMap sinfo !! k) as [i|] eqn:Hk.
    - left. assert (Hin : k ∈ Key <$> FieldsList sinfo) by (apply Hdom; eauto).
      apply list_elem_of_fmap in Hin as (info & -> & Hin).
      assert (Hnone : inlineMapOf R sinfo !! Key info = None).
      { destruct (inlineMapOf R sinfo !! Key info) eqn:E; [|done].
        rewrite Hno in Hk by eauto. done. }
      do 3 (split; [by eauto|]).
      destruct (Hplaced info Hin Hid) as (ro & x & _ & [(_ & _ & Hu & Hs)|(_ & _ & _ & Hs & Hu)]).
      + right. rewrite Hs, Hu, lookup_fmap, lookup_delete_ne, Hnone by done. eauto.
      + left. rewrite Hs, Hu, lookup_empty. eauto.
    - right. destruct (Hframe k) as [-> ->].
      { left. intros Hin%Hdom. rewrite Hk in Hin. by destruct Hin. }
      by rewrite lookup_fmap, lookup_delete_ne, lookup_empty. }
  split.
  - intros k [s Hs]%elem_of_dom [un Hu]%elem_of_dom.
    destruct (Hcases k) as [(_ & E & _)|[(_ & _ & _ & [[_ E]|[E _]])|(_ & _ & E & _)]];
      congruence.
  - apply set_eq. intros k.
    rewrite elem_of_union, elem_of_difference, elem_of_union, !elem_of_dom,
      elem_of_singleton.
    destruct (Hcases k) as [(-> & E1 & E2)|[(Hid & Hf & _ & Hsu)|(Hid & Hf & E1 & E2)]].
    + rewrite E1, E2. split; [intros [[? ?]|[? ?]]; done|intros [_ []]; done].
    + split; [auto|]. intros _. destruct Hsu as [[? _]|[_ ?]]; auto.
    + rewrite E1, E2, Hf. destruct (inlineMapOf R sinfo !! k); simpl; split.
      * auto.
      * intros _. left. eauto.
      * intros [[? ?]|[? ?]]; done.
      * intros [[[? ?]|[? ?]] _]; done.
Qed.

(** C2.  When [AsUpdate] succeeds on a record [R], every field of the
    descriptor whose key is not ["_id"] has its key in [Unset], with the
    placeholder nil and not in [Set], exactly when the field is marked
    omitempty and [isZero] classifies its value as zero; otherwise the key
    is in [Set] with the current value of the field, and not in [Unset].
    The case only depends on the field's own descriptor and value. *)
Theorem AsUpdate_field_placement fuel R u :
  plainRecord R ->
  AsUpdate (S fuel) R = Returns (u, None) ->
  exists sinfo set unset,
    getStructInfo (TypeOf R) = Returns (inl sinfo)
    /\ Set_ u = Some set /\ Unset_ u = Some unset
    /\ forall info, info ∈ FieldsList sinfo -> Key info <> "_id" ->
       exists ro x,
         fieldValue R info = Returns (ro, x)
         /\ ((OmitEmpty info = true /\ isZero ro x = Returns true
              /\ unset !! Key info = Some VInvalid /\ set !! Key info = None)
             \/ (~ (OmitEmpty info = true /\ isZero ro x = Returns true)
                 /\ set !! Key info = Some (packEface x)
                 /\ unset !! Key info = None)).
Proof.
  intros HR. rewrite (AsUpdate_plainRecord _ _ HR).
  intros (sinfo & set & unset & Hsi & _ & Hno & Hloop & ->)%structAsUpdate_success.
  destruct (getStructInfo_descOK _ _ Hsi) as [[Hnd Hdom] _].
  exists sinfo, set, unset. do 3 (split; [done|]).
  intros info Hin Hid.
  destruct (fieldsLoop_placed _ _ _ _ _ _ Hnd Hloop info Hin Hid)
    as (ro & x & Hfield & Hplace).
  exists ro, x. split; [done|].
  assert (Hnone : inlineMapOf R sinfo !! Key info = None).
  { destruct (inlineMapOf R sinfo !! Key info) eqn:E; [|done].
    assert (Hk : is_Some (FieldsMap sinfo !! Key info))
      by (by apply Hdom, list_elem_of_fmap_2).
    rewrite Hno in Hk by eauto. by destruct Hk. }
  destruct Hplace as [(Ho & Hz & Hu & Hs)|(Hnz & _ & _ & Hs & Hu)].
  - left. rewrite Hs, Hu, lookup_fmap, lookup_delete_ne, Hnone by done. done.
  - right. rewrite Hs, Hu, lookup_empty. done.
Qed.


(** *** The resolution phase *)

(** More fuel does not change what [AsUpdate] returns or how it panics. *)
Lemma resolve_mono fuel fuel' v addr :
  (fuel <= fuel')%nat -> resolve fuel v addr <> OutOfFuel ->
  resolve fuel' v addr = resolve fuel v addr.
Proof.
  revert fuel' v addr. induction fuel as [|fuel IH]; intros [|fuel'] v addr Hle;
    cbn [resolve]; try done; try lia.
  destruct (Interface false v) as [x| |]; cbn [bind]; try done.
  destruct (asGetter x) as [[getv [err|]]|]; try done.
  - apply IH. lia.
  - case_bool_decide; [apply IH; lia|done].
Qed.

(** The loop of [AsUpdate] follows the resolution phase. *)
Lemma resolve_Resolution v addr n r :
  Resolution v addr n r ->
  forall fuel, (n <= fuel)%nat -> resolve fuel v addr = afterResolution r.
Proof.
  induction 1 as [v addr x getv n r Hx Hget _ IH|v addr x getv err Hx Hget
                 |v addr x n r Hx Hget Hptr _ IH|v addr x Hx Hget Hptr];
    intros [|fuel] Hfuel; try lia; cbn [resolve]; rewrite Hx; cbn [bind]; rewrite Hget.
  - apply IH. lia.
  - done.
  - rewrite bool_decide_eq_true_2 by done. apply IH. lia.
  - by rewrite bool_decide_eq_false_2.
Qed.

(** C5.  [AsUpdate] follows the resolution phase: it calls [GetBSON]
    where the current value has it and goes on from what it returns (so
    that chains are followed), dereferences a pointer otherwise, and stops
    when neither applies, to dispatch on the value reached; an error of
    [GetBSON] ends the call at once with that error under the prefix
    ["GetBSON failed: "]; on a nil pointer whose type has [GetBSON] the
    method is called on the nil receiver. *)
Theorem AsUpdate_resolution x n r fuel :
  Resolution x false n r -> (n <= fuel)%nat ->
  AsUpdate fuel x = afterResolution r
  /\ (forall err, r = HookFailed err ->
        exists e, AsUpdate fuel x = Returns (zeroUpdate, Some e)
                  /\ Error e = Some ("GetBSON failed: " ++ err))
  /\ (forall name getv, GetBSON (VPtr name None) = Some (getv, None) ->
        AsUpdate (S fuel) (VPtr name None) = AsUpdate fuel getv).
Proof.
  intros Hres Hfuel.
  pose proof (resolve_Resolution _ _ _ _ Hres fuel Hfuel) as Heq.
  split; [done|]. split.
  - intros err ->. eexists. split; [exact Heq|done].
  - intros name getv Hget. unfold AsUpdate.
    cbn [resolve Interface IsValid negb bind packEface asGetter].
    by rewrite Hget.
Qed.

(** *** When AsUpdate returns *)

(** What [readable] says of a field and of a map element. *)
Lemma readable_fields name fs f x :
  readable (VStruct name fs) = true -> (f, x) ∈ fs -> testedField f = true ->
  exportedField f = true /\ IsValid x = true /\ readable x = true.
Proof.
  cbn [readable]. rewrite forallb_forall. intros Hall Hin Ht.
  specialize (Hall (f, x)). rewrite <- list_elem_of_In in Hall.
  specialize (Hall Hin). cbn [fst snd] in Hall. rewrite Ht in Hall. cbn [negb orb] in Hall.
  apply andb_prop in Hall as [[? ?]%andb_prop ?]. done.
Qed.

Lemma readable_map name key m k x :
  readable (VMap name key m) = true -> m !! k = Some x -> IsValid x = true.
Proof.
  cbn [readable]. rewrite forallb_forall. intros Hall Hk.
  apply (Hall (k, x)). apply list_elem_of_In. by apply elem_of_map_to_list.
Qed.

(** [isZero] returns on readable values. *)
Lemma isZero_returns v : readable v = true -> exists b, isZero false v = Returns b.
Proof.
  induction v as [v Hv|name fs IH] using value_ind_struct.
  { destruct v; try done; cbn [isZero]; eauto. }
  intros Hread. cbn [isZero]. destruct (type_eqb _ _); [cbn; eauto|].
  assert (Hfs : forall f x, (f, x) ∈ fs -> testedField f = true ->
            exists b, isZero (negb (exportedField f)) x = Returns b).
  { intros f x Hin Ht. destruct (readable_fields _ _ _ _ Hread Hin Ht) as (-> & _ & Hr).
    rewrite Forall_forall in IH. apply (IH (f, x) Hin Hr). }
  clear IH Hread. induction fs as [|[f x] rest IHrest]; cbn [isZeroFields]; [eauto|].
  change (String.eqb (PkgPath f) "") with (exportedField f).
  rewrite <- negb_orb. fold (testedField f).
  destruct (testedField f) eqn:Ht; cbn [negb].
  - destruct (Hfs f x (list_elem_of_here _ _) Ht) as [b ->]. cbn [bind].
    destruct b; cbn [negb]; [|eauto].
    apply IHrest. intros f' x' Hin. apply Hfs. by apply list_elem_of_further.
  - apply IHrest. intros f' x' Hin. apply Hfs. by apply list_elem_of_further.
Qed.

(** [fieldsLoop] returns when every field can be reached. *)
Lemma fieldsLoop_returns v l set unset :
  (forall info, info ∈ l -> reach v info) ->
  exists r, fieldsLoop v l set unset = Returns r.
Proof.
  revert set unset. induction l as [|info rest IH]; intros set unset Hreach;
    cbn [fieldsLoop]; [eauto|].
  assert (Hrest : forall i, i ∈ rest -> reach v i)
    by (intros i Hi; by apply Hreach, list_elem_of_further).
  case_bool_decide; [by apply IH|].
  destruct (Hreach info (list_elem_of_here _ _)) as (x & -> & Hvalid & Hread).
  cbn [bind fst snd].
  assert (exists z, (if OmitEmpty info then isZero false x else Returns false) = Returns z)
    as [z ->].
  { destruct (OmitEmpty info); [by apply isZero_returns|eauto]. }
  cbn [bind]. destruct z; [by apply IH|].
  rewrite Interface_valid by done. cbn [bind]. by apply IH.
Qed.

(** The fields that are spliced in are reached through the inlined record. *)
Lemma splice_reach st v i x l fm fl fm' fl' :
  Field v i = Returns (false, x) ->
  (forall info, info ∈ fl -> reach v info) ->
  (forall finfo, finfo ∈ l -> reach x finfo) ->
  splice st i l fm fl = inl (fm', fl') ->
  forall info, info ∈ fl' -> reach v info.
Proof.
  intros Hfield. revert fm fl. induction l as [|finfo rest IH]; intros fm fl Hfl Hl;
    cbn [splice].
  - by intros [= <- <-].
  - case_bool_decide; [done|]. apply IH.
    + intros info [Hin|Heq%list_elem_of_singleton]%elem_of_app; [by apply Hfl|].
      subst info.
      destruct (Hl finfo (list_elem_of_here _ _)) as (y & Hy & Hvalid & Hread).
      exists y. split; [|done]. unfold fieldValue in *. cbn [Inline Num].
      destruct (Inline finfo) as [|j path].
      * cbn [FieldByIndex]. rewrite Hfield. done.
      * cbn [FieldByIndex]. rewrite Hfield. done.
    + intros i' Hi'. by apply Hl, list_elem_of_further.
Qed.

(** The descriptors that the loop of [getStructInfo] builds for the type of
    a readable record lead to fields of the record; its inline map is a
    map field of the record. *)
Lemma scanFields_reach getSI name fs_all :
  readable (VStruct name fs_all) = true ->
  forall fs pre i fm fl im sinfo,
    fs_all = (pre ++ fs)%list -> length pre = i ->
    Forall (fun p => forall s, getSI (TypeOf (snd p)) = Returns (inl s) ->
                       readable (snd p) = true ->
                       forall info, info ∈ FieldsList s -> reach (snd p) info) fs ->
    (forall info, info ∈ fl -> reach (VStruct name fs_all) info) ->
    inlineMapAt (VStruct name fs_all) im ->
    scanFields getSI (TypeOf (VStruct name fs_all))
      (map (fun p => (fst p, TypeOf (snd p))) fs) i fm fl im = Returns (inl sinfo) ->
    (forall info, info ∈ FieldsList sinfo -> reach (VStruct name fs_all) info)
    /\ inlineMapAt (VStruct name fs_all) (InlineMap sinfo).
Proof.
  intros Hread. set (v := VStruct name fs_all). set (st := TypeOf v).
  induction fs as [|[f x] rest IH]; intros pre i fm fl im sinfo Hall Hlen Hsub Hfl Him.
  { cbn [map scanFields]. by intros [= <-]. }
  assert (Hnext : fs_all = ((pre ++ [(f, x)]) ++ rest)%list /\ length (pre ++ [(f, x)]) = S i).
  { rewrite <- app_assoc, length_app. cbn. split; [done|lia]. }
  destruct Hnext as [Hall' Hlen'].
  apply Forall_cons in Hsub as [Hx Hsub].
  assert (Hfield : Field v i = Returns (negb (exportedField f), x)).
  { unfold v. cbn [Field]. rewrite Hall, <- Hlen, list_lookup_middle by done. done. }
  cbn [map scanFields fst snd].
  change (String.eqb (PkgPath f) "") with (exportedField f).
  rewrite <- negb_orb. fold (testedField f).
  destruct (testedField f) eqn:Ht; cbn [negb]; [|by apply (IH _ _ _ _ _ _ Hall' Hlen')].
  assert (Hin : (f, x) ∈ fs_all).
  { rewrite Hall. apply elem_of_app. right. apply list_elem_of_here. }
  destruct (readable_fields _ _ _ _ Hread Hin Ht) as (Hexp & Hvalid & Hrx).
  rewrite Hexp in Hfield. cbn [negb] in Hfield.
  case_bool_decide; [by apply (IH _ _ _ _ _ _ Hall' Hlen')|].
  intros ([[info inline] tag] & Hparse & Hscan)%bind_Returns.
  apply parseTag_shape in Hparse as (Hkey & Hnum & Hinl).
  destruct inline.
  - destruct (TypeKind (TypeOf x)) eqn:Hkind; try done.
    + (* an inline map *)
      destruct (0 <=? im); [done|].
      apply bind_Returns in Hscan as (key & _ & Hscan).
      destruct (negb _); [done|].
      apply (IH _ _ _ _ _ _ Hall' Hlen' Hsub Hfl) in Hscan; [done|].
      intros _. rewrite Hnum, Nat2Z.id.
      destruct (TypeKind_map _ Hkind) as (n & k & m & ->).
      exists n, k, m. split; [done|]. intros k' x'. by apply (readable_map n k).
    + (* an inlined record *)
      apply bind_Returns in Hscan as ([s|e] & Hs & Hscan); [|done].
      destruct (splice st i (FieldsList s) fm fl) as [[fm' fl']|e] eqn:Hsplice; [|done].
      apply (IH _ _ _ _ _ _ Hall' Hlen' Hsub) in Hscan; [done| |done].
      apply (splice_reach _ _ _ _ _ _ _ _ _ Hfield Hfl (Hx s Hs Hrx) Hsplice).
  - (* a plain field *)
    case_bool_decide; [done|].
    apply (IH _ _ _ _ _ _ Hall' Hlen' Hsub) in Hscan; [done| |done].
    intros i' [Hi'|Heq%list_elem_of_singleton]%elem_of_app; [by apply Hfl|].
    subst i'.
    exists x. split; [|done]. unfold fieldValue. cbn [Inline Num].
    by rewrite Hinl, Hnum.
Qed.

Lemma getStructInfo_reach v :
  readable v = true ->
  forall s, getStructInfo (TypeOf v) = Returns (inl s) ->
    (forall info, info ∈ FieldsList s -> reach v info) /\ inlineMapAt v (InlineMap s).
Proof.
  induction v as [v Hv|name fs IH] using value_ind_struct.
  { destruct v; try done; intros _ s; cbn; discriminate. }
  intros Hread s Hs.
  apply (scanFields_reach getStructInfo name fs Hread fs [] 0%nat ∅ [] (-1) s); try done.
  - eapply Forall_impl; [exact IH|]. intros [f x] Hfx s' Hs' Hr. by apply Hfx.
  - by intros info ?%elem_of_nil.
  - intros ?. lia.
Qed.

(** The functions of the dispatch phase return. *)
Lemma structAsUpdate_returns v :
  wellTagged (TypeOf v) = true -> readable v = true ->
  exists r, structAsUpdate v = Returns r.
Proof.
  intros Hwt Hread. unfold structAsUpdate.
  destruct (getStructInfo_returns _ Hwt) as [[s|e] Hs]; rewrite Hs; cbn [bind]; [|eauto].
  destruct (getStructInfo_reach v Hread s Hs) as [Hreach Hmap].
  assert (exists r, inlineSet v s = Returns r) as [[set|e] Hinl].
  { destruct (Z_le_gt_dec 0 (InlineMap s)) as [Him|Him].
    - apply inlineSet_readable. split; [done|]. by apply Hmap.
    - unfold inlineSet. rewrite (proj2 (Z.leb_gt _ _)) by lia. eauto. }
  - rewrite Hinl. cbn [bind].
    destruct (fieldsLoop_returns v (FieldsList s) set ∅ Hreach) as [su ->]. cbn. eauto.
  - rewrite Hinl. cbn. eauto.
Qed.





End Properties.

(* ================================================================== *)
(** ** Further properties *)

Section MoreProperties.
Context `{Collaborators}.

Lemma scanFlags_never_OutOfFuel st tag flags info inline :
  scanFlags st tag flags info inline <> OutOfFuel.
Proof.
  revert info inline. induction flags as [|flag rest IH]; intros info inline; simpl; [done|].
  repeat case_bool_decide; try apply IH. done.
Qed.

Lemma parseTag_never_OutOfFuel st tag info : parseTag st tag info <> OutOfFuel.
Proof.
  unfold parseTag. destruct (1 <? _)%nat; [|done].
  pose proof (scanFlags_never_OutOfFuel st tag (tail (strings_Split tag ","))
                info false) as Hs.
  destruct (scanFlags _ _ _ _ _); done.
Qed.

(** One turn of the loop of [getStructInfo], by the class of the field. *)
Lemma scanFields_cons getSI st field ftype rest i fm fl im :
  scanFields getSI st ((field, ftype) :: rest) i fm fl im =
  match classify st field ftype with
  | Skipped => scanFields getSI st rest (S i) fm fl im
  | Plain key =>
      if bool_decide (is_Some (fm !! key)) then
        Returns (inr (ErrDuplicatedKey key (TypeString st)))
      else
        scanFields getSI st rest (S i) (<[key := plainInfo st i field]> fm)
          (fl ++ [plainInfo st i field]) im
  | InlineMapField =>
      if 0 <=? im then Returns (inr (ErrMultipleInlineMaps (TypeString st)))
      else
        key <- TypeKey ftype ;;
        if negb (type_eqb key typeString) then
          Returns (inr (ErrInlineMapKey (TypeString st)))
        else scanFields getSI st rest (S i) fm fl (Z.of_nat i)
  | InlineStruct =>
      r <- getSI ftype ;;
      match r with
      | inr err => Returns (inr err)
      | inl sub =>
          match splice st i (FieldsList sub) fm fl with
          | inr err => Returns (inr err)
          | inl (fm', fl') => scanFields getSI st rest (S i) fm' fl' im
          end
      end
  | BadInline => Panics InlineNeedsStructOrMap
  | BadFlag =>
      match parseTag st (fieldTag field) (mkFieldInfo "" 0 false false []) with
      | Panics p => Panics p
      | _ => OutOfFuel
      end
  end.
Proof.
  simpl scanFields. unfold classify, plainInfo.
  destruct (negb (String.eqb (PkgPath field) "") && negb (Anonymous field)); [done|].
  case_bool_decide; [done|].
  rewrite parseTag_Num.
  pose proof (parseTag_never_OutOfFuel st (fieldTag field) (mkFieldInfo "" 0 false false []))
    as Hne.
  destruct (parseTag st (fieldTag field) (mkFieldInfo "" 0 false false []))
    as [[[fi inline] tag]| |] eqn:Hparse; [|done|done].
  apply parseTag_shape in Hparse as (Hk & Hn & Hi).
  simpl bind. destruct inline.
  - destruct (TypeKind ftype); done.
  - done.
Qed.

Lemma plainInfo_shape st i field :
  Num (plainInfo st i field) = i /\ Inline (plainInfo st i field) = [].
Proof.
  unfold plainInfo.
  destruct (parseTag _ _ _) as [[[fi inline] tag]| |] eqn:Hparse; [|done|done].
  apply parseTag_shape in Hparse as (Hk & Hn & Hi). done.
Qed.

Lemma plainInfo_Key st i field ftype key :
  classify st field ftype = Plain key -> Key (plainInfo st i field) = key.
Proof.
  unfold classify, plainInfo.
  destruct (negb (String.eqb (PkgPath field) "") && negb (Anonymous field)); [done|].
  case_bool_decide; [done|].
  rewrite (parseTag_Num _ _ i).
  destruct (parseTag st (fieldTag field) (mkFieldInfo "" 0 false false []))
    as [[[fi inline] tag]| |] eqn:Hparse; [|done|done].
  destruct inline; [by destruct (TypeKind ftype)|].
  by intros [= <-].
Qed.


Lemma splice_success st i l fm fl fm' fl' :
  splice st i l fm fl = inl (fm', fl') ->
  fl' = (fl ++ (liftInline i <$> l))%list /\ fm' = fileAll fm (liftInline i <$> l).
Proof.
  revert fm fl. induction l as [|finfo rest IH]; intros fm fl; simpl.
  - intros [= <- <-]. by rewrite app_nil_r.
  - case_bool_decide; [done|]. intros Hs. apply IH in Hs as [-> ->].
    split; [by rewrite <- app_assoc|done].
Qed.

Lemma fileAll_app fm l l' : fileAll fm (l ++ l') = fileAll (fileAll fm l) l'.
Proof. apply foldl_app. Qed.

(** The loop of [getStructInfo], when it ends with a descriptor, has
    filed the descriptors of the fields in their order. *)
Lemma scanFields_desc getSI st fs :
  Forall (fun p => forall s, getSI (snd p) = Returns (inl s) ->
                     FieldsList s = descList (snd p)) fs ->
  forall i fm fl im sinfo,
    scanFields getSI st fs i fm fl im = Returns (inl sinfo) ->
    FieldsList sinfo = (fl ++ descFields descList st fs i)%list
    /\ FieldsMap sinfo = fileAll fm (descFields descList st fs i).
Proof.
  induction 1 as [|[field ftype] rest Hhd Htl IH]; intros i fm fl im sinfo.
  { simpl. intros [= <-]. by rewrite app_nil_r. }
  rewrite scanFields_cons. simpl descFields.
  destruct (classify st field ftype) as [|key| | | |] eqn:Hcl.
  - apply IH.
  - case_bool_decide; [done|]. intros Hs. apply IH in Hs as [-> ->].
    split; [by rewrite <- app_assoc|].
    simpl. by rewrite (plainInfo_Key _ _ _ _ _ Hcl).
  - destruct (0 <=? im); [done|]. destruct (TypeKey ftype) as [key| |]; simpl; try done.
    destruct (type_eqb key typeString); simpl; [|done]. apply IH.
  - simpl in Hhd.
    destruct (getSI ftype) as [[sub|e]| |] eqn:Hsub; simpl; try done.
    destruct (splice _ _ _ _ _) as [[fm' fl']|e] eqn:Hsp; [|done].
    intros Hs. apply IH in Hs as [-> ->].
    apply splice_success in Hsp as [-> ->].
    rewrite (Hhd sub eq_refl).
    split; [by rewrite <- app_assoc|by rewrite fileAll_app].
  - done.
  - by destruct (parseTag _ _ _).
Qed.

Lemma getStructInfo_desc st sinfo :
  getStructInfo st = Returns (inl sinfo) ->
  FieldsList sinfo = descList st /\ FieldsMap sinfo = fileAll ∅ (descList st).
Proof.
  revert sinfo. induction st as [k n|n key _|n fs IH] using type_ind_nested; try done.
  intros sinfo Hs. simpl in Hs.
  apply (scanFields_desc getStructInfo (TStruct n fs) fs) in Hs; [done|].
  eapply Forall_impl; [apply IH|]. intros p Hp s Hsub. by apply Hp.
Qed.

Lemma fileAll_lookup_gen l : 
  NoDup (Key <$> l) ->
  forall fm k info,
    (fileAll fm l !! k = Some info) <->
    (info ∈ l /\ Key info = k) \/ ((k ∉ Key <$> l) /\ fm !! k = Some info).
Proof.
  induction l as [|a l IH]; intros Hnd fm k info.
  { simpl. split; [intros ?; right; split; [apply not_elem_of_nil|done]|].
    by intros [[?%elem_of_nil _]|[_ ?]]. }
  rewrite fmap_cons in *. apply NoDup_cons in Hnd as [Hnotin Hnd].
  change (fileAll fm (a :: l)) with (fileAll (<[Key a := a]> fm) l).
  rewrite (IH Hnd). rewrite not_elem_of_cons, elem_of_cons. split.
  - intros [[Hin <-]|[Hk Hl]]; [left; split; [by right|done]|].
    destruct (decide (Key a = k)) as [<-|Hne].
    + rewrite lookup_insert_eq in Hl. injection Hl as <-. left. split; [by left|done].
    + rewrite lookup_insert_ne in Hl by done. right. split; [|done]. split; [congruence|done].
  - intros [[[->|Hin] Hk]|[[Hne Hk] Hl]].
    + right. subst k. split; [done|]. by rewrite lookup_insert_eq.
    + left. done.
    + right. split; [done|]. rewrite lookup_insert_ne by congruence. done.
Qed.

Lemma fileAll_lookup l k info :
  NoDup (Key <$> l) ->
  (fileAll ∅ l !! k = Some info) <-> info ∈ l /\ Key info = k.
Proof.
  intros Hnd. rewrite (fileAll_lookup_gen l Hnd). split; [|by left].
  intros [?|[_ Hl]]; [done|]. by rewrite lookup_empty in Hl.
Qed.


(** *** When [getStructInfo] returns a descriptor *)

Lemma scanFields_success_wellTagged getSI st fs :
  Forall (fun p => forall s, getSI (snd p) = Returns (inl s) ->
                     wellTagged (snd p) = true) fs ->
  forall i fm fl im sinfo,
    scanFields getSI st fs i fm fl im = Returns (inl sinfo) ->
    wellTaggedFields wellTagged st fs (0 <=? im) = true.
Proof.
  induction 1 as [|[field ftype] rest Hhd Htl IH]; intros i fm fl im sinfo; [done|].
  rewrite scanFields_cons. simpl wellTaggedFields.
  destruct (classify st field ftype) as [|key| | | |] eqn:Hcl.
  - apply IH.
  - case_bool_decide; [done|]. apply IH.
  - destruct (0 <=? im); [done|]. destruct ftype as [|n key|]; simpl; try done.
    destruct (type_eqb key typeString); simpl; [|done]. intros Hs.
    apply IH in Hs. by replace (0 <=? Z.of_nat i) with true in Hs
      by (symmetry; apply Z.leb_le; lia).
  - simpl in Hhd.
    destruct (getSI ftype) as [[sub|e]| |] eqn:Hsub; simpl; try done.
    destruct (splice _ _ _ _ _) as [[fm' fl']|e] eqn:Hsp; [|done].
    intros Hs. rewrite (Hhd sub eq_refl). by apply IH in Hs.
  - done.
  - by destruct (parseTag _ _ _).
Qed.

Lemma getStructInfo_success_wellTagged st sinfo :
  getStructInfo st = Returns (inl sinfo) -> wellTagged st = true.
Proof.
  revert sinfo. induction st as [k n|n key _|n fs IH] using type_ind_nested; try done.
  intros sinfo Hs. simpl in Hs.
  by apply (scanFields_success_wellTagged getStructInfo (TStruct n fs) fs IH) in Hs.
Qed.

Lemma clash_NoDup k l : clash k l -> ~ NoDup l.
Proof.
  intros (l1 & l2 & l3 & ->) Hnd.
  apply NoDup_app in Hnd as (_ & _ & Hnd). apply NoDup_cons in Hnd as [Hnotin _].
  apply Hnotin. apply elem_of_app. right. by apply list_elem_of_here.
Qed.

Lemma docKeysFields_inlined st fs f t :
  (f, t) ∈ fs -> classify st f t = InlineStruct ->
  exists l1 l2, docKeysFields docKeys st fs = (l1 ++ docKeys t ++ l2)%list.
Proof.
  induction fs as [|[field ftype] rest IH]; [by intros ?%elem_of_nil|].
  intros [[= <- <-]|Hin]%elem_of_cons Hcl; simpl.
  - rewrite Hcl. by exists [], (docKeysFields docKeys st rest).
  - destruct (IH Hin Hcl) as (l1 & l2 & ->).
    destruct (classify st field ftype) as [|key| | | |].
    + by exists l1, l2.
    + by exists (key :: l1), l2.
    + by exists l1, l2.
    + exists (docKeys ftype ++ l1)%list, l2. by rewrite <- app_assoc.
    + by exists l1, l2.
    + by exists l1, l2.
Qed.

Lemma docKeys_inlined st t :
  inlinedIn st t -> exists l1 l2, docKeys st = (l1 ++ docKeys t ++ l2)%list.
Proof.
  destruct st as [| |n fs]; try done. intros (f & Hin & Hcl).
  by apply (docKeysFields_inlined _ _ f).
Qed.

Lemma dupOwner_NoDup st k o : dupOwner st k o -> ~ NoDup (docKeys st).
Proof.
  induction 1 as [st k Hc|st t k o Hin Hown IH]; [by apply (clash_NoDup k)|].
  destruct (docKeys_inlined _ _ Hin) as (l1 & l2 & ->). intros Hnd.
  apply NoDup_app in Hnd as (_ & _ & Hnd). by apply NoDup_app in Hnd as (? & _).
Qed.

Lemma dupOwner_inlinedStar st k o :
  dupOwner st k o ->
  exists T, inlinedStar st T /\ o = TypeString T /\ clash k (docKeys T).
Proof.
  induction 1 as [st k Hc|st t k o Hin Hown (T & Hstar & Ho & Hc)].
  - exists st. split; [constructor|done].
  - exists T. split; [by eapply inlinedStar_step|done].
Qed.

Lemma getStructInfo_wellTagged_NoDup st :
  wellTagged st = true -> NoDup (docKeys st) ->
  exists sinfo, getStructInfo st = Returns (inl sinfo).
Proof.
  intros Hwt Hnd. pose proof (getStructInfo_spec st) as Hsp.
  destruct (getStructInfo st) as [[sinfo|e]| |]; simpl in Hsp; try congruence.
  - by exists sinfo.
  - destruct e; try congruence. by destruct (dupOwner_NoDup _ _ _ Hsp).
Qed.

(** X1. [getStructInfo] returns a descriptor exactly for the record types
    whose annotations are without flaw and whose keys are pairwise
    different. *)
Theorem getStructInfo_succeeds_iff st :
  (exists sinfo, getStructInfo st = Returns (inl sinfo))
  <-> wellTagged st = true /\ NoDup (docKeys st).
Proof.
  split.
  - intros [sinfo Hs]. split; [by eapply getStructInfo_success_wellTagged|].
    apply getStructInfo_descOK in Hs as [[Hnd _] <-]. done.
  - intros [Hwt Hnd]. by apply getStructInfo_wellTagged_NoDup.
Qed.

(** X2. In a descriptor the list and the map hold the same field
    descriptors, each under its key; the keys are pairwise different, in
    the order of the fields of the type. *)
Theorem getStructInfo_map_list st sinfo :
  getStructInfo st = Returns (inl sinfo) ->
  NoDup (Key <$> FieldsList sinfo)
  /\ Key <$> FieldsList sinfo = docKeys st
  /\ forall k info,
       FieldsMap sinfo !! k = Some info <-> info ∈ FieldsList sinfo /\ Key info = k.
Proof.
  intros Hs. destruct (getStructInfo_descOK _ _ Hs) as [[Hnd _] Hkeys].
  destruct (getStructInfo_desc _ _ Hs) as [Hl Hm].
  split; [done|]. split; [done|]. intros k info.
  rewrite Hm, <- Hl. by apply fileAll_lookup.
Qed.


(** *** The flags and the key of a field *)

Lemma scanFlags_flags st tag flags info inline fi inl' :
  scanFlags st tag flags info inline = Returns (fi, inl') ->
  (OmitEmpty fi = true <-> OmitEmpty info = true \/ "omitempty" ∈ flags)
  /\ (MinSize fi = true <-> MinSize info = true \/ "minsize" ∈ flags)
  /\ (inl' = true <-> inline = true \/ "inline" ∈ flags).
Proof.
  revert info inline. induction flags as [|flag rest IH]; intros info inline; simpl.
  { intros [= <- <-]. rewrite !elem_of_nil. tauto. }
  repeat case_bool_decide; try done; intros Hs; apply IH in Hs as (Ho & Hm & Hi);
    simpl in *; rewrite !elem_of_cons; subst; rewrite Ho, Hm, Hi;
    repeat split; intros; try tauto; try (by left); try (by right; left);
    try (destruct_or?; try tauto; try congruence).
Qed.

Lemma scanFlags_panic st tag flags info inline p :
  scanFlags st tag flags info inline = Panics p ->
  exists flag, p = UnsupportedFlag flag tag (TypeString st)
               /\ flag ∈ flags /\ ~ supportedFlag flag.
Proof.
  revert info inline. induction flags as [|flag rest IH]; intros info inline; simpl; [done|].
  repeat case_bool_decide;
    try (intros (flag' & -> & Hin & Hns)%IH; exists flag';
         split; [done|]; split; [by apply list_elem_of_further|done]).
  intros [= <-]. exists flag. split; [done|]. split; [by apply list_elem_of_here|].
  unfold supportedFlag. tauto.
Qed.

Lemma strings_Split_nonnil s sep : strings_Split s sep <> [].
Proof.
  destruct s as [|c r]; simpl; [done|].
  destruct (Ascii.eqb c sep); [done|]. by destruct (strings_Split r sep).
Qed.

Lemma strings_Split_single s sep x : strings_Split s sep = [x] -> x = s.
Proof.
  revert x. induction s as [|c r IH]; intros x; simpl; [by intros [= <-]|].
  destruct (Ascii.eqb c sep).
  - intros [= _ Hnil]. by apply strings_Split_nonnil in Hnil.
  - destruct (strings_Split r sep) as [|h t] eqn:Hsp;
      [by apply strings_Split_nonnil in Hsp|].
    intros [= <- ->]. by rewrite (IH h eq_refl).
Qed.

Lemma parseTag_flags st tag i fi inl' t :
  parseTag st tag (mkFieldInfo "" i false false []) = Returns (fi, inl', t) ->
  t = hd "" (strings_Split tag ",")
  /\ (OmitEmpty fi = true <-> "omitempty" ∈ tail (strings_Split tag ","))
  /\ (MinSize fi = true <-> "minsize" ∈ tail (strings_Split tag ","))
  /\ (inl' = true <-> "inline" ∈ tail (strings_Split tag ",")).
Proof.
  unfold parseTag. destruct (1 <? _)%nat eqn:Hlen.
  - destruct (scanFlags _ _ _ _ _) as [[fi' inl'']| |] eqn:Hsc; simpl; try done.
    intros [= <- <- <-]. apply scanFlags_flags in Hsc as (Ho & Hm & Hi). simpl in *.
    split; [done|]. rewrite Ho, Hm, Hi. intuition discriminate.
  - intros [= <- <- <-]. apply Nat.ltb_ge in Hlen.
    destruct (strings_Split tag ",") as [|a [|b r]] eqn:Hsp; simpl in *; try lia.
    + by apply strings_Split_nonnil in Hsp.
    + apply strings_Split_single in Hsp as ->. rewrite !elem_of_nil. done.
Qed.

Lemma parseTag_panic st tag info p :
  parseTag st tag info = Panics p ->
  exists flag, p = UnsupportedFlag flag tag (TypeString st)
               /\ flag ∈ tail (strings_Split tag ",") /\ ~ supportedFlag flag.
Proof.
  unfold parseTag. destruct (1 <? _)%nat; [|done].
  destruct (scanFlags _ _ _ _ _) as [[fi' inl'']| |] eqn:Hsc; simpl; try done.
  intros [= <-]. by apply scanFlags_panic in Hsc.
Qed.

Lemma wellTaggedFields_classify st fs seen f t :
  wellTaggedFields wellTagged st fs seen = true -> (f, t) ∈ fs ->
  classify st f t <> BadFlag /\ classify st f t <> BadInline.
Proof.
  revert seen. induction fs as [|[field ftype] rest IH]; intros seen; [by intros _ ?%elem_of_nil|].
  simpl. intros Hwt [[= <- <-]|Hin]%elem_of_cons.
  - by destruct (classify st f t).
  - destruct (classify st field ftype); try done; try (by eapply IH).
    + apply andb_true_iff in Hwt as [_ Hwt]. by eapply IH.
    + apply andb_true_iff in Hwt as [_ Hwt]. by eapply IH.
Qed.

Lemma descFields_plain st fs i j field ftype key :
  fs !! j = Some (field, ftype) -> classify st field ftype = Plain key ->
  plainInfo st (i + j) field ∈ descFields descList st fs i.
Proof.
  revert i j. induction fs as [|[f t] rest IH]; intros i j; [done|].
  destruct j as [|j]; simpl.
  - intros [= -> ->] ->. rewrite Nat.add_0_r. by apply list_elem_of_here.
  - intros Hj Hcl. specialize (IH (S i) j Hj Hcl).
    replace (i + S j)%nat with (S i + j)%nat by lia.
    destruct (classify st f t); try done.
    + by apply list_elem_of_further.
    + apply elem_of_app. by right.
Qed.

(** X3. The descriptor of a field that is neither skipped nor inline:
    it is filed under the key part of the tag, or under the lower-cased
    name of the field when the key part is empty; it holds the ordinal of
    the field and no path; its flags are those of the tag. *)
Theorem getStructInfo_plain_field n fields i field ftype sinfo :
  fields !! i = Some (field, ftype) ->
  testedField field = true ->
  fieldTag field <> "-" ->
  "inline" ∉ tail (strings_Split (fieldTag field) ",") ->
  getStructInfo (TStruct n fields) = Returns (inl sinfo) ->
  exists info,
    info ∈ FieldsList sinfo
    /\ FieldsMap sinfo !! Key info = Some info
    /\ Key info = (let name := hd "" (strings_Split (fieldTag field) ",") in
                   if bool_decide (name <> "") then name else strings_ToLower (Name field))
    /\ Num info = i /\ Inline info = []
    /\ (OmitEmpty info = true <-> "omitempty" ∈ tail (strings_Split (fieldTag field) ","))
    /\ (MinSize info = true <-> "minsize" ∈ tail (strings_Split (fieldTag field) ",")).
Proof.
  intros Hi Htested Hdash Hinline Hs. set (st := TStruct n fields) in *.
  pose proof (getStructInfo_success_wellTagged _ _ Hs) as Hwt.
  destruct (wellTaggedFields_classify st fields false field ftype Hwt) as [Hbf _].
  { by eapply list_elem_of_lookup_2. }
  destruct (getStructInfo_descOK _ _ Hs) as [[Hnd _] _].
  destruct (getStructInfo_desc _ _ Hs) as [Hl Hfm].
  exists (plainInfo st i field).
  assert (Hpriv : negb (String.eqb (PkgPath field) "") && negb (Anonymous field) = false).
  { unfold testedField, exportedField in Htested.
    destruct (String.eqb (PkgPath field) ""), (Anonymous field); done. }
  unfold classify in Hbf. rewrite Hpriv, bool_decide_eq_false_2 in Hbf by done.
  assert (Hcl : classify st field ftype = Plain (Key (plainInfo st i field))
          /\ exists fi t, parseTag st (fieldTag field) (mkFieldInfo "" i false false [])
                          = Returns (fi, false, t)).
  { unfold classify, plainInfo. rewrite Hpriv, bool_decide_eq_false_2 by done.
    rewrite (parseTag_Num _ _ i).
    destruct (parseTag st (fieldTag field) (mkFieldInfo "" 0 false false []))
      as [[[fi inline] t]| |] eqn:Hparse; [|done|done].
    pose proof (parseTag_flags _ _ _ _ _ _ Hparse) as (_ & _ & _ & Hinl).
    destruct inline; [by destruct Hinline; apply Hinl|]. split; [done|]. eauto. }
  destruct Hcl as [Hcl (fi & t & Hparse)].
  assert (Hin : plainInfo st i field ∈ FieldsList sinfo).
  { rewrite Hl. apply (descFields_plain st fields 0 i field ftype _ Hi Hcl). }
  split; [done|]. split; [by rewrite Hfm, <- Hl; apply fileAll_lookup|].
  unfold plainInfo. rewrite Hparse. simpl.
  pose proof (parseTag_flags _ _ _ _ _ _ Hparse) as (-> & Ho & Hm & _).
  apply parseTag_shape in Hparse as (_ & Hn & Hp). done.
Qed.


Lemma wellTaggedFields_inlined st fs seen f t :
  wellTaggedFields wellTagged st fs seen = true -> (f, t) ∈ fs ->
  classify st f t = InlineStruct -> wellTagged t = true.
Proof.
  revert seen. induction fs as [|[field ftype] rest IH]; intros seen;
    [by intros _ ?%elem_of_nil|].
  simpl. intros Hwt [[= <- <-]|Hin]%elem_of_cons Hcl.
  - rewrite Hcl in Hwt. by apply andb_true_iff in Hwt as [? _].
  - destruct (classify st field ftype); try done; try (by eapply IH).
    + apply andb_true_iff in Hwt as [_ Hwt]. by eapply IH.
    + apply andb_true_iff in Hwt as [_ Hwt]. by eapply IH.
Qed.

Lemma descFields_inlined st fs i j f t finfo :
  fs !! j = Some (f, t) -> classify st f t = InlineStruct ->
  finfo ∈ descList t ->
  liftInline (i + j) finfo ∈ descFields descList st fs i.
Proof.
  revert i j. induction fs as [|[field ftype] rest IH]; intros i j; [done|].
  destruct j as [|j]; simpl.
  - intros [= -> ->] -> Hin. rewrite Nat.add_0_r. apply elem_of_app. left.
    by apply list_elem_of_fmap_2.
  - intros Hj Hcl Hin. specialize (IH (S i) j Hj Hcl Hin).
    replace (i + S j)%nat with (S i + j)%nat by lia.
    destruct (classify st field ftype); try done.
    + by apply list_elem_of_further.
    + apply elem_of_app. by right.
Qed.

(** X4. The descriptors of an inlined record reappear in the descriptor
    of the record that inlines it, each under its key and with its flags,
    its path led by the ordinal of the inlined field. *)
Theorem getStructInfo_inlined_field n fields i field ftype sinfo :
  fields !! i = Some (field, ftype) ->
  classify (TStruct n fields) field ftype = InlineStruct ->
  getStructInfo (TStruct n fields) = Returns (inl sinfo) ->
  exists sub,
    getStructInfo ftype = Returns (inl sub)
    /\ forall finfo, finfo ∈ FieldsList sub ->
         liftInline i finfo ∈ FieldsList sinfo
         /\ FieldsMap sinfo !! Key finfo = Some (liftInline i finfo).
Proof.
  intros Hi Hcl Hs. set (st := TStruct n fields) in *.
  assert (Hin : (field, ftype) ∈ fields) by (by eapply list_elem_of_lookup_2).
  pose proof (getStructInfo_success_wellTagged _ _ Hs) as Hwt.
  destruct (getStructInfo_descOK _ _ Hs) as [[Hnd _] Hkeys].
  destruct (getStructInfo_desc _ _ Hs) as [Hl Hfm].
  destruct (getStructInfo_wellTagged_NoDup ftype) as [sub Hsub].
  { by apply (wellTaggedFields_inlined st fields false field). }
  { destruct (docKeys_inlined st ftype) as (l1 & l2 & Heq); [by exists field|].
    rewrite Hkeys, Heq in Hnd. apply NoDup_app in Hnd as (_ & _ & Hnd).
    by apply NoDup_app in Hnd as (? & _). }
  exists sub. split; [done|]. intros finfo Hfinfo.
  assert (Hlift : liftInline i finfo ∈ FieldsList sinfo).
  { rewrite Hl. apply (descFields_inlined st fields 0 i field ftype); [done|done|].
    by rewrite <- (proj1 (getStructInfo_desc _ _ Hsub)). }
  split; [done|]. rewrite Hfm, <- Hl. by apply fileAll_lookup.
Qed.

(** *** The inline map of a descriptor *)

Lemma scanFields_inlineMap getSI st fs :
  forall i fm fl im sinfo,
    scanFields getSI st fs i fm fl im = Returns (inl sinfo) ->
    (InlineMap sinfo = im
     /\ forall j f t, fs !! j = Some (f, t) -> classify st f t <> InlineMapField)
    \/ (im < 0
        /\ exists j f name,
             fs !! j = Some (f, TMap name typeString)
             /\ classify st f (TMap name typeString) = InlineMapField
             /\ InlineMap sinfo = Z.of_nat (i + j)
             /\ forall j' f' t', fs !! j' = Some (f', t') ->
                  classify st f' t' = InlineMapField -> j' = j).
Proof.
  induction fs as [|[field ftype] rest IH]; intros i fm fl im sinfo.
  { simpl. intros [= <-]. left. done. }
  rewrite scanFields_cons.
  assert (Hshift : forall fm fl,
    classify st field ftype <> InlineMapField ->
    scanFields getSI st rest (S i) fm fl im = Returns (inl sinfo) ->
    (InlineMap sinfo = im
     /\ forall j f t, ((field, ftype) :: rest) !! j = Some (f, t) ->
          classify st f t <> InlineMapField)
    \/ (im < 0
        /\ exists j f name,
             ((field, ftype) :: rest) !! j = Some (f, TMap name typeString)
             /\ classify st f (TMap name typeString) = InlineMapField
             /\ InlineMap sinfo = Z.of_nat (i + j)
             /\ forall j' f' t', ((field, ftype) :: rest) !! j' = Some (f', t') ->
                  classify st f' t' = InlineMapField -> j' = j)).
  { intros fm0 fl0 Hne Hs. apply IH in Hs as [[Him Hno]|(Him & j & f & name & Hj & Hcl & Hv & Huniq)].
    - left. split; [done|]. intros [|j] f t; simpl; [by intros [= <- <-]|]. apply Hno.
    - right. split; [done|]. exists (S j), f, name. split; [done|]. split; [done|].
      split; [rewrite Hv; f_equal; lia|].
      intros [|j'] f' t'; simpl; [by intros [= <- <-] ?|].
      intros Hj' Hcl'. f_equal. by eapply Huniq. }
  destruct (classify st field ftype) as [|key| | | |] eqn:Hcl.
  - by apply Hshift.
  - case_bool_decide; [done|]. by apply Hshift.
  - destruct (0 <=? im) eqn:Him; [done|]. apply Z.leb_gt in Him.
    destruct ftype as [|name key|]; simpl; try done.
    destruct (type_eqb key typeString) eqn:Hkey; simpl; [|done].
    apply type_eqb_eq in Hkey as ->. intros Hs.
    apply IH in Hs as [[Hv Hno]|(Hneg & _)]; [|lia].
    right. split; [done|]. exists 0%nat, field, name. split; [done|]. split; [done|].
    split; [rewrite Hv; f_equal; lia|].
    intros [|j'] f' t'; simpl; [done|]. intros Hj' Hcl'. by destruct (Hno _ _ _ Hj').
  - destruct (getSI ftype) as [[sub|e]| |]; simpl; try done.
    destruct (splice _ _ _ _ _) as [[fm' fl']|e]; [|done]. by apply Hshift.
  - done.
  - by destruct (parseTag _ _ _).
Qed.

(** X5. The inline map of a descriptor is decided by the fields of the
    record type itself: without an inline map among them [InlineMap] is
    [-1], whatever the inlined records declare; otherwise it is the
    ordinal of the only such field, whose keys are of type [string]. *)
Theorem getStructInfo_inline_map n fields sinfo :
  getStructInfo (TStruct n fields) = Returns (inl sinfo) ->
  (InlineMap sinfo = -1
   /\ forall j f t, fields !! j = Some (f, t) ->
        classify (TStruct n fields) f t <> InlineMapField)
  \/ (exists j f name,
        fields !! j = Some (f, TMap name typeString)
        /\ classify (TStruct n fields) f (TMap name typeString) = InlineMapField
        /\ InlineMap sinfo = Z.of_nat j
        /\ forall j' f' t', fields !! j' = Some (f', t') ->
             classify (TStruct n fields) f' t' = InlineMapField -> j' = j).
Proof.
  intros Hs. simpl in Hs. apply scanFields_inlineMap in Hs as [?|(_ & ?)]; [by left|by right].
Qed.

(** *** The paths of a descriptor *)

Lemma fieldValue_liftInline name fs i f x info :
  fs !! i = Some (f, x) ->
  fieldValue (VStruct name fs) (liftInline i info) = fieldValue x info.
Proof.
  intros Hi. unfold fieldValue, liftInline. simpl.
  destruct (Inline info) as [|a p] eqn:Hp.
  - simpl. rewrite Hi. done.
  - change (FieldByIndex (VStruct name fs) (i :: a :: p))
      with (y <- Field (VStruct name fs) i ;; FieldByIndex (snd y) (a :: p)).
    simpl Field. rewrite Hi. done.
Qed.

Lemma descFields_fieldValue name fs_all :
  forall fs pre i,
    fs_all = (pre ++ fs)%list -> length pre = i ->
    Forall (fun p => forall info, info ∈ descList (TypeOf (snd p)) ->
                       exists ro x, fieldValue (snd p) info = Returns (ro, x)) fs ->
    forall info,
      info ∈ descFields descList (TypeOf (VStruct name fs_all))
               (map (fun p => (fst p, TypeOf (snd p))) fs) i ->
      exists ro x, fieldValue (VStruct name fs_all) info = Returns (ro, x).
Proof.
  remember (TypeOf (VStruct name fs_all)) as st eqn:Hst. clear Hst.
  induction fs as [|[field x] rest IH]; intros pre i Hall Hlen HF info;
    [by intros ?%elem_of_nil|].
  apply Forall_cons in HF as [Hhd Htl].
  assert (Hi : fs_all !! i = Some (field, x)).
  { rewrite Hall, lookup_app_r by lia. by replace (i - length pre)%nat with 0%nat by lia. }
  assert (Hrest : forall info,
    info ∈ descFields descList st
             (map (fun p => (fst p, TypeOf (snd p))) rest) (S i) ->
    exists ro x, fieldValue (VStruct name fs_all) info = Returns (ro, x)).
  { apply (IH (pre ++ [(field, x)])%list); [by rewrite <- app_assoc| |done].
    rewrite length_app. simpl. lia. }
  simpl map. simpl descFields.
  destruct (classify _ field (TypeOf x)) as [|key| | | |]; try apply Hrest.
  - intros [->|Hin]%elem_of_cons; [|by apply Hrest].
    unfold fieldValue.
    destruct (plainInfo_shape st i field) as [-> ->].
    simpl. rewrite Hi. eauto.
  - intros [Hin|Hin]%elem_of_app; [|by apply Hrest].
    apply list_elem_of_fmap in Hin as (info' & -> & Hin).
    rewrite (fieldValue_liftInline _ _ _ _ _ _ Hi). by apply Hhd.
Qed.

Lemma descList_fieldValue v info :
  info ∈ descList (TypeOf v) -> exists ro x, fieldValue v info = Returns (ro, x).
Proof.
  revert info. induction v as [v Hv|name fs IH] using value_ind_struct; intros info.
  - destruct v; try done; simpl; by intros ?%elem_of_nil.
  - apply (descFields_fieldValue name fs fs [] 0%nat); done.
Qed.

Lemma inlineMap_field v sinfo :
  getStructInfo (TypeOf v) = Returns (inl sinfo) -> 0 <= InlineMap sinfo ->
  exists ro name m,
    Field v (Z.to_nat (InlineMap sinfo)) = Returns (ro, VMap name typeString m).
Proof.
  intros Hs Him. destruct v as [| | | | | | | | | |name fs|]; try done.
  simpl TypeOf in Hs. simpl in Hs.
  apply scanFields_inlineMap in Hs as [[Hm _]|(_ & j & f & mname & Hj & _ & Hm & _)]; [lia|].
  rewrite Hm. cbn [Nat.add]. rewrite Nat2Z.id. rewrite list_lookup_fmap in Hj.
  destruct (fs !! j) as [[f' x]|] eqn:Hfs; [|done]. simpl in Hj.
  injection Hj as -> Hty. cbn [Field]. rewrite Hfs.
  destruct x; try done. injection Hty as -> ->. eauto.
Qed.

(** X6. The ordinals and the paths of a descriptor address fields of
    every value of the type, and [InlineMap] a field that holds a map
    with keys of type [string]: on such a value [structAsUpdate] reads the
    fields without running out of range. *)
Theorem getStructInfo_paths v sinfo :
  getStructInfo (TypeOf v) = Returns (inl sinfo) ->
  (forall info, info ∈ FieldsList sinfo ->
     exists ro x, fieldValue v info = Returns (ro, x))
  /\ (0 <= InlineMap sinfo ->
      exists ro name m,
        Field v (Z.to_nat (InlineMap sinfo)) = Returns (ro, VMap name typeString m)).
Proof.
  intros Hs. split.
  - intros info Hin. apply descList_fieldValue.
    by rewrite <- (proj1 (getStructInfo_desc _ _ Hs)).
  - by apply inlineMap_field.
Qed.


(** *** When [getStructInfo] fails *)

Lemma splice_error st i l fm fl e :
  splice st i l fm fl = inr e -> exists k, e = ErrDuplicatedKey k (TypeString st).
Proof.
  revert fm fl. induction l as [|finfo rest IH]; intros fm fl; simpl; [done|].
  case_bool_decide; [intros [= <-]; eauto|]. apply IH.
Qed.

Lemma classify_BadFlag st f t :
  classify st f t = BadFlag ->
  testedField f = true
  /\ exists p, parseTag st (fieldTag f) (mkFieldInfo "" 0 false false []) = Panics p.
Proof.
  unfold classify, testedField, exportedField.
  destruct (String.eqb (PkgPath f) ""), (Anonymous f); simpl; try done;
    (case_bool_decide; [done|]);
    pose proof (parseTag_never_OutOfFuel st (fieldTag f) (mkFieldInfo "" 0 false false []));
    (destruct (parseTag _ _ _) as [[[fi inline] tag]|p|]; [|by eauto|done]);
    destruct inline; try done; by destruct (TypeKind t).
Qed.

Lemma flawBelow_here st r :
  flawIn st r -> flawBelow st r.
Proof.
  intros Hf. destruct r as [[s|e]|p|]; simpl; try (by exists st; split; [constructor|]).
  destruct e; try done; by exists st; split; [constructor|].
Qed.

Lemma flawBelow_inlined st t r :
  inlinedIn st t -> flawBelow t r -> flawBelow st r.
Proof.
  intros Hin Hf.
  assert (Hlift : (exists T, inlinedStar t T /\ flawIn T r) ->
                  exists T, inlinedStar st T /\ flawIn T r).
  { intros (T & Hstar & HT). exists T. split; [by eapply inlinedStar_step|done]. }
  destruct r as [[s|e]|p|]; simpl in *; try (by apply Hlift).
  destruct e; try done; by apply Hlift.
Qed.

Lemma scanFields_flaw getSI n fs_all :
  forall fs pre i fm fl im,
    fs_all = (pre ++ fs)%list -> length pre = i ->
    Forall (fun p => flawBelow (snd p) (getSI (snd p))) fs ->
    (0 <= im -> exists i0 f0 t0,
        (i0 < i)%nat /\ fs_all !! i0 = Some (f0, t0)
        /\ classify (TStruct n fs_all) f0 t0 = InlineMapField) ->
    flawBelow (TStruct n fs_all) (scanFields getSI (TStruct n fs_all) fs i fm fl im).
Proof.
  set (st := TStruct n fs_all).
  induction fs as [|[field ftype] rest IH]; intros pre i fm fl im Hall Hlen HF Him.
  { simpl. exists st. split; [constructor|done]. }
  apply Forall_cons in HF as [Hhd Htl]. simpl in Hhd.
  assert (Hi : fs_all !! i = Some (field, ftype)).
  { rewrite Hall, lookup_app_r by lia. by replace (i - length pre)%nat with 0%nat by lia. }
  assert (Hnext : forall fm fl im,
    (0 <= im -> exists i0 f0 t0,
        (i0 < S i)%nat /\ fs_all !! i0 = Some (f0, t0)
        /\ classify st f0 t0 = InlineMapField) ->
    flawBelow st (scanFields getSI st rest (S i) fm fl im)).
  { intros fm0 fl0 im0 Him0.
    apply (IH (pre ++ [(field, ftype)])%list); [by rewrite <- app_assoc| |done|done].
    rewrite length_app. simpl. lia. }
  assert (Hkeep : 0 <= im -> exists i0 f0 t0,
        (i0 < S i)%nat /\ fs_all !! i0 = Some (f0, t0)
        /\ classify st f0 t0 = InlineMapField).
  { intros (i0 & f0 & t0 & ? & ? & ?)%Him. exists i0, f0, t0. split; [lia|done]. }
  rewrite scanFields_cons.
  destruct (classify st field ftype) as [|key| | | |] eqn:Hcl.
  - by apply Hnext.
  - case_bool_decide; [done|]. by apply Hnext.
  - destruct (0 <=? im) eqn:Hle.
    + apply Z.leb_le in Hle. destruct (Him Hle) as (i0 & f0 & t0 & Hlt & Hi0 & Hcl0).
      apply flawBelow_here. split; [done|].
      exists i0, i, f0, field, t0, ftype. done.
    + destruct ftype as [k name|name key|name fs']; cbn [TypeKey bind].
      * by apply flawBelow_here.
      * destruct (type_eqb key typeString) eqn:Hkey; cbn [negb].
        -- apply Hnext. intros _. exists i, field, (TMap name key). split; [lia|done].
        -- apply flawBelow_here. split; [done|]. exists i, field, name, key.
           split; [done|]. split; [done|]. intros ->.
           by rewrite (proj2 (type_eqb_eq typeString typeString) eq_refl) in Hkey.
      * by apply flawBelow_here.
  - assert (Hin : inlinedIn st ftype).
    { exists field. split; [by eapply list_elem_of_lookup_2|done]. }
    destruct (getSI ftype) as [[sub|e]|p|] eqn:Hsub; cbn [bind].
    + destruct (splice _ _ _ _ _) as [[fm' fl']|e] eqn:Hsp; [by apply Hnext|].
      by apply splice_error in Hsp as [k ->].
    + by apply (flawBelow_inlined st ftype).
    + by apply (flawBelow_inlined st ftype).
    + by apply (flawBelow_inlined st ftype).
  - apply flawBelow_here. exists i, field, ftype. done.
  - apply classify_BadFlag in Hcl as (Htested & p & Hp). rewrite Hp.
    apply parseTag_panic in Hp as (flag & -> & Hflag & Hns).
    apply flawBelow_here. split; [done|]. exists i, field, ftype. done.
Qed.

Lemma getStructInfo_flawBelow st : flawBelow st (getStructInfo st).
Proof.
  induction st as [k n|n key _|n fs IH] using type_ind_nested;
    try (by apply flawBelow_here).
  apply (scanFields_flaw getStructInfo n fs fs [] 0%nat); done.
Qed.

(** X7. Every failure of [getStructInfo] reports a flaw of the type or of
    a record inlined in it, which its message names: a key resolved
    twice, two inline maps, an inline map whose keys are not of type
    [string], a flag that is not supported, or inline on a field that is
    neither a record nor a map.  It returns no other error. *)
Theorem getStructInfo_failure st :
  exists T, inlinedStar st T /\ flawIn T (getStructInfo st).
Proof.
  pose proof (getStructInfo_flawBelow st) as Hf.
  pose proof (getStructInfo_spec st) as Hsp.
  destruct (getStructInfo st) as [[s|e]|p|]; simpl in *; try done.
  destruct e; try done.
  apply dupOwner_inlinedStar in Hsp as (T & Hstar & -> & Hc). by exists T.
Qed.


(** *** More on [AsUpdate] *)

Lemma type_eqb_typeRaw_struct v : type_eqb (TypeOf v) typeRaw = true -> exists fs, v = VStruct "bson.Raw" fs.
Proof.
  intros Heq%type_eqb_eq. destruct v; try done. simpl in Heq. injection Heq as -> _. eauto.
Qed.

Lemma type_eqb_typeRaw_kind v : ValueKind v <> KStruct -> type_eqb (TypeOf v) typeRaw = false.
Proof.
  intros Hk. destruct (type_eqb (TypeOf v) typeRaw) eqn:Heq; [|done].
  apply type_eqb_typeRaw_struct in Heq as [fs ->]. done.
Qed.

(** X8. [AsUpdate] panics on the nil interface, and on a nil pointer
    whose type has no method [GetBSON]. *)
Theorem AsUpdate_nil fuel name :
  GetBSON (VPtr name None) = None ->
  AsUpdate (S fuel) VInvalid
  = Panics (ReflectPanic "reflect: call of reflect.Value.Interface on zero Value")
  /\ AsUpdate (S (S fuel)) (VPtr name None)
     = Panics (ReflectPanic "reflect: call of reflect.Value.Interface on zero Value").
Proof.
  intros Hget. split; [done|].
  unfold AsUpdate. cbn [resolve Interface IsValid negb packEface bind asGetter].
  rewrite Hget. done.
Qed.

Lemma resolve_addr fuel v :
  type_eqb (TypeOf v) typeRaw = false -> resolve fuel v true = resolve fuel v false.
Proof.
  intros Hraw. destruct fuel as [|fuel]; [done|]. cbn [resolve].
  destruct (Interface false v) as [x| |]; cbn [bind]; try done.
  destruct (asGetter x) as [[getv [err|]]|]; try done.
  case_bool_decide; [done|]. unfold dispatch. by rewrite Hraw.
Qed.

(** X9. A pointer whose type has no method [GetBSON] stands for the
    value it points to, unless that is a [bson.Raw]. *)
Theorem AsUpdate_pointer fuel name v :
  asGetter (VPtr name (Some v)) = None ->
  type_eqb (TypeOf v) typeRaw = false ->
  AsUpdate (S fuel) (VPtr name (Some v)) = AsUpdate fuel v.
Proof.
  intros Hget Hraw. unfold AsUpdate.
  cbn [resolve Interface IsValid negb packEface bind]. rewrite Hget.
  rewrite bool_decide_eq_true_2 by done. by apply resolve_addr.
Qed.

(** X10. A map whose keys are not of kind String is refused, whatever it
    holds. *)
Theorem AsUpdate_key_kind fuel name key m :
  TypeKind key <> KString ->
  asGetter (VMap name key m) = None ->
  AsUpdate (S fuel) (VMap name key m) = Returns (zeroUpdate, Some ErrMapKeyNotString).
Proof.
  intros Hkey Hget. unfold AsUpdate.
  cbn [resolve Interface IsValid negb packEface bind]. rewrite Hget.
  rewrite bool_decide_eq_false_2 by done.
  unfold dispatch, mapAsUpdate. cbn [TypeOf type_eqb TypeKind TypeKey bind].
  by rewrite bool_decide_eq_true_2.
Qed.

Lemma nonStructAsUpdate_viaCodec v :
  IsValid v = true -> nonStructAsUpdate v = viaCodec (packEface v).
Proof.
  intros Hv. unfold nonStructAsUpdate, viaCodec. rewrite (Interface_valid _ Hv). cbn [bind].
  destruct (bson_Marshal _) as [data|err]; [|done].
  destruct (bson_Unmarshal data) as [m|err]; [|done].
  rewrite mapAsUpdate_string_keyed; [|done|].
  - do 3 f_equal. rewrite <- fmap_delete, <- map_fmap_compose. done.
  - intros k x (raw & <- & _)%lookup_fmap_Some. done.
Qed.

(** X11. A value that is neither a record, a map nor a pointer, and has
    no method [GetBSON], goes through the codec: the error of
    [bson.Marshal] is wrapped, that of [bson.Unmarshal] is returned as it
    is, and the elements of the decoded document, but ["_id"], are the
    result. *)
Theorem AsUpdate_codec fuel v :
  IsValid v = true ->
  asGetter (packEface v) = None ->
  ValueKind v <> KPtr -> ValueKind v <> KMap -> ValueKind v <> KStruct ->
  AsUpdate (S fuel) v = viaCodec (packEface v)
  /\ (forall err, bson_Marshal (packEface v) = inr err ->
        exists e, AsUpdate (S fuel) v = Returns (zeroUpdate, Some e)
                  /\ Error e = Some ("cannot marshal: " ++ err)).
Proof.
  intros Hv Hget Hptr Hmap Hstruct.
  assert (Heq : AsUpdate (S fuel) v = viaCodec (packEface v)).
  { unfold AsUpdate. cbn [resolve]. rewrite (Interface_valid _ Hv). cbn [bind].
    rewrite Hget, bool_decide_eq_false_2 by done.
    unfold dispatch. rewrite (type_eqb_typeRaw_kind _ Hstruct).
    rewrite <- (nonStructAsUpdate_viaCodec _ Hv).
    unfold ValueKind in *. by destruct (TypeKind (TypeOf v)). }
  split; [done|]. intros err Herr. rewrite Heq. unfold viaCodec. rewrite Herr.
  by exists (ErrCannotMarshal err).
Qed.

(** X12. A [bson.Raw] goes through the codec when it is passed by a
    pointer; passed by value, it makes [AsUpdate] panic. *)
Theorem AsUpdate_raw fuel name v :
  type_eqb (TypeOf v) typeRaw = true ->
  asGetter v = None ->
  asGetter (VPtr name (Some v)) = None ->
  AsUpdate (S fuel) v = Panics (ReflectPanic "reflect.Value.Addr of unaddressable value")
  /\ AsUpdate (S (S fuel)) (VPtr name (Some v)) = viaCodec (Addr v).
Proof.
  intros Hraw Hget Hptr. destruct (type_eqb_typeRaw_struct _ Hraw) as [fs ->].
  assert (Hres : forall addr,
    resolve (S fuel) (VStruct "bson.Raw" fs) addr = dispatch (VStruct "bson.Raw" fs) addr).
  { intros addr. cbn [resolve Interface IsValid negb packEface bind]. rewrite Hget.
    by rewrite bool_decide_eq_false_2. }
  split.
  - unfold AsUpdate. rewrite Hres. unfold dispatch. by rewrite Hraw.
  - unfold AsUpdate.
    change (resolve (S (S fuel)) (VPtr name (Some (VStruct "bson.Raw" fs))) false)
      with (match asGetter (VPtr name (Some (VStruct "bson.Raw" fs))) with
            | Some (getv, Some err) => Returns (zeroUpdate, Some (ErrGetBSONFailed err))
            | Some (getv, None) => resolve (S fuel) getv false
            | None => resolve (S fuel) (VStruct "bson.Raw" fs) true
            end).
    rewrite Hptr, Hres. unfold dispatch. rewrite Hraw. by rewrite nonStructAsUpdate_viaCodec.
Qed.

Lemma resolve_result (P : Update * option error -> Prop) :
  (forall err, P (zeroUpdate, Some (ErrGetBSONFailed err))) ->
  (forall v addr r, dispatch v addr = Returns r -> P r) ->
  forall fuel v addr r, resolve fuel v addr = Returns r -> P r.
Proof.
  intros Herr Hd. induction fuel as [|fuel IH]; intros v addr r; [done|].
  cbn [resolve]. destruct (Interface false v) as [x| |]; cbn [bind]; try done.
  destruct (asGetter x) as [[getv [err|]]|].
  - intros [= <-]. apply Herr.
  - apply IH.
  - case_bool_decide; [apply IH|apply Hd].
Qed.

Lemma fieldsLoop_unset_nil v l set0 unset0 set unset :
  fieldsLoop v l set0 unset0 = Returns (set, unset) ->
  (forall k y, unset0 !! k = Some y -> y = VInvalid) ->
  forall k y, unset !! k = Some y -> y = VInvalid.
Proof.
  revert set0 unset0. induction l as [|info rest IH]; intros set0 unset0; cbn [fieldsLoop].
  { by intros [= <- <-]. }
  case_bool_decide; [apply IH|].
  destruct (fieldValue v info) as [[ro x]| |]; cbn [bind]; try done.
  destruct (if OmitEmpty info then isZero _ _ else Returns false) as [z| |];
    cbn [bind]; try done.
  destruct z.
  - intros Hloop Hnil. apply (IH _ _ Hloop). intros k y.
    destruct (decide (k = Key info)) as [->|Hne].
    + rewrite lookup_insert_eq. by intros [= <-].
    + rewrite lookup_insert_ne by done. apply Hnil.
  - destruct (Interface _ _) as [y| |]; cbn [bind]; try done. apply IH.
Qed.

(** X13. The values in [Unset] are all nil. *)
Theorem AsUpdate_unset_nil fuel x u e unset :
  AsUpdate fuel x = Returns (u, e) ->
  Unset_ u = Some unset ->
  map_Forall (fun _ y => y = VInvalid) unset.
Proof.
  intros Hres Hu k y Hk.
  refine (resolve_result
            (fun r => forall unset k y, Unset_ (fst r) = Some unset ->
                                        unset !! k = Some y -> y = VInvalid)
            _ _ fuel x false (u, e) Hres unset k y Hu Hk); clear.
  - done.
  - intros v addr r Hd.
    assert (Hmap : forall w r', mapAsUpdate w = Returns r' ->
      forall unset k y, Unset_ (fst r') = Some unset -> unset !! k = Some y -> y = VInvalid).
    { intros w r'. unfold mapAsUpdate.
      destruct (TypeKey _) as [key| |]; cbn [bind]; try done.
      case_bool_decide; [by intros [= <-]|].
      destruct (MapKeys w) as [keys| |]; cbn [bind]; try done.
      destruct (mapLoop _ _ _) as [set| |]; cbn [bind]; try done.
      intros [= <-] unset k y [= <-]. by rewrite lookup_empty. }
    assert (Hnon : forall w r', nonStructAsUpdate w = Returns r' ->
      forall unset k y, Unset_ (fst r') = Some unset -> unset !! k = Some y -> y = VInvalid).
    { intros w r'. unfold nonStructAsUpdate.
      destruct (Interface _ _) as [x| |]; cbn [bind]; try done.
      destruct (bson_Marshal x) as [data|err]; [|by intros [= <-]].
      destruct (bson_Unmarshal data) as [m|err]; [|by intros [= <-]]. apply Hmap. }
    revert Hd. unfold dispatch. destruct (type_eqb _ _).
    { destruct addr; [apply Hnon|done]. }
    destruct (TypeKind _); try apply Hnon; [apply Hmap|].
    unfold structAsUpdate. destruct (getStructInfo _) as [[sinfo|err]| |]; cbn [bind];
      try done; [|by intros [= <-]].
    destruct (inlineSet v sinfo) as [[set|err]| |]; cbn [bind]; try done;
      [|by intros [= <-]].
    destruct (fieldsLoop _ _ _ _) as [[set' unset']| |] eqn:Hloop; cbn [bind]; try done.
    intros [= <-] unset k y [= <-].
    apply (fieldsLoop_unset_nil _ _ _ _ _ _ Hloop). intros k' y'. by rewrite lookup_empty.
Qed.

(** X14. The map [Set] of a result, handed to [AsUpdate] as a document,
    comes back as it is. *)
Theorem AsUpdate_idempotent fuel fuel' x u set :
  AsUpdate fuel x = Returns (u, None) ->
  Set_ u = Some set ->
  asGetter (asDocument set) = None ->
  AsUpdate (S fuel') (asDocument set) = Returns (mkUpdate (Some set) (Some ∅), None).
Proof.
  intros Hres Hset Hget. apply resolve_shaped in Hres as (set' & unset & -> & Hid & _).
  injection Hset as ->.
  rewrite AsUpdate_plainMap.
  - unfold asDocument. rewrite mapAsUpdate_string_keyed; [|done|].
    + rewrite <- fmap_delete, <- map_fmap_compose, delete_id by done.
      replace (_ <$> set) with set; [done|].
      rewrite <- (map_fmap_id set) at 1. apply map_fmap_ext. intros k y _.
      simpl. by destruct y.
    + intros k y (z & <- & _)%lookup_fmap_Some. done.
  - eexists _, _, _. split; [done|]. split; [done|]. split; [done|].
    intros k y (z & <- & _)%lookup_fmap_Some. done.
Qed.

(** X15. A field that is read through an unexported embedded field never
    gets into [Set]: when [AsUpdate] returns, the field was omitted as
    empty. *)
Theorem AsUpdate_unexported fuel R u sinfo info x :
  plainRecord R ->
  AsUpdate (S fuel) R = Returns (u, None) ->
  getStructInfo (TypeOf R) = Returns (inl sinfo) ->
  info ∈ FieldsList sinfo -> Key info <> "_id" ->
  fieldValue R info = Returns (true, x) ->
  OmitEmpty info = true /\ isZero true x = Returns true
  /\ exists unset, Unset_ u = Some unset /\ unset !! Key info = Some VInvalid.
Proof.
  intros HR Hres Hs Hin Hid Hfv. rewrite (AsUpdate_plainRecord _ _ HR) in Hres.
  apply structAsUpdate_success in Hres as (sinfo' & set & unset & Hs' & _ & _ & Hloop & ->).
  rewrite Hs in Hs'. injection Hs' as <-.
  destruct (getStructInfo_descOK _ _ Hs) as [[Hnd _] _].
  destruct (fieldsLoop_placed _ _ _ _ _ _ Hnd Hloop info Hin Hid) as (ro & x' & Hfv' & Hcase).
  rewrite Hfv in Hfv'. injection Hfv' as <- <-.
  destruct Hcase as [(Ho & Hz & Hu & _)|(_ & Hro & _)]; [|done].
  split; [done|]. split; [done|]. by exists unset.
Qed.

(** X16. [AsUpdate] succeeds on a record whose type is annotated without
    flaw and has pairwise different keys, whose fields are exported and
    hold valid values, and whose inline map has no key of the record. *)
Theorem AsUpdate_succeeds fuel R :
  plainRecord R ->
  wellTagged (TypeOf R) = true -> NoDup (docKeys (TypeOf R)) ->
  readable R = true ->
  (forall sinfo k, getStructInfo (TypeOf R) = Returns (inl sinfo) ->
     is_Some (inlineMapOf R sinfo !! k) -> k ∉ docKeys (TypeOf R)) ->
  exists set unset, AsUpdate (S fuel) R = Returns (mkUpdate (Some set) (Some unset), None).
Proof.
  intros HR Hwt Hnd Hread Hinline. rewrite (AsUpdate_plainRecord _ _ HR).
  destruct (structAsUpdate_returns R Hwt Hread) as [[u [e|]] Hr].
  - exfalso. revert Hr. unfold structAsUpdate.
    destruct (getStructInfo_wellTagged_NoDup _ Hwt Hnd) as [sinfo Hs].
    rewrite Hs. cbn [bind].
    pose proof (inlineSet_spec R sinfo) as Hsp.
    destruct (inlineSet R sinfo) as [[set|err]| |]; cbn [bind]; try done.
    + by destruct (fieldsLoop _ _ _ _).
    + destruct Hsp as (ks & -> & Hks & Hfm). intros _.
      apply (Hinline sinfo ks Hs Hks).
      destruct (getStructInfo_descOK _ _ Hs) as [[_ Hdom] <-]. by apply Hdom.
  - pose proof (structAsUpdate_shaped _ _ Hr) as (set & unset & -> & _). eauto.
Qed.


(** *** The table [structMap] *)

Lemma type_eqb_refl t : type_eqb t t = true.
Proof. by apply type_eqb_eq. Qed.

(** The table is left as it is. *)
Ltac table_unchanged :=
  cbn [fst snd]; split; [done|]; split; [done|]; by intros ? ?.

Lemma scanFieldsCached_spec st fs :
  Forall (fun p => forall c, coherent c ->
            fst (getStructInfoCached (snd p) c) = getStructInfo (snd p)
            /\ coherent (snd (getStructInfoCached (snd p) c))
            /\ extends c (snd (getStructInfoCached (snd p) c))) fs ->
  forall i fm fl im c, coherent c ->
    fst (scanFieldsCached getStructInfoCached st fs i fm fl im c)
    = scanFields getStructInfo st fs i fm fl im
    /\ coherent (snd (scanFieldsCached getStructInfoCached st fs i fm fl im c))
    /\ extends c (snd (scanFieldsCached getStructInfoCached st fs i fm fl im c)).
Proof.
  induction 1 as [|[field ftype] rest Hhd Htl IH]; intros i fm fl im c Hc.
  { table_unchanged. }
  cbn [scanFieldsCached scanFields].
  destruct (negb (String.eqb (PkgPath field) "") && negb (Anonymous field)); [by apply IH|].
  case_bool_decide; [by apply IH|].
  destruct (parseTag st (fieldTag field) (mkFieldInfo "" i false false []))
    as [[[info inline] tag]| |]; cbn [bind]; try table_unchanged.
  destruct inline.
  - destruct (TypeKind ftype); try table_unchanged.
    + destruct (0 <=? im); [table_unchanged|].
      destruct (TypeKey ftype) as [key| |]; cbn [bind]; try table_unchanged.
      destruct (negb (type_eqb key typeString)); [table_unchanged|]. by apply IH.
    + simpl in Hhd. destruct (Hhd c Hc) as (Hr & Hc' & Hext).
      destruct (getStructInfoCached ftype c) as [r c']. cbn [fst snd] in Hr, Hc', Hext.
      rewrite <- Hr. destruct r as [[sinfo|e]| |]; cbn [bind fst snd]; try done.
      destruct (splice _ _ _ _ _) as [[fm' fl']|e]; [|done].
      destruct (IH (S i) fm' fl' im c' Hc') as (? & ? & Hext').
      split; [done|]. split; [done|]. intros t s Ht. by apply Hext', Hext.
  - case_bool_decide; [table_unchanged|]. by apply IH.
Qed.

(** X17. The table [structMap] does not change what [getStructInfo]
    returns: on a table that holds descriptors computed by
    [getStructInfo], a call returns what the computation from the type
    returns; the table keeps its entries and stays such a table; a
    descriptor that is returned is in the table afterwards, so that the
    next call for the type replays it and leaves the table as it is. *)
Theorem getStructInfoCached_transparent st structMap :
  coherent structMap ->
  fst (getStructInfoCached st structMap) = getStructInfo st
  /\ coherent (snd (getStructInfoCached st structMap))
  /\ extends structMap (snd (getStructInfoCached st structMap))
  /\ forall sinfo, getStructInfo st = Returns (inl sinfo) ->
       getStructInfoCached st (snd (getStructInfoCached st structMap))
       = (Returns (inl sinfo), snd (getStructInfoCached st structMap)).
Proof.
  intros Hc.
  assert (Hmain : forall st c, coherent c ->
    fst (getStructInfoCached st c) = getStructInfo st
    /\ coherent (snd (getStructInfoCached st c))
    /\ extends c (snd (getStructInfoCached st c))
    /\ forall sinfo, getStructInfo st = Returns (inl sinfo) ->
         structMap_lookup (snd (getStructInfoCached st c)) st = Some sinfo).
  { clear. intros st.
    induction st as [k n|n key _|n fs IH] using type_ind_nested; intros c Hc.
    - cbn [getStructInfoCached].
      destruct (structMap_lookup c (TBasic k n)) as [s|] eqn:Hl; [by apply Hc in Hl|].
      cbn [fst snd]. split; [done|]. split; [done|]. split; [by intros ? ?|done].
    - cbn [getStructInfoCached].
      destruct (structMap_lookup c (TMap n key)) as [s|] eqn:Hl; [by apply Hc in Hl|].
      cbn [fst snd]. split; [done|]. split; [done|]. split; [by intros ? ?|done].
    - cbn [getStructInfoCached].
      destruct (structMap_lookup c (TStruct n fs)) as [s|] eqn:Hl.
      { pose proof (Hc _ _ Hl) as Hs. cbn [fst snd]. split; [done|]. split; [done|].
        split; [by intros ? ?|]. intros sinfo. rewrite Hs. by intros [= <-]. }
      destruct (scanFieldsCached_spec (TStruct n fs) fs) with (i := 0%nat) (fm := (∅ : gmap string fieldInfo))
        (fl := @nil fieldInfo) (im := -1) (c := c) as (Hr & Hc' & Hext); [|done|].
      { eapply Forall_impl; [apply IH|]. intros p Hp c0 Hc0.
        destruct (Hp c0 Hc0) as (? & ? & ? & _). done. }
      destruct (scanFieldsCached _ _ _ _ _ _ _ _) as [r c']. cbn [fst snd] in Hr, Hc', Hext.
      change (getStructInfo (TStruct n fs))
        with (scanFields getStructInfo (TStruct n fs) fs 0 ∅ [] (-1)).
      rewrite <- Hr.
      destruct r as [[sinfo|e]| |]; cbn [fst snd];
        try (split; [done|]; split; [done|]; split; [done|]; done).
      split; [done|]. split; [|split].
      + intros t s. cbn [structMap_lookup].
        destruct (type_eqb t (TStruct n fs)) eqn:Ht; [|apply Hc'].
        apply type_eqb_eq in Ht as ->. intros [= <-].
        change (getStructInfo (TStruct n fs))
          with (scanFields getStructInfo (TStruct n fs) fs 0 ∅ [] (-1)).
        by rewrite <- Hr.
      + intros t s Ht. cbn [structMap_lookup].
        destruct (type_eqb t (TStruct n fs)) eqn:Heq; [|by apply Hext].
        apply type_eqb_eq in Heq as ->. congruence.
      + intros s [= <-]. cbn [structMap_lookup]. by rewrite type_eqb_refl. }
  destruct (Hmain st structMap Hc) as (Hr & Hc' & Hext & Hstored).
  split; [done|]. split; [done|]. split; [done|].
  intros sinfo Hs. apply Hstored in Hs.
  generalize dependent (snd (getStructInfoCached st structMap)). intros c' _ _ _ Hs.
  destruct st; cbn [getStructInfoCached]; by rewrite Hs.
Qed.


(** *** The zero-value test and the private fields *)

(** X18. [isZero] does not look at the private fields of a record: two
    records of a type other than [time.Time] that differ in private
    fields only get the same answer. *)
Theorem isZero_private_fields ro name fs fs' :
  Forall2 (fun p q => fst p = fst q /\ (testedField (fst p) = true -> snd p = snd q))
    fs fs' ->
  type_eqb (TypeOf (VStruct name fs)) typeTime = false ->
  type_eqb (TypeOf (VStruct name fs')) typeTime = false ->
  isZero ro (VStruct name fs) = isZero ro (VStruct name fs').
Proof.
  intros Hall Ht Ht'. cbn [isZero]. rewrite Ht, Ht'. clear Ht Ht'.
  induction Hall as [|[f x] [f' x'] rest rest' [Hf Hx] _ IH]; [done|].
  simpl in Hf, Hx. subst f'. cbn [isZeroFields].
  destruct (negb (String.eqb (PkgPath f) "") && negb (Anonymous f)) eqn:Hpriv; [done|].
  rewrite <- Hx, IH; [done|].
  unfold testedField, exportedField.
  by destruct (String.eqb (PkgPath f) ""), (Anonymous f).
Qed.


(** *** The keys of [Unset] *)

Lemma fieldsLoop_unset_from v l set0 unset0 set unset :
  fieldsLoop v l set0 unset0 = Returns (set, unset) ->
  forall k, is_Some (unset !! k) ->
    is_Some (unset0 !! k)
    \/ exists info ro x,
         info ∈ l /\ Key info = k /\ k <> "_id" /\ OmitEmpty info = true
         /\ fieldValue v info = Returns (ro, x) /\ isZero ro x = Returns true.
Proof.
  revert set0 unset0. induction l as [|info rest IH]; intros set0 unset0; cbn [fieldsLoop].
  { intros [= <- <-] k Hk. by left. }
  assert (Hrest : forall set1 unset1,
    fieldsLoop v rest set1 unset1 = Returns (set, unset) ->
    forall k, is_Some (unset !! k) ->
      is_Some (unset1 !! k)
      \/ exists info' ro x,
           info' ∈ info :: rest /\ Key info' = k /\ k <> "_id" /\ OmitEmpty info' = true
           /\ fieldValue v info' = Returns (ro, x) /\ isZero ro x = Returns true).
  { intros set1 unset1 Hloop k Hk.
    destruct (IH _ _ Hloop k Hk) as [?|(info' & ro & x & Hin & ?)]; [by left|].
    right. exists info', ro, x. split; [by apply list_elem_of_further|done]. }
  case_bool_decide as Hid; [apply Hrest|].
  destruct (fieldValue v info) as [[ro x]| |] eqn:Hfv; cbn [bind]; try done.
  destruct (OmitEmpty info) eqn:Homit; cbn [bind fst snd].
  - destruct (isZero ro x) as [z| |] eqn:Hz; cbn [bind]; try done.
    destruct z.
    + intros Hloop k Hk. destruct (Hrest _ _ Hloop k Hk) as [Hin|?]; [|by right].
      destruct (decide (k = Key info)) as [->|Hne].
      * right. exists info, ro, x. split; [by apply list_elem_of_here|done].
      * rewrite lookup_insert_ne in Hin by done. by left.
    + destruct (Interface ro x) as [y| |]; cbn [bind]; try done. apply Hrest.
  - destruct (Interface ro x) as [y| |]; cbn [bind]; try done. apply Hrest.
Qed.

(** X19. The keys of [Unset] are the keys, other than ["_id"], of the
    fields that are marked omitempty and hold a zero value. *)
Theorem AsUpdate_unset_keys fuel R u sinfo unset :
  plainRecord R ->
  AsUpdate (S fuel) R = Returns (u, None) ->
  getStructInfo (TypeOf R) = Returns (inl sinfo) ->
  Unset_ u = Some unset ->
  forall k,
    is_Some (unset !! k) <->
    exists info ro x,
      info ∈ FieldsList sinfo /\ Key info = k /\ k <> "_id" /\ OmitEmpty info = true
      /\ fieldValue R info = Returns (ro, x) /\ isZero ro x = Returns true.
Proof.
  intros HR Hres Hs Hu k. rewrite (AsUpdate_plainRecord _ _ HR) in Hres.
  apply structAsUpdate_success in Hres as (sinfo' & set & unset' & Hs' & _ & _ & Hloop & ->).
  rewrite Hs in Hs'. injection Hs' as <-. injection Hu as ->. split.
  - intros Hk. destruct (fieldsLoop_unset_from _ _ _ _ _ _ Hloop k Hk) as [Hin|?]; [|done].
    rewrite lookup_empty in Hin. by destruct Hin.
  - intros (info & ro & x & Hin & <- & Hid & Homit & Hfv & Hz).
    destruct (getStructInfo_descOK _ _ Hs) as [[Hnd _] _].
    destruct (fieldsLoop_placed _ _ _ _ _ _ Hnd Hloop info Hin Hid)
      as (ro' & x' & Hfv' & Hcase).
    rewrite Hfv in Hfv'. injection Hfv' as <- <-.
    destruct Hcase as [(_ & _ & Hun & _)|(Hnot & _)]; [by rewrite Hun|].
    by destruct Hnot.
Qed.

(** *** How [AsUpdate] can panic on a record *)

Lemma Interface_interfacePanic ro v : interfacePanic (Interface ro v).
Proof. unfold Interface. destruct (negb (IsValid v)); [by left|]. destruct ro; [by right|done]. Qed.

Lemma isZero_interfacePanic ro v : interfacePanic (isZero ro v).
Proof.
  revert ro. induction v as [v Hv|name fs IH] using value_ind_struct; intros ro.
  - by destruct v.
  - cbn [isZero]. destruct (type_eqb _ _).
    + pose proof (Interface_interfacePanic ro (VStruct name fs)) as Hi.
      by destruct (Interface ro (VStruct name fs)).
    + induction IH as [|[f x] rest Hx _ IHrest]; [done|]. cbn [isZeroFields].
      destruct (_ && _); [done|]. simpl in Hx.
      specialize (Hx (negb (String.eqb (PkgPath f) ""))).
      destruct (isZero _ x) as [z| |]; cbn [bind]; try done. by destruct z.
Qed.

Lemma inlineLoop_interfacePanic sinfo ro m keys set :
  interfacePanic (inlineLoop sinfo ro m keys set).
Proof.
  revert set. induction keys as [|ks rest IH]; intros set; cbn [inlineLoop]; [done|].
  case_bool_decide; [done|]. case_bool_decide; [|apply IH].
  pose proof (Interface_interfacePanic ro (MapIndex m ks)) as Hi.
  destruct (Interface ro (MapIndex m ks)); cbn [bind]; first [done|apply IH].
Qed.

Lemma fieldsLoop_interfacePanic v l set unset :
  (forall info, info ∈ l -> exists ro x, fieldValue v info = Returns (ro, x)) ->
  interfacePanic (fieldsLoop v l set unset).
Proof.
  revert set unset. induction l as [|info rest IH]; intros set unset Hl; cbn [fieldsLoop];
    [done|].
  assert (Hrest : forall set unset, interfacePanic (fieldsLoop v rest set unset)).
  { intros set1 unset1. apply IH. intros info' Hin. by apply Hl, list_elem_of_further. }
  case_bool_decide; [apply Hrest|].
  destruct (Hl info) as (ro & x & ->); [by apply list_elem_of_here|]. cbn [bind fst snd].
  assert (Hset : interfacePanic
            (y <- Interface ro x ;; fieldsLoop v rest (<[Key info := y]> set) unset)).
  { pose proof (Interface_interfacePanic ro x) as Hi.
    destruct (Interface ro x); cbn [bind]; first [done|apply Hrest]. }
  destruct (OmitEmpty info); cbn [bind]; [|done].
  pose proof (isZero_interfacePanic ro x) as Hz.
  destruct (isZero ro x) as [z| |]; cbn [bind]; try done. destruct z; [apply Hrest|done].
Qed.

(** X20. On a record whose type has a descriptor, [AsUpdate] comes to an
    end, and when it panics it does so in [Value.Interface], on a value
    read through an unexported field or on a nil value: it never reads a
    field out of range, nor the keys or the length of a field that is not
    a map. *)
Theorem AsUpdate_panics fuel R sinfo :
  plainRecord R ->
  getStructInfo (TypeOf R) = Returns (inl sinfo) ->
  interfacePanic (AsUpdate (S fuel) R).
Proof.
  intros HR Hs. rewrite (AsUpdate_plainRecord _ _ HR).
  assert (Hpaths : forall info, info ∈ FieldsList sinfo ->
            exists ro x, fieldValue R info = Returns (ro, x)).
  { intros info Hin. apply descList_fieldValue.
    by rewrite <- (proj1 (getStructInfo_desc _ _ Hs)). }
  pose proof (inlineMap_field R sinfo Hs) as Hmap.
  unfold structAsUpdate. rewrite Hs. cbn [bind].
  assert (Hin : interfacePanic (inlineSet R sinfo)).
  { unfold inlineSet. destruct (0 <=? InlineMap sinfo) eqn:Him; [|done].
    apply Z.leb_le in Him. destruct (Hmap Him) as (ro & name & m & ->). cbn [bind Len snd fst].
    destruct (negb _); [|done]. cbn [MapKeys bind]. apply inlineLoop_interfacePanic. }
  destruct (inlineSet R sinfo) as [[set|err]| |]; cbn [bind]; try done.
  pose proof (fieldsLoop_interfacePanic R (FieldsList sinfo) set ∅ Hpaths) as Hloop.
  by destruct (fieldsLoop _ _ _ _).
Qed.

(** *** A hook that returns its receiver *)

(** X21. When the method [GetBSON] of a value returns the value itself,
    the loop of [AsUpdate] does not end. *)
Theorem AsUpdate_hook_loop fuel x :
  IsValid x = true -> packEface x = x ->
  asGetter x = Some (x, None) ->
  AsUpdate fuel x = OutOfFuel.
Proof.
  intros Hv Hx Hget. unfold AsUpdate. induction fuel as [|fuel IH]; [done|].
  cbn [resolve]. rewrite (Interface_valid _ Hv), Hx. cbn [bind]. by rewrite Hget.
Qed.

(** *** The error of a key resolved twice *)









End MoreProperties.

(** *** The helper [wrapInDoc] *)

Lemma length_list_ascii s : length (list_ascii_of_string s) = String.length s.
Proof. induction s as [|c s IH]; simpl; [done|by rewrite IH]. Qed.

Lemma toByte_value v : Z.of_N (N_of_ascii (toByte v)) = v mod 2 ^ 8.
Proof.
  unfold toByte. assert (0 <= v mod 2 ^ 8 < 2 ^ 8) as Hb by (apply Z.mod_pos_bound; lia).
  rewrite N_ascii_embedding; [lia|]. change (2 ^ 8) with 256 in *. lia.
Qed.

Lemma littleEndian_bytes v :
  0 <= v < 2 ^ 32 ->
  littleEndian (toByte v) (toByte (Z.shiftr v 8)) (toByte (Z.shiftr v 16))
    (toByte (Z.shiftr v 24)) = v.
Proof.
  intros Hv. unfold littleEndian. rewrite !toByte_value, !Z.shiftr_div_pow2 by lia.
  replace (v / 2 ^ 16) with (v / 2 ^ 8 / 2 ^ 8) by (by rewrite Z.div_div by lia).
  replace (v / 2 ^ 24) with (v / 2 ^ 8 / 2 ^ 8 / 2 ^ 8) by (by rewrite !Z.div_div by lia).
  change (2 ^ 8) with 256. change (2 ^ 16) with 65536. change (2 ^ 24) with 16777216.
  change (2 ^ 32) with 4294967296 in Hv.
  Z.to_euclidean_division_equations. lia.
Qed.

Lemma copyAt_header b0 b1 b2 b3 n data :
  length data = n ->
  copyAt 4 (b0 :: b1 :: b2 :: b3 :: replicate (S n) zero) data
  = (b0 :: b1 :: b2 :: b3 :: data ++ [zero])%list.
Proof.
  intros <-. unfold copyAt. cbn [length]. rewrite length_replicate.
  replace (S (S (S (S (S (length data))))) - 4)%nat with (S (length data)) by lia.
  rewrite Nat.min_r by lia.
  change (take 4 (b0 :: b1 :: b2 :: b3 :: replicate (S (length data)) zero))
    with (b0 :: b1 :: b2 :: b3 :: take 0 (replicate (S (length data)) zero)).
  change (drop (4 + length data) (b0 :: b1 :: b2 :: b3 :: replicate (S (length data)) zero))
    with (drop (length data) (replicate (S (length data)) zero)).
  rewrite take_0, firstn_all, drop_replicate.
  by replace (S (length data) - length data)%nat with 1%nat by lia.
Qed.

(** X22. [wrapInDoc(data)] is [data] between four bytes and a zero byte;
    the four bytes, the lowest first, are the length of the result
    modulo [2^32]. *)
Theorem wrapInDoc_spec data :
  exists b0 b1 b2 b3,
    wrapInDoc data
    = Some (String b0 (String b1 (String b2 (String b3 (data ++ String zero "")))))
    /\ littleEndian b0 b1 b2 b3 = (Z.of_nat (String.length data) + 5) mod 2 ^ 32.
Proof.
  unfold wrapInDoc. set (v := uint32 _).
  exists (toByte v), (toByte (Z.shiftr v 8)), (toByte (Z.shiftr v 16)),
    (toByte (Z.shiftr v 24)).
  split.
  - clearbody v.
    replace (String.length data + 5)%nat with (S (S (S (S (S (String.length data))))))
      by lia.
    unfold PutUint32. cbn [replicate length Nat.ltb Nat.leb insert list_insert].
    change (zero :: replicate (String.length data) zero)
      with (replicate (S (String.length data)) zero).
    rewrite copyAt_header by apply length_list_ascii.
    cbn [string_of_list_ascii]. do 5 f_equal.
    induction data as [|c data IH]; [done|]. simpl. by rewrite IH.
  - rewrite littleEndian_bytes.
    + unfold v, uint32. rewrite length_replicate. f_equal. lia.
    + apply Z.mod_pos_bound. lia.
Qed.

(* ================================================================== *)
(** ** The scenarios of the test suite *)

#[local] Existing Instance Suite.collaborators.
Import Suite.

Lemma keys_partition_counterexample : ~ keys_partition_as_stated recInline.
Proof.
  intros Hc.
  destruct (Hc 1%nat (mkUpdate (Some {["a" := int 1; "b" := int 2]}) (Some ∅)))
    as (sinfo & set & unset & Hsi & Hset & Hunset & _ & Heq).
  { vm_compute. reflexivity. }
  cbn [Set_ Unset_] in Hset, Hunset. injection Hset as <-. injection Hunset as <-.
  assert (Hb : "b" ∈ dom (FieldsMap sinfo) ∖ {["_id"]}).
  { rewrite <- Heq. apply elem_of_union_l, elem_of_dom. by eexists. }
  apply elem_of_difference in Hb as [[i Hi]%elem_of_dom _].
  vm_compute in Hsi. injection Hsi as <-. vm_compute in Hi. discriminate.
Qed.

Lemma AsUpdate_record_keys_witness :
  plainRecord recInline
  /\ exists sinfo set unset,
       getStructInfo (TypeOf recInline) = Returns (inl sinfo)
       /\ Set_ (mkUpdate (Some {["a" := int 1; "b" := int 2]}) (Some ∅)) = Some set
       /\ Unset_ (mkUpdate (Some {["a" := int 1; "b" := int 2]}) (Some ∅)) = Some unset
       /\ dom set ## dom unset
       /\ dom set ∪ dom unset
          = (dom (FieldsMap sinfo) ∪ dom (inlineMapOf recInline sinfo)) ∖ {["_id"]}.
Proof.
  assert (HR : plainRecord recInline) by (repeat split).
  split; [exact HR|].
  apply (AsUpdate_record_keys 0 recInline _ HR). vm_compute. reflexivity.
Defined.

Lemma AsUpdate_field_placement_witness :
  plainRecord recOmit
  /\ exists sinfo set unset,
    getStructInfo (TypeOf recOmit) = Returns (inl sinfo)
    /\ Set_ (mkUpdate (Some {["y" := str "hello"]}) (Some {["x" := VInvalid]})) = Some set
    /\ Unset_ (mkUpdate (Some {["y" := str "hello"]}) (Some {["x" := VInvalid]}))
       = Some unset
    /\ forall info, info ∈ FieldsList sinfo -> Key info <> "_id" ->
       exists ro x,
         fieldValue recOmit info = Returns (ro, x)
         /\ ((OmitEmpty info = true /\ isZero ro x = Returns true
              /\ unset !! Key info = Some VInvalid /\ set !! Key info = None)
             \/ (~ (OmitEmpty info = true /\ isZero ro x = Returns true)
                 /\ set !! Key info = Some (packEface x)
                 /\ unset !! Key info = None)).
Proof.
  assert (HR : plainRecord recOmit) by (repeat split).
  split; [exact HR|].
  apply (AsUpdate_field_placement 0 recOmit _ HR). vm_compute. reflexivity.
Defined.

Lemma AsUpdate_map_witness :
  AsUpdate 1 mapId
  = Returns (mkUpdate
               (Some (packEface <$> delete "_id"
                        ({["_id" := str "hello"; "a" := str "goodbye"]} : gmap string value)))
               (Some ∅), None).
Proof.
  apply (AsUpdate_map 0); [reflexivity|reflexivity|].
  intros k x. rewrite lookup_insert. case_decide; [by intros [= <-]|].
  rewrite lookup_singleton. case_decide; [by intros [= <-]|]. done.
Defined.

Lemma AsUpdate_omits_id_witness :
  AsUpdate 1 recId = Returns (mkUpdate (Some {["a" := int 1]}) (Some ∅), None)
  /\ exists set unset,
       Set_ (mkUpdate (Some {["a" := int 1]}) (Some ∅)) = Some set
       /\ Unset_ (mkUpdate (Some {["a" := int 1]}) (Some ∅)) = Some unset
       /\ ("_id" ∉ dom set) /\ ("_id" ∉ dom unset).
Proof.
  assert (Hrun : AsUpdate 1 recId
                 = Returns (mkUpdate (Some {["a" := int 1]}) (Some ∅), None))
    by (vm_compute; reflexivity).
  split; [exact Hrun|]. exact (AsUpdate_omits_id 1 recId _ Hrun).
Defined.

Lemma AsUpdate_error_zero_witness :
  AsUpdate 1 (int 34)
  = Returns (zeroUpdate, Some (ErrCannotMarshal "Can't marshal int as a BSON document"))
  /\ zeroUpdate = zeroUpdate /\ Set_ zeroUpdate = None /\ Unset_ zeroUpdate = None.
Proof.
  assert (Hrun : AsUpdate 1 (int 34)
                 = Returns (zeroUpdate,
                            Some (ErrCannotMarshal "Can't marshal int as a BSON document")))
    by (vm_compute; reflexivity).
  split; [exact Hrun|]. exact (AsUpdate_error_zero 1 (int 34) _ _ Hrun).
Defined.

Lemma AsUpdate_resolution_witness :
  AsUpdate 3 chain
  = dispatch (VStruct "struct { A int }" [(exported "A" "", int 1)]) false
  /\ (forall err, Resolved (VStruct "struct { A int }" [(exported "A" "", int 1)]) false
                  = HookFailed err ->
        exists e, AsUpdate 3 chain = Returns (zeroUpdate, Some e)
                  /\ Error e = Some ("GetBSON failed: " ++ err))
  /\ (forall name getv, GetBSON (VPtr name None) = Some (getv, None) ->
        AsUpdate 4 (VPtr name None) = AsUpdate 3 getv).
Proof.
  apply (AsUpdate_resolution chain 3
           (Resolved (VStruct "struct { A int }" [(exported "A" "", int 1)]) false) 3);
    [|lia].
  eapply res_hook; [reflexivity|reflexivity|].
  eapply res_hook; [reflexivity|reflexivity|].
  eapply res_stop; [reflexivity|reflexivity|discriminate].
Defined.




Lemma zero_record_counterexample : ~ zero_record_as_stated false "mgoutil_test.S" recEmbedded.
Proof.
  intros [_ Hc]. assert (Hz : isZero false (VStruct "mgoutil_test.S" recEmbedded) = Returns true).
  { apply Hc. intros f x [[= -> ->]|[]%elem_of_nil]%elem_of_cons. discriminate. }
  vm_compute in Hz. discriminate.
Qed.

Lemma isZero_record_witness :
  isZero false (VStruct "mgoutil_test.S" recEmbedded) = Returns true <->
  forall f x, (f, x) ∈ recEmbedded -> testedField f = true ->
    isZero (negb (exportedField f)) x = Returns true.
Proof. apply (isZero_record false "mgoutil_test.S" recEmbedded). reflexivity. Defined.



(** The scenarios of the specification and of the test suite. *)
Example scenario_plain_field :
  AsUpdate 1 (VStruct "struct { X int }" [(exported "X" "", int 0)])
  = Returns (mkUpdate (Some {["x" := int 0]}) (Some ∅), None).
Proof. vm_compute. reflexivity. Qed.

Example scenario_omitempty :
  AsUpdate 1 recOmit
  = Returns (mkUpdate (Some {["y" := str "hello"]}) (Some {["x" := VInvalid]}), None).
Proof. vm_compute. reflexivity. Qed.

Example scenario_zero_time :
  AsUpdate 1 (VStruct "struct { T time.Time; U time.Time }"
                [(exported "T" (bsonTag ",omitempty"), TimeValue 0 0);
                 (exported "U" (bsonTag ",omitempty"), TimeValue 0 1)])
  = Returns (mkUpdate (Some {["u" := TimeValue 0 1]}) (Some {["t" := VInvalid]}), None).
Proof. vm_compute. reflexivity. Qed.

Example scenario_embedded_unexported :
  AsUpdate 1 (VStruct "mgoutil_test.Outer"
                [(embedded "inner" "mgoutil_test" "",
                  VStruct "mgoutil_test.inner" [(exported "A" "", int 1)])])
  = Panics (ReflectPanic
      "reflect.Value.Interface: cannot return value obtained from unexported field or method").
Proof. vm_compute. reflexivity. Qed.

Example scenario_map :
  AsUpdate 1 (bsonM {["A" := iface (str "b"); "C" := iface (int 213)]})
  = Returns (mkUpdate (Some {["A" := str "b"; "C" := int 213]}) (Some ∅), None).
Proof. vm_compute. reflexivity. Qed.

Example scenario_identity_field :
  AsUpdate 1 recId = Returns (mkUpdate (Some {["a" := int 1]}) (Some ∅), None).
Proof. vm_compute. reflexivity. Qed.

Example scenario_inline_record :
  AsUpdate 2 (ptr (inlineInt 1 2))
  = Returns (mkUpdate (Some {["a" := int 1; "b" := int 2]}) (Some ∅), None).
Proof. vm_compute. reflexivity. Qed.

Example scenario_inline_map :
  AsUpdate 2 (ptr recInline)
  = Returns (mkUpdate (Some {["a" := int 1; "b" := int 2]}) (Some ∅), None).
Proof. vm_compute. reflexivity. Qed.

Example scenario_inline_conflict :
  AsUpdate 2 (ptr recInlineClash) = Returns (zeroUpdate, Some (ErrInlineConflict "a")).
Proof. vm_compute. reflexivity. Qed.

Example scenario_duplicate_key :
  AsUpdate 2 (ptr structWithDupKeys)
  = Returns (zeroUpdate,
             Some (ErrDuplicatedKey "name" "mgoutil_test.structWithDupKeys")).
Proof. vm_compute. reflexivity. Qed.

Example scenario_scalar :
  AsUpdate 1 (int 34)
  = Returns (zeroUpdate, Some (ErrCannotMarshal "Can't marshal int as a BSON document")).
Proof. vm_compute. reflexivity. Qed.

Example scenario_hook_chain :
  AsUpdate 3 chain = Returns (mkUpdate (Some {["a" := int 1]}) (Some ∅), None).
Proof. vm_compute. reflexivity. Qed.

Example scenario_hook_error :
  AsUpdate 2 (ptr (typeWithGetter None (errorsNew "some error")))
  = Returns (zeroUpdate, Some (ErrGetBSONFailed "some error")).
Proof. vm_compute. reflexivity. Qed.

Example scenario_nil_receiver :
  AsUpdate 2 (VPtr "*mgoutil_test.typeWithGetter" None)
  = Returns (zeroUpdate,
             Some (ErrCannotMarshal "Can't marshal string as a BSON document")).
Proof. vm_compute. reflexivity. Qed.

Example scenario_map_key_not_string :
  AsUpdate 1 (VMap "map[int]string" (TBasic KInt "int") {["34" := str "hello"]})
  = Returns (zeroUpdate, Some ErrMapKeyNotString).
Proof. vm_compute. reflexivity. Qed.

Example scenario_nil_pointer :
  AsUpdate 2 (VPtr "*int" None)
  = Panics (ReflectPanic "reflect: call of reflect.Value.Interface on zero Value").
Proof. vm_compute. reflexivity. Qed.

Example scenario_raw_by_value :
  AsUpdate 1 (RawValue (3, []))
  = Panics (ReflectPanic "reflect.Value.Addr of unaddressable value").
Proof. vm_compute. reflexivity. Qed.

Example scenario_unsupported_flag :
  AsUpdate 1 recBadFlag
  = Panics (UnsupportedFlag "bogus" "x,bogus" "struct { X int }").
Proof. vm_compute. reflexivity. Qed.

(** *** The further properties on the values of the test suite *)

Lemma getStructInfo_map_list_witness :
  exists sinfo,
    getStructInfo (TypeOf (inlineInt 1 2)) = Returns (inl sinfo)
    /\ NoDup (Key <$> FieldsList sinfo)
    /\ Key <$> FieldsList sinfo = docKeys (TypeOf (inlineInt 1 2))
    /\ forall k info,
         FieldsMap sinfo !! k = Some info <-> info ∈ FieldsList sinfo /\ Key info = k.
Proof.
  eexists. split; [vm_compute; reflexivity|].
  apply (getStructInfo_map_list (TypeOf (inlineInt 1 2))). vm_compute. reflexivity.
Defined.

Lemma getStructInfo_plain_field_witness :
  exists sinfo,
    getStructInfo (TStruct "struct { X int; Y string }"
                     [(exported "X" (bsonTag ",omitempty"), TBasic KInt "int");
                      (exported "Y" "", TBasic KString "string")])
    = Returns (inl sinfo)
    /\ exists info,
         info ∈ FieldsList sinfo
         /\ FieldsMap sinfo !! Key info = Some info
         /\ Key info
            = (let name :=
                 hd "" (strings_Split (fieldTag (exported "X" (bsonTag ",omitempty"))) ",") in
               if bool_decide (name <> "") then name
               else strings_ToLower (Name (exported "X" (bsonTag ",omitempty"))))
         /\ Num info = 0%nat /\ Inline info = []
         /\ (OmitEmpty info = true <->
             "omitempty" ∈ tail (strings_Split (fieldTag (exported "X" (bsonTag ",omitempty"))) ","))
         /\ (MinSize info = true <->
             "minsize" ∈ tail (strings_Split (fieldTag (exported "X" (bsonTag ",omitempty"))) ",")).
Proof.
  eexists. split; [vm_compute; reflexivity|].
  apply (getStructInfo_plain_field "struct { X int; Y string }"
           [(exported "X" (bsonTag ",omitempty"), TBasic KInt "int");
            (exported "Y" "", TBasic KString "string")]
           0 (exported "X" (bsonTag ",omitempty")) (TBasic KInt "int")).
  - reflexivity.
  - reflexivity.
  - vm_compute. discriminate.
  - vm_compute. intros [Heq|[]%elem_of_nil]%elem_of_cons. discriminate.
  - vm_compute. reflexivity.
Defined.

Lemma getStructInfo_inlined_field_witness :
  exists sinfo sub,
    getStructInfo (TStruct "mgoutil_test.inlineInt"
                     [(exported "V" ",inline",
                       TStruct "struct { A int; B int }"
                         [(exported "A" "", TBasic KInt "int");
                          (exported "B" "", TBasic KInt "int")])])
    = Returns (inl sinfo)
    /\ getStructInfo (TStruct "struct { A int; B int }"
                        [(exported "A" "", TBasic KInt "int");
                         (exported "B" "", TBasic KInt "int")])
       = Returns (inl sub)
    /\ forall finfo, finfo ∈ FieldsList sub ->
         liftInline 0 finfo ∈ FieldsList sinfo
         /\ FieldsMap sinfo !! Key finfo = Some (liftInline 0 finfo).
Proof.
  edestruct (getStructInfo_inlined_field "mgoutil_test.inlineInt"
               [(exported "V" ",inline",
                 TStruct "struct { A int; B int }"
                   [(exported "A" "", TBasic KInt "int");
                    (exported "B" "", TBasic KInt "int")])]
               0 (exported "V" ",inline")
               (TStruct "struct { A int; B int }"
                  [(exported "A" "", TBasic KInt "int");
                   (exported "B" "", TBasic KInt "int")]))
    as (sub & Hsub & Hall);
    [reflexivity|vm_compute; reflexivity|vm_compute; reflexivity|].
  eexists _, sub. split; [vm_compute; reflexivity|]. split; [exact Hsub|exact Hall].
Defined.

Lemma getStructInfo_inline_map_witness :
  exists sinfo,
    getStructInfo (TStruct "mgoutil_test.inlineMap"
                     [(exported "A" "", TBasic KInt "int");
                      (exported "M" ",inline", TMap "map[string]interface {}" typeString)])
    = Returns (inl sinfo)
    /\ ((InlineMap sinfo = -1
         /\ forall j f t,
              [(exported "A" "", TBasic KInt "int");
               (exported "M" ",inline", TMap "map[string]interface {}" typeString)] !! j
              = Some (f, t) ->
              classify (TStruct "mgoutil_test.inlineMap"
                          [(exported "A" "", TBasic KInt "int");
                           (exported "M" ",inline",
                            TMap "map[string]interface {}" typeString)]) f t
              <> InlineMapField)
        \/ (exists j f name,
              [(exported "A" "", TBasic KInt "int");
               (exported "M" ",inline", TMap "map[string]interface {}" typeString)] !! j
              = Some (f, TMap name typeString)
              /\ classify (TStruct "mgoutil_test.inlineMap"
                             [(exported "A" "", TBasic KInt "int");
                              (exported "M" ",inline",
                               TMap "map[string]interface {}" typeString)])
                   f (TMap name typeString) = InlineMapField
              /\ InlineMap sinfo = Z.of_nat j
              /\ forall j' f' t',
                   [(exported "A" "", TBasic KInt "int");
                    (exported "M" ",inline", TMap "map[string]interface {}" typeString)] !! j'
                   = Some (f', t') ->
                   classify (TStruct "mgoutil_test.inlineMap"
                               [(exported "A" "", TBasic KInt "int");
                                (exported "M" ",inline",
                                 TMap "map[string]interface {}" typeString)]) f' t'
                   = InlineMapField -> j' = j)).
Proof.
  eexists. split; [vm_compute; reflexivity|].
  apply (getStructInfo_inline_map "mgoutil_test.inlineMap"
           [(exported "A" "", TBasic KInt "int");
            (exported "M" ",inline", TMap "map[string]interface {}" typeString)]).
  vm_compute. reflexivity.
Defined.

Lemma getStructInfo_paths_witness :
  exists sinfo,
    getStructInfo (TypeOf recInline) = Returns (inl sinfo)
    /\ (forall info, info ∈ FieldsList sinfo ->
          exists ro x, fieldValue recInline info = Returns (ro, x))
    /\ (0 <= InlineMap sinfo ->
        exists ro name m,
          Field recInline (Z.to_nat (InlineMap sinfo))
          = Returns (ro, VMap name typeString m)).
Proof.
  eexists. split; [vm_compute; reflexivity|].
  apply (getStructInfo_paths recInline). vm_compute. reflexivity.
Defined.

Lemma getStructInfoCached_transparent_witness :
  fst (getStructInfoCached (TypeOf (inlineInt 1 2)) []) = getStructInfo (TypeOf (inlineInt 1 2))
  /\ coherent (snd (getStructInfoCached (TypeOf (inlineInt 1 2)) []))
  /\ extends [] (snd (getStructInfoCached (TypeOf (inlineInt 1 2)) []))
  /\ forall sinfo, getStructInfo (TypeOf (inlineInt 1 2)) = Returns (inl sinfo) ->
       getStructInfoCached (TypeOf (inlineInt 1 2))
         (snd (getStructInfoCached (TypeOf (inlineInt 1 2)) []))
       = (Returns (inl sinfo), snd (getStructInfoCached (TypeOf (inlineInt 1 2)) [])).
Proof.
  apply (getStructInfoCached_transparent (TypeOf (inlineInt 1 2)) []).
  intros t sinfo Hl. simpl in Hl. discriminate.
Defined.

Lemma isZero_private_fields_witness :
  isZero false (VStruct "mgoutil_test.T" [(private "a" "", int 1); (exported "B" "", int 0)])
  = isZero false (VStruct "mgoutil_test.T" [(private "a" "", int 2); (exported "B" "", int 0)]).
Proof.
  apply (isZero_private_fields false "mgoutil_test.T"
           [(private "a" "", int 1); (exported "B" "", int 0)]
           [(private "a" "", int 2); (exported "B" "", int 0)]).
  - repeat constructor. simpl. discriminate.
  - reflexivity.
  - reflexivity.
Defined.

Lemma AsUpdate_nil_witness :
  AsUpdate 1 VInvalid
  = Panics (ReflectPanic "reflect: call of reflect.Value.Interface on zero Value")
  /\ AsUpdate 2 (VPtr "*int" None)
     = Panics (ReflectPanic "reflect: call of reflect.Value.Interface on zero Value").
Proof. apply (AsUpdate_nil 0 "*int"). reflexivity. Defined.

Lemma AsUpdate_pointer_witness : AsUpdate 2 (ptr recOmit) = AsUpdate 1 recOmit.
Proof. apply (AsUpdate_pointer 1 _ recOmit); reflexivity. Defined.

Lemma AsUpdate_key_kind_witness :
  AsUpdate 1 (VMap "map[int]string" (TBasic KInt "int") {["34" := str "hello"]})
  = Returns (zeroUpdate, Some ErrMapKeyNotString).
Proof.
  apply (AsUpdate_key_kind 0 "map[int]string" (TBasic KInt "int")); [discriminate|reflexivity].
Defined.

Lemma AsUpdate_codec_witness :
  AsUpdate 1 (int 34) = viaCodec (packEface (int 34))
  /\ (forall err, bson_Marshal (packEface (int 34)) = inr err ->
        exists e, AsUpdate 1 (int 34) = Returns (zeroUpdate, Some e)
                  /\ Error e = Some ("cannot marshal: " ++ err)).
Proof.
  apply (AsUpdate_codec 0 (int 34)); [reflexivity|reflexivity|discriminate..].
Defined.

Lemma AsUpdate_raw_witness :
  AsUpdate 1 (RawValue (3, []))
  = Panics (ReflectPanic "reflect.Value.Addr of unaddressable value")
  /\ AsUpdate 2 (VPtr "*bson.Raw" (Some (RawValue (3, []))))
     = viaCodec (Addr (RawValue (3, []))).
Proof. apply (AsUpdate_raw 0 "*bson.Raw" (RawValue (3, []))); reflexivity. Defined.

Lemma AsUpdate_unset_nil_witness :
  map_Forall (fun _ y => y = VInvalid) ({["x" := VInvalid]} : gmap string value).
Proof.
  apply (AsUpdate_unset_nil 1 recOmit
           (mkUpdate (Some {["y" := str "hello"]}) (Some {["x" := VInvalid]})) None
           {["x" := VInvalid]}).
  - vm_compute. reflexivity.
  - reflexivity.
Defined.

Lemma AsUpdate_unset_keys_witness :
  exists sinfo,
    getStructInfo (TypeOf recOmit) = Returns (inl sinfo)
    /\ forall k,
         is_Some (({["x" := VInvalid]} : gmap string value) !! k) <->
         exists info ro x,
           info ∈ FieldsList sinfo /\ Key info = k /\ k <> "_id" /\ OmitEmpty info = true
           /\ fieldValue recOmit info = Returns (ro, x) /\ isZero ro x = Returns true.
Proof.
  eexists. split; [vm_compute; reflexivity|].
  apply (AsUpdate_unset_keys 0 recOmit
           (mkUpdate (Some {["y" := str "hello"]}) (Some {["x" := VInvalid]}))).
  - repeat split.
  - vm_compute. reflexivity.
  - vm_compute. reflexivity.
  - reflexivity.
Defined.

Lemma AsUpdate_idempotent_witness :
  AsUpdate 1 (asDocument {["y" := str "hello"]})
  = Returns (mkUpdate (Some {["y" := str "hello"]}) (Some ∅), None).
Proof.
  apply (AsUpdate_idempotent 1 0 recOmit
           (mkUpdate (Some {["y" := str "hello"]}) (Some {["x" := VInvalid]}))).
  - vm_compute. reflexivity.
  - reflexivity.
  - reflexivity.
Defined.

Lemma AsUpdate_unexported_witness :
  OmitEmpty (mkFieldInfo "inner" 0 true false []) = true
  /\ isZero true (VStruct "mgoutil_test.inner" [(exported "A" "", int 0)]) = Returns true
  /\ exists unset,
       Unset_ (mkUpdate (Some ∅) (Some {["inner" := VInvalid]})) = Some unset
       /\ unset !! Key (mkFieldInfo "inner" 0 true false []) = Some VInvalid.
Proof.
  eapply (AsUpdate_unexported 0
            (VStruct "mgoutil_test.Outer"
               [(embedded "inner" "mgoutil_test" (bsonTag ",omitempty"),
                 VStruct "mgoutil_test.inner" [(exported "A" "", int 0)])])).
  - repeat split.
  - vm_compute. reflexivity.
  - vm_compute. reflexivity.
  - apply list_elem_of_here.
  - discriminate.
  - reflexivity.
Defined.

Lemma AsUpdate_succeeds_witness :
  exists set unset, AsUpdate 1 recInline = Returns (mkUpdate (Some set) (Some unset), None).
Proof.
  apply (AsUpdate_succeeds 0 recInline).
  - repeat split.
  - reflexivity.
  - vm_compute. apply NoDup_singleton.
  - reflexivity.
  - intros sinfo k Hs. vm_compute in Hs. injection Hs as <-.
    match goal with
    | |- context [inlineMapOf ?r ?s] =>
        replace (inlineMapOf r s) with ({["b" := iface (int 2)]} : gmap string value)
          by (vm_compute; reflexivity)
    end.
    intros [y [<- _]%lookup_singleton_Some]. vm_compute.
    intros [Heq|[]%elem_of_nil]%elem_of_cons. discriminate.
Defined.

Lemma AsUpdate_panics_witness :
  interfacePanic
    (AsUpdate 1 (VStruct "mgoutil_test.Outer"
                   [(embedded "inner" "mgoutil_test" "",
                     VStruct "mgoutil_test.inner" [(exported "A" "", int 1)])])).
Proof.
  eapply (AsUpdate_panics 0).
  - repeat split.
  - vm_compute. reflexivity.
Defined.

Lemma AsUpdate_hook_loop_witness :
  @AsUpdate SelfGetter.collaborators 5 (VStruct "mgoutil_test.self" []) = OutOfFuel.
Proof.
  apply (@AsUpdate_hook_loop SelfGetter.collaborators 5 (VStruct "mgoutil_test.self" []));
    reflexivity.
Defined.

(** Further scenarios. *)

Example scenario_wrapInDoc :
  wrapInDoc "abc"
  = Some (String (ascii_of_nat 8) (String zero (String zero (String zero
            ("abc" ++ String zero ""))))).
Proof. vm_compute. reflexivity. Qed.

Example scenario_two_inline_maps :
  getStructInfo
    (TStruct "mgoutil_test.twoMaps"
       [(exported "M" ",inline", TMap "map[string]int" typeString);
        (exported "N" ",inline", TMap "map[string]int" typeString)])
  = Returns (inr (ErrMultipleInlineMaps "mgoutil_test.twoMaps")).
Proof. vm_compute. reflexivity. Qed.

Example scenario_inline_map_key :
  getStructInfo
    (TStruct "mgoutil_test.intMap"
       [(exported "M" ",inline", TMap "map[int]int" (TBasic KInt "int"))])
  = Returns (inr (ErrInlineMapKey "mgoutil_test.intMap")).
Proof. vm_compute. reflexivity. Qed.

Example scenario_inline_scalar :
  getStructInfo
    (TStruct "mgoutil_test.inlineScalar" [(exported "X" ",inline", TBasic KInt "int")])
  = Panics InlineNeedsStructOrMap.
Proof. vm_compute. reflexivity. Qed.

Example scenario_nested_inline_map :
  AsUpdate 1
    (VStruct "mgoutil_test.outer"
       [(exported "V" ",inline", inlineMap 1 {["b" := iface (int 2)]})])
  = Returns (mkUpdate (Some {["a" := int 1]}) (Some ∅), None).
Proof. vm_compute. reflexivity. Qed.

Example scenario_table :
  snd (getStructInfoCached (TypeOf (inlineInt 1 2)) [])
  = [(TypeOf (inlineInt 1 2),
      mkStructInfo
        {["a" := mkFieldInfo "a" 0 false false [0; 0]%nat;
          "b" := mkFieldInfo "b" 1 false false [0; 1]%nat]}
        [mkFieldInfo "a" 0 false false [0; 0]%nat; mkFieldInfo "b" 1 false false [0; 1]%nat]
        (-1));
     (TStruct "struct { A int; B int }"
        [(exported "A" "", TBasic KInt "int"); (exported "B" "", TBasic KInt "int")],
      mkStructInfo
        {["a" := mkFieldInfo "a" 0 false false []; "b" := mkFieldInfo "b" 1 false false []]}
        [mkFieldInfo "a" 0 false false []; mkFieldInfo "b" 1 false false []]
        (-1))].
Proof. vm_compute. reflexivity. Qed.

Example scenario_flag_before_duplicate :
  AsUpdate 1
    (VStruct "struct { X int; A int; B int }"
       [(exported "X" (bsonTag "x,bogus"), int 3); (exported "A" "", int 1);
        (exported "B" (bsonTag "a"), int 2)])
  = Panics (UnsupportedFlag "bogus" "x,bogus" "struct { X int; A int; B int }").
Proof. vm_compute. reflexivity. Qed.

Example scenario_inline_maps_before_duplicate :
  getStructInfo
    (TStruct "mgoutil_test.twoMapsDup"
       [(exported "M" ",inline", TMap "map[string]int" typeString);
        (exported "N" ",inline", TMap "map[string]int" typeString);
        (exported "A" "", TBasic KInt "int");
        (exported "B" (bsonTag "a"), TBasic KInt "int")])
  = Returns (inr (ErrMultipleInlineMaps "mgoutil_test.twoMapsDup")).
Proof. vm_compute. reflexivity. Qed.
